(** * Differentiable robot model: kinematics and dynamics of a link tree

    A shallow embedding of [differentiable_robot_model/spatial_vector_algebra.py]
    and [differentiable_robot_model/robot_model.py].

    Modelling conventions.
    - A torch scalar is a real number ([R]): the ideal value a float stands for.
      Rounding is left out; a division whose divisor is exactly zero is the one
      float effect kept, as the outcome [NonFinite] (IEEE gives an infinity or a
      NaN there, never a finite number).
    - A batched tensor is the list of its rows, and torch's batched operators
      act on every row alike, so the link-level algebra is written for one row
      and the batched entry points map it over the rows.
    - Python exceptions are values of [exn]; a call returns its outcome
      together with the state it leaves behind, also when it raises.
      [Diverges] marks a walk along parent links that does not reach the base
      within as many steps as there are links, where the source loops on. *)

From Stdlib Require Import String.
From Stdlib Require Import Reals Lra Lia List Bool Arith PeanoNat Sorted.
Import ListNotations.
Open Scope R_scope.

(** ** Outcomes of a call *)

Inductive exn : Type :=
| AssertionError
| IndexError
| KeyError
| ValueError
| RuntimeError
| TypeError
| AttributeError
| UnboundLocalError
| NonFinite
| Diverges.

Inductive res (A : Type) : Type :=
| Ok (a : A)
| Raise (e : exn).
Arguments Ok {A} a.
Arguments Raise {A} e.

Definition res_bind {A B} (x : res A) (k : A -> res B) : res B :=
  match x with
  | Ok a => k a
  | Raise e => Raise e
  end.

Declare Scope res_scope.
Delimit Scope res_scope with res.
Notation "'let?' x ':=' c 'in' k" := (res_bind c (fun x => k))
  (at level 10, x pattern, c at level 100, k at level 200) : res_scope.
Open Scope res_scope.

Definition assert (b : bool) : res unit :=
  if b then Ok tt else Raise AssertionError.

Fixpoint res_map {A B} (f : A -> res B) (l : list A) : res (list B) :=
  match l with
  | [] => Ok []
  | x :: l' =>
      let? y := f x in
      let? ys := res_map f l' in
      Ok (y :: ys)
  end.

(** Python's [l[i]] on a list: an [IndexError] out of range. *)
Definition py_nth {A} (l : list A) (i : nat) : res A :=
  match nth_error l i with
  | Some a => Ok a
  | None => Raise IndexError
  end.

(** In-place [l[i] = v]; out of range the list is left as it is (the model
    only writes at indices it has just read). *)
Fixpoint set_nth {A} (l : list A) (i : nat) (v : A) : list A :=
  match l, i with
  | [], _ => []
  | _ :: l', O => v :: l'
  | x :: l', S i' => x :: set_nth l' i' v
  end.

(** ** Spatial vector algebra ([spatial_vector_algebra.py]) *)

Module SpatialVectorAlgebra.

Record vec3 : Type := V3 { vx : R; vy : R; vz : R }.

Record mat3 : Type := M3 {
  m00 : R; m01 : R; m02 : R;
  m10 : R; m11 : R; m12 : R;
  m20 : R; m21 : R; m22 : R }.

Definition vzero : vec3 := V3 0 0 0.
Definition vadd (a b : vec3) : vec3 := V3 (vx a + vx b) (vy a + vy b) (vz a + vz b).
Definition vsub (a b : vec3) : vec3 := V3 (vx a - vx b) (vy a - vy b) (vz a - vz b).
Definition vneg (a : vec3) : vec3 := V3 (- vx a) (- vy a) (- vz a).
Definition vscale (k : R) (a : vec3) : vec3 := V3 (k * vx a) (k * vy a) (k * vz a).
Definition vdot (a b : vec3) : R := vx a * vx b + vy a * vy b + vz a * vz b.

Definition mat_eye : mat3 := M3 1 0 0 0 1 0 0 0 1.

(** [A @ v] for a 3x3 matrix and a column vector. *)
Definition mat_vec (A : mat3) (v : vec3) : vec3 :=
  V3 (m00 A * vx v + m01 A * vy v + m02 A * vz v)
     (m10 A * vx v + m11 A * vy v + m12 A * vz v)
     (m20 A * vx v + m21 A * vy v + m22 A * vz v).

(** [A @ B]. *)
Definition mat_mul (A B : mat3) : mat3 :=
  M3 (m00 A * m00 B + m01 A * m10 B + m02 A * m20 B)
     (m00 A * m01 B + m01 A * m11 B + m02 A * m21 B)
     (m00 A * m02 B + m01 A * m12 B + m02 A * m22 B)
     (m10 A * m00 B + m11 A * m10 B + m12 A * m20 B)
     (m10 A * m01 B + m11 A * m11 B + m12 A * m21 B)
     (m10 A * m02 B + m11 A * m12 B + m12 A * m22 B)
     (m20 A * m00 B + m21 A * m10 B + m22 A * m20 B)
     (m20 A * m01 B + m21 A * m11 B + m22 A * m21 B)
     (m20 A * m02 B + m21 A * m12 B + m22 A * m22 B).

(** [A.transpose(-2, -1)]. *)
Definition mat_transpose (A : mat3) : mat3 :=
  M3 (m00 A) (m10 A) (m20 A)
     (m01 A) (m11 A) (m21 A)
     (m02 A) (m12 A) (m22 A).

Definition mat_add (A B : mat3) : mat3 :=
  M3 (m00 A + m00 B) (m01 A + m01 B) (m02 A + m02 B)
     (m10 A + m10 B) (m11 A + m11 B) (m12 A + m12 B)
     (m20 A + m20 B) (m21 A + m21 B) (m22 A + m22 B).

Definition mat_scale (k : R) (A : mat3) : mat3 :=
  M3 (k * m00 A) (k * m01 A) (k * m02 A)
     (k * m10 A) (k * m11 A) (k * m12 A)
     (k * m20 A) (k * m21 A) (k * m22 A).

Definition mat_neg (A : mat3) : mat3 := mat_scale (-1) A.

(** Modelled from the spec: [utils.cross_product] is not among the sources;
    it is the cross product of two 3-vectors, row by row. *)
Definition cross_product (a b : vec3) : vec3 :=
  V3 (vy a * vz b - vz a * vy b)
     (vz a * vx b - vx a * vz b)
     (vx a * vy b - vy a * vx b).

(** Modelled from the spec: [utils.vector3_to_skew_symm_matrix] is not among
    the sources; it is the matrix [[v]x] with [[v]x @ w = v x w], the same
    matrix [to_matrix] writes out entry by entry. *)
Definition vector3_to_skew_symm_matrix (v : vec3) : mat3 :=
  M3 0 (- vz v) (vy v)
     (vz v) 0 (- vx v)
     (- vy v) (vx v) 0.

Definition x_rot (angle : R) : mat3 :=
  M3 1 0 0
     0 (cos angle) (- sin angle)
     0 (sin angle) (cos angle).

Definition y_rot (angle : R) : mat3 :=
  M3 (cos angle) 0 (sin angle)
     0 1 0
     (- sin angle) 0 (cos angle).

Definition z_rot (angle : R) : mat3 :=
  M3 (cos angle) (- sin angle) 0
     (sin angle) (cos angle) 0
     0 0 1.

(** *** CoordinateTransform *)

Record CoordinateTransform : Type := mkTransform {
  rotation : mat3;
  translation : vec3 }.

(** [CoordinateTransform()] with no arguments: identity rotation, zero shift. *)
Definition transform_id : CoordinateTransform := mkTransform mat_eye vzero.

Definition inverse (t : CoordinateTransform) : CoordinateTransform :=
  let rot_transpose := mat_transpose (rotation t) in
  mkTransform rot_transpose (vneg (mat_vec rot_transpose (translation t))).

Definition multiply_transform (t c : CoordinateTransform) : CoordinateTransform :=
  let new_rot := mat_mul (rotation t) (rotation c) in
  let new_trans := vadd (mat_vec (rotation t) (translation c)) (translation t) in
  mkTransform new_rot new_trans.

Definition trans_cross_rot (t : CoordinateTransform) : mat3 :=
  mat_mul (vector3_to_skew_symm_matrix (translation t)) (rotation t).

(** *** Spatial motion and force vectors *)

Record SpatialMotionVec : Type := mkMotion { lin : vec3; ang : vec3 }.
Record SpatialForceVec : Type := mkForce { flin : vec3; fang : vec3 }.

(** [SpatialMotionVec(device=...)] and [SpatialForceVec(device=...)]: zeros. *)
Definition motion_zero : SpatialMotionVec := mkMotion vzero vzero.
Definition force_zero : SpatialForceVec := mkForce vzero vzero.

Definition add_motion_vec (s smv : SpatialMotionVec) : SpatialMotionVec :=
  mkMotion (vadd (lin s) (lin smv)) (vadd (ang s) (ang smv)).

Definition cross_motion_vec (s smv : SpatialMotionVec) : SpatialMotionVec :=
  let new_ang := cross_product (ang s) (ang smv) in
  let new_lin := vadd (cross_product (ang s) (lin smv))
                      (cross_product (lin s) (ang smv)) in
  mkMotion new_lin new_ang.

Definition cross_force_vec (s : SpatialMotionVec) (sfv : SpatialForceVec)
  : SpatialForceVec :=
  let new_ang := vadd (cross_product (ang s) (fang sfv))
                      (cross_product (lin s) (flin sfv)) in
  let new_lin := cross_product (ang s) (flin sfv) in
  mkForce new_lin new_ang.

(** [SpatialMotionVec.transform]. *)
Definition motion_transform (s : SpatialMotionVec) (t : CoordinateTransform)
  : SpatialMotionVec :=
  let new_ang := mat_vec (rotation t) (ang s) in
  let new_lin := vadd (mat_vec (trans_cross_rot t) (ang s))
                      (mat_vec (rotation t) (lin s)) in
  mkMotion new_lin new_ang.

(** [SpatialForceVec.transform]. *)
Definition force_transform (f : SpatialForceVec) (t : CoordinateTransform)
  : SpatialForceVec :=
  let new_lin := mat_vec (rotation t) (flin f) in
  let new_ang := vadd (mat_vec (trans_cross_rot t) (flin f))
                      (mat_vec (rotation t) (fang f)) in
  mkForce new_lin new_ang.

Definition add_force_vec (f sfv : SpatialForceVec) : SpatialForceVec :=
  mkForce (vadd (flin f) (flin sfv)) (vadd (fang f) (fang sfv)).

(** [get_vector]: the angular part first, then the linear part. *)
Definition vec3_list (v : vec3) : list R := [vx v; vy v; vz v].
Definition motion_get_vector (s : SpatialMotionVec) : list R :=
  vec3_list (ang s) ++ vec3_list (lin s).
Definition force_get_vector (f : SpatialForceVec) : list R :=
  vec3_list (fang f) ++ vec3_list (flin f).

(** [SpatialMotionVec.multiply] (the source builds a force-typed value there;
    every caller adds it to a motion vector, reading only [lin] and [ang]). *)
Definition motion_multiply (s : SpatialMotionVec) (v : R) : SpatialMotionVec :=
  mkMotion (vscale v (lin s)) (vscale v (ang s)).

Definition force_multiply (f : SpatialForceVec) (v : R) : SpatialForceVec :=
  mkForce (vscale v (flin f)) (vscale v (fang f)).

(** [dot]: both classes pair angular with angular and linear with linear. *)
Definition motion_dot_force (s : SpatialMotionVec) (f : SpatialForceVec) : R :=
  vdot (ang s) (fang f) + vdot (lin s) (flin f).
Definition force_dot_motion (f : SpatialForceVec) (s : SpatialMotionVec) : R :=
  vdot (fang f) (ang s) + vdot (flin f) (lin s).

(** *** DifferentiableSpatialRigidBodyInertia *)

Record Inertia : Type := mkInertia {
  mass : R;
  com : vec3;
  inertia_mat : mat3 }.

Definition rot_inertia (I : Inertia) : mat3 :=
  let com_skew_symm_mat := vector3_to_skew_symm_matrix (com I) in
  mat_add (inertia_mat I)
          (mat_scale (mass I)
             (mat_mul com_skew_symm_mat (mat_transpose com_skew_symm_mat))).

Definition multiply_motion_vec (I : Inertia) (smv : SpatialMotionVec)
  : SpatialForceVec :=
  let mcom := vscale (mass I) (com I) in
  let inertia := rot_inertia I in
  let new_lin_force :=
    vsub (vscale (mass I) (lin smv)) (cross_product mcom (ang smv)) in
  let new_ang_force :=
    vadd (mat_vec inertia (ang smv)) (cross_product mcom (lin smv)) in
  mkForce new_lin_force new_ang_force.

(** *** Quaternion of a rotation ([CoordinateTransform.get_quaternion]) *)

(** Modelled from the spec: [utils.sqrt_positive_part] is not among the
    sources; the square root of the positive part, zero elsewhere. *)
Definition sqrt_positive_part (x : R) : R := sqrt (Rmax 0 x).

(** [q_abs.argmax(dim=-1)]: the first position of the largest value. *)
Definition argmax4 (a0 a1 a2 a3 : R) : nat :=
  let best01 := if Rlt_dec a0 a1 then (1%nat, a1) else (0%nat, a0) in
  let best012 := if Rlt_dec (snd best01) a2 then (2%nat, a2) else best01 in
  let best := if Rlt_dec (snd best012) a3 then (3%nat, a3) else best012 in
  fst best.

(** The quaternion [x, y, z, w] of the rotation of [t]. *)
Definition get_quaternion (t : CoordinateTransform) : list R :=
  let r := rotation t in
  let q0 := sqrt_positive_part (1 + m00 r + m11 r + m22 r) in
  let q1 := sqrt_positive_part (1 + m00 r - m11 r - m22 r) in
  let q2 := sqrt_positive_part (1 - m00 r + m11 r - m22 r) in
  let q3 := sqrt_positive_part (1 - m00 r - m11 r + m22 r) in
  let quat_by_rijk :=
    [ [q0 * q0; m21 r - m12 r; m02 r - m20 r; m10 r - m01 r];
      [m21 r - m12 r; q1 * q1; m10 r + m01 r; m02 r + m20 r];
      [m02 r - m20 r; m10 r + m01 r; q2 * q2; m12 r + m21 r];
      [m10 r - m01 r; m20 r + m02 r; m21 r + m12 r; q3 * q3] ] in
  let flr := 0.1 in
  let quat_candidates :=
    map (fun '(row, qa) => map (fun x => x / (2 * Rmax qa flr)) row)
        (combine quat_by_rijk [q0; q1; q2; q3]) in
  let q2' := nth (argmax4 q0 q1 q2 q3) quat_candidates [] in
  [nth 1 q2' 0; nth 2 q2' 0; nth 3 q2' 0; nth 0 q2' 0].

(** *** 6x6 matrices of the articulated-body pass *)

(** A 6-vector is [angular; linear]; a 6x6 matrix is the list of its rows. *)
Definition mat6 : Type := list (list R).

Definition vec3_of_list (l : list R) : vec3 :=
  V3 (nth 0 l 0) (nth 1 l 0) (nth 2 l 0).

Definition mat3_rows (A : mat3) : list (list R) :=
  [[m00 A; m01 A; m02 A]; [m10 A; m11 A; m12 A]; [m20 A; m21 A; m22 A]].

Definition lsum (l : list R) : R := fold_right Rplus 0 l.

Definition ldot (a b : list R) : R :=
  lsum (map (fun '(x, y) => x * y) (combine a b)).

(** [torch.bmm(A, v[..., None])[..., 0]] for one row of the batch. *)
Definition lmat_vec (A : mat6) (v : list R) : list R :=
  map (fun row => ldot row v) A.

(** [A.transpose(-2, -1)] of a matrix with [n] columns. *)
Definition lmat_transpose (n : nat) (A : mat6) : mat6 :=
  map (fun j => map (fun row => nth j row 0) A) (seq 0 n).

Definition lmat_mul (A B : mat6) : mat6 :=
  map (fun row => map (fun col => ldot row col) (lmat_transpose 6 B)) A.

Definition lmat_zip (f : R -> R -> R) (A B : mat6) : mat6 :=
  map (fun '(ra, rb) => map (fun '(x, y) => f x y) (combine ra rb)) (combine A B).

Definition lmat_add : mat6 -> mat6 -> mat6 := lmat_zip Rplus.
Definition lmat_sub : mat6 -> mat6 -> mat6 := lmat_zip Rminus.

(** [torch.bmm(U.view(b, 6, 1), V.view(b, 1, 6))]. *)
Definition louter (a b : list R) : mat6 :=
  map (fun x => map (fun y => x * y) b) a.

Definition get_spatial_mat (I : Inertia) : mat6 :=
  let mcom := vscale (mass I) (com I) in
  let inertia := rot_inertia I in
  [ [m00 inertia; m01 inertia; m02 inertia; 0; - vz mcom; vy mcom];
    [m10 inertia; m11 inertia; m12 inertia; vz mcom; 0; - vx mcom];
    [m20 inertia; m21 inertia; m22 inertia; - vy mcom; vx mcom; 0];
    [0; vz mcom; - vy mcom; mass I; 0; 0];
    [- vz mcom; 0; vx mcom; 0; mass I; 0];
    [vy mcom; - vx mcom; 0; 0; 0; mass I] ].

(** [CoordinateTransform.to_matrix]. *)
Definition to_matrix (tr : CoordinateTransform) : mat6 :=
  let t := vector3_to_skew_symm_matrix (translation tr) in
  let rt := mat_transpose (rotation tr) in
  let Erx := mat_mul rt t in
  map (fun '(a, b) => a ++ b)
      (combine (mat3_rows rt) [[0; 0; 0]; [0; 0; 0]; [0; 0; 0]])
  ++ map (fun '(a, b) => a ++ b)
      (combine (mat3_rows (mat_neg Erx)) (mat3_rows rt)).

(** *** Rotation matrices *)

Definition det3 (A : mat3) : R :=
  m00 A * (m11 A * m22 A - m12 A * m21 A)
  - m01 A * (m10 A * m22 A - m12 A * m20 A)
  + m02 A * (m10 A * m21 A - m11 A * m20 A).

(** A proper rotation: orthogonal, with determinant one. *)
Definition is_rotation (A : mat3) : Prop :=
  mat_mul A (mat_transpose A) = mat_eye
  /\ mat_mul (mat_transpose A) A = mat_eye
  /\ det3 A = 1.

(** The matrix of cofactors. *)
Definition cofactor (A : mat3) : mat3 :=
  M3 (m11 A * m22 A - m12 A * m21 A) (m12 A * m20 A - m10 A * m22 A)
     (m10 A * m21 A - m11 A * m20 A)
     (m02 A * m21 A - m01 A * m22 A) (m00 A * m22 A - m02 A * m20 A)
     (m01 A * m20 A - m00 A * m21 A)
     (m01 A * m12 A - m02 A * m11 A) (m02 A * m10 A - m00 A * m12 A)
     (m00 A * m11 A - m01 A * m10 A).

(** A symmetric 3x3 matrix, and one whose quadratic form is never negative. *)
Definition symmetric3 (A : mat3) : Prop :=
  m01 A = m10 A /\ m02 A = m20 A /\ m12 A = m21 A.

Definition psd3 (A : mat3) : Prop :=
  forall w : vec3, 0 <= vdot w (mat_vec A w).

End SpatialVectorAlgebra.

(** ** Tensors and the [tensor_check] decorator *)

Module Torch.

(** A tensor of rank 0 to 4, by nested rows.  A tensor with an empty leading
    dimension keeps no trace of its other dimensions; shape tests on rows are
    therefore written over the rows that are there. *)
Inductive tensor : Type :=
| T0 (x : R)
| T1 (v : list R)
| T2 (rows : list (list R))
| T3 (mats : list (list (list R)))
| T4 (blocks : list (list (list (list R)))).

Definition ndim (t : tensor) : nat :=
  match t with T0 _ => 0 | T1 _ => 1 | T2 _ => 2 | T3 _ => 3 | T4 _ => 4 end%nat.

Definition shape (t : tensor) : list nat :=
  match t with
  | T0 _ => []
  | T1 v => [length v]
  | T2 rows => [length rows; length (hd [] rows)]
  | T3 mats => [length mats; length (hd [] mats); length (hd [] (hd [] mats))]
  | T4 bl => [length bl; length (hd [] bl); length (hd [] (hd [] bl));
              length (hd [] (hd [] (hd [] bl)))]
  end.

(** [arg.unsqueeze(0)]: a view of the same data under one more leading
    dimension of size 1. *)
Definition unsqueeze0 (t : tensor) : res tensor :=
  match t with
  | T0 x => Ok (T1 [x])
  | T1 v => Ok (T2 [v])
  | T2 rows => Ok (T3 [rows])
  | T3 mats => Ok (T4 [mats])
  | T4 _ => Raise RuntimeError
  end.

(** [arg[0, ...]]. *)
Definition index0 (t : tensor) : res tensor :=
  match t with
  | T0 _ => Raise IndexError
  | T1 v => let? x := py_nth v 0 in Ok (T0 x)
  | T2 rows => let? r := py_nth rows 0 in Ok (T1 r)
  | T3 mats => let? m := py_nth mats 0 in Ok (T2 m)
  | T4 bl => let? b := py_nth bl 0 in Ok (T3 b)
  end.

(** What a Python call passes and returns, as far as the decorator tells
    the values apart. *)
Inductive arg : Type :=
| ATensor (t : tensor)
| AStr (s : string)
| ABool (b : bool)
| ANum (x : R)
| ANone.

(** A tuple element, and a returned value: a tensor, a tuple, the dict of
    per-link poses, or [None]. *)
Inductive value : Type :=
| VTensor (t : tensor)
| VOther.

Inductive ret : Type :=
| RTensor (t : tensor)
| RTuple (l : list value)
| RDict (d : list (string * (tensor * tensor)))
| RNone.

Record BatchInfo : Type := mkBatchInfo {
  bi_shape : list nat;
  bi_init : bool }.

Definition BatchInfo0 : BatchInfo := mkBatchInfo [] false.

Definition list_nat_eqb (a b : list nat) : bool :=
  if list_eq_dec Nat.eq_dec a b then true else false.

(** [preprocess(arg, obj, batch_info)]; the device test is left out (one
    device).  It returns the argument handed on and the updated batch info. *)
Definition preprocess (a : arg) (bi : BatchInfo) : res (arg * BatchInfo) :=
  match a with
  | ATensor t =>
      let? _ := assert (Nat.eqb (ndim t) 1 || Nat.eqb (ndim t) 2) in
      let? bi' :=
        if bi_init bi
        then let? _ := assert (list_nat_eqb (bi_shape bi) (removelast (shape t))) in
             Ok bi
        else Ok (mkBatchInfo (removelast (shape t)) true) in
      if Nat.eqb (length (bi_shape bi')) 0
      then let? t' := unsqueeze0 t in Ok (ATensor t', bi')
      else Ok (a, bi')
  | _ => Ok (a, bi)
  end.

(** The two comprehensions of [wrapper]: arguments in call order, positional
    before keyword, all seeing the one [batch_info] object. *)
Fixpoint preprocess_all (args : list arg) (bi : BatchInfo)
  : res (list arg * BatchInfo) :=
  match args with
  | [] => Ok ([], bi)
  | a :: rest =>
      let? (a', bi1) := preprocess a bi in
      let? (rest', bi2) := preprocess_all rest bi1 in
      Ok (a' :: rest', bi2)
  end.

(** [postprocess(arg, batch_info)]: only a value that is itself a tensor
    loses its leading dimension. *)
Definition postprocess (v : value) (bi : BatchInfo) : res value :=
  match v with
  | VTensor t =>
      if bi_init bi && Nat.eqb (length (bi_shape bi)) 0
      then let? t' := index0 t in Ok (VTensor t')
      else Ok v
  | VOther => Ok v
  end.

(** The "Parse output" part of [wrapper]. *)
Definition parse_output (r : ret) (bi : BatchInfo) : res ret :=
  match r with
  | RTensor t =>
      let? v := postprocess (VTensor t) bi in
      match v with VTensor t' => Ok (RTensor t') | VOther => Ok r end
  | RTuple l => let? l' := res_map (fun x => postprocess x bi) l in Ok (RTuple l')
  | _ => Ok r
  end.

(** The caller's argument after the call.  [unsqueeze] returns a view, so a
    tensor the callee changed in place is changed for the caller too, under the
    caller's own shape. *)
Definition caller_view (a a' : arg) : arg :=
  match a, a' with
  | ATensor t, ATensor t' =>
      if Nat.eqb (ndim t) (ndim t') then a'
      else match index0 t' with Ok t0 => ATensor t0 | Raise _ => a end
  | _, _ => a
  end.

Fixpoint caller_views (args args' : list arg) : list arg :=
  match args, args' with
  | a :: r, a' :: r' => caller_view a a' :: caller_views r r'
  | _, _ => args
  end.

Section Wrapper.
(** The object state a method works on ([self]). *)
Variable world : Type.

(** A method: from the arguments and the object state to the outcome, the
    object state left behind and the arguments as the call leaves them. *)
Definition method : Type :=
  list arg -> world -> res ret * world * list arg.

(** [wrapper(self, *args, **kwargs)]. *)
Definition tensor_check (function : method) : method :=
  fun args w =>
    match preprocess_all args BatchInfo0 with
    | Raise e => (Raise e, w, args)
    | Ok (processed_args, batch_info) =>
        let '(r, w', args') := function processed_args w in
        (res_bind r (fun v => parse_output v batch_info),
         w', caller_views args args')
    end.
End Wrapper.
Arguments tensor_check {world} function args w.

(** An argument as a batch of one: a tensor gets a leading dimension of
    size 1, anything else stays. *)
Definition batched_arg (a : arg) : arg :=
  match a with
  | ATensor t => match unsqueeze0 t with
                 | Ok t' => ATensor t'
                 | Raise _ => a
                 end
  | _ => a
  end.

(** An argument that is no tensor, or a tensor of one dimension. *)
Definition unbatched (a : arg) : Prop :=
  match a with
  | ATensor t => ndim t = 1%nat
  | _ => True
  end.

Definition is_tensor (a : arg) : bool :=
  match a with ATensor _ => true | _ => false end.

(** A returned value with the batch dimension taken off: row 0 of a tensor
    and of every tensor of a tuple. *)
Definition first_row (r : ret) : res ret :=
  parse_output r (mkBatchInfo [] true).

End Torch.

(** ** The robot model ([robot_model.py]) *)

Module RobotModel.
Import SpatialVectorAlgebra Torch.

Inductive joint_kind : Type := fixed | revolute | prismatic.

(** What the robot-description loader hands over for one link
    ([get_body_parameters_from_urdf], [get_name_of_parent_body]).

    [joint_pose_of] stands for the part of [DifferentiableRigidBody] that is
    not among the sources: the joint frame, relative to the parent, that
    [update_joint_state] installs for a joint position. *)
Record rigid_body_params : Type := mkParams {
  link_name : string;
  parent_name : string;
  joint_type : joint_kind;
  joint_axis : vec3;
  joint_damping : R;
  inertia : Inertia;
  joint_pose_of : R -> CoordinateTransform }.

(** The links in the loader's order; link 0 is the base. *)
Definition robot : Type := list rigid_body_params.

Definition is_fixed (p : rigid_body_params) : bool :=
  match joint_type p with fixed => true | _ => false end.

(** [__init__]: [_controlled_joints] collects the indices of the links whose
    joint is not fixed, and [_n_dofs] counts them. *)
Fixpoint controlled_from (i : nat) (links : robot) : list nat :=
  match links with
  | [] => []
  | p :: rest =>
      if is_fixed p then controlled_from (S i) rest
      else i :: controlled_from (S i) rest
  end.

Definition controlled_joints (m : robot) : list nat := controlled_from 0 m.
Definition n_dofs (m : robot) : nat := length (controlled_joints m).

(** [_name_to_idx_map]: filled in link order, so a later link of the same
    name replaces an earlier one. *)
Fixpoint find_last (name : string) (i : nat) (links : robot) : option nat :=
  match links with
  | [] => None
  | p :: rest =>
      match find_last name (S i) rest with
      | Some j => Some j
      | None => if String.eqb (link_name p) name then Some i else None
      end
  end.

Definition name_to_idx_map (m : robot) (name : string) : res nat :=
  match find_last name 0 m with
  | Some i => Ok i
  | None => Raise KeyError
  end.

(** [list.index]: the first position of [x], a [ValueError] if there is none. *)
Fixpoint list_index (x : nat) (l : list nat) : res nat :=
  match l with
  | [] => Raise ValueError
  | y :: l' => if Nat.eqb y x then Ok 0%nat
               else let? k := list_index x l' in Ok (S k)
  end.

Definition get_link_names (m : robot) : list string := map link_name m.

(** The per-call fields of one link, for one batch row. *)
Record body_state : Type := mkBody {
  joint_pose : CoordinateTransform;
  joint_vel : SpatialMotionVec;
  joint_acc : SpatialMotionVec;
  pose : CoordinateTransform;
  vel : SpatialMotionVec;
  acc : SpatialMotionVec;
  force : SpatialForceVec;
  c : SpatialMotionVec;
  pA : SpatialForceVec;
  IA : mat6;
  S_ : SpatialMotionVec;
  U : SpatialForceVec;
  d : R;
  u : R }.

Definition set_joint (b : body_state) (jp : CoordinateTransform)
  (jv : SpatialMotionVec) : body_state :=
  mkBody jp jv (joint_acc b) (pose b) (vel b) (acc b) (force b)
         (c b) (pA b) (IA b) (S_ b) (U b) (d b) (u b).
Definition set_joint_acc (b : body_state) (ja : SpatialMotionVec) : body_state :=
  mkBody (joint_pose b) (joint_vel b) ja (pose b) (vel b) (acc b) (force b)
         (c b) (pA b) (IA b) (S_ b) (U b) (d b) (u b).
Definition set_pose (b : body_state) (x : CoordinateTransform) : body_state :=
  mkBody (joint_pose b) (joint_vel b) (joint_acc b) x (vel b) (acc b) (force b)
         (c b) (pA b) (IA b) (S_ b) (U b) (d b) (u b).
Definition set_vel (b : body_state) (x : SpatialMotionVec) : body_state :=
  mkBody (joint_pose b) (joint_vel b) (joint_acc b) (pose b) x (acc b) (force b)
         (c b) (pA b) (IA b) (S_ b) (U b) (d b) (u b).
Definition set_acc (b : body_state) (x : SpatialMotionVec) : body_state :=
  mkBody (joint_pose b) (joint_vel b) (joint_acc b) (pose b) (vel b) x (force b)
         (c b) (pA b) (IA b) (S_ b) (U b) (d b) (u b).
Definition set_force (b : body_state) (x : SpatialForceVec) : body_state :=
  mkBody (joint_pose b) (joint_vel b) (joint_acc b) (pose b) (vel b) (acc b) x
         (c b) (pA b) (IA b) (S_ b) (U b) (d b) (u b).
Definition set_bias (b : body_state) (c' : SpatialMotionVec)
  (pA' : SpatialForceVec) (IA' : mat6) : body_state :=
  mkBody (joint_pose b) (joint_vel b) (joint_acc b) (pose b) (vel b) (acc b)
         (force b) c' pA' IA' (S_ b) (U b) (d b) (u b).
Definition set_articulated (b : body_state) (IA' : mat6) (pA' : SpatialForceVec)
  : body_state :=
  mkBody (joint_pose b) (joint_vel b) (joint_acc b) (pose b) (vel b) (acc b)
         (force b) (c b) pA' IA' (S_ b) (U b) (d b) (u b).
Definition set_projection (b : body_state) (S' : SpatialMotionVec)
  (U' : SpatialForceVec) (d' u' : R) : body_state :=
  mkBody (joint_pose b) (joint_vel b) (joint_acc b) (pose b) (vel b) (acc b)
         (force b) (c b) (pA b) (IA b) S' U' d' u'.

(** The per-call fields of every link for one batch row, and for the batch. *)
Definition row_state : Type := list body_state.
Definition state : Type := list row_state.

(** Modelled from the spec: [DifferentiableRigidBody.update_joint_state] is
    not among the sources.  It installs the joint frame for the joint
    position and the joint-induced velocity, an angular velocity about the
    joint axis as in the motion subspace [S] of [compute_forward_dynamics]. *)
Definition update_joint_state (p : rigid_body_params) (q qd : R)
  (b : body_state) : body_state :=
  set_joint b (joint_pose_of p q) (mkMotion vzero (vscale qd (joint_axis p))).

(** Modelled from the spec: [DifferentiableRigidBody.update_joint_acc] is not
    among the sources; the joint's own acceleration about its axis. *)
Definition update_joint_acc (p : rigid_body_params) (qdd : R)
  (b : body_state) : body_state :=
  set_joint_acc b (mkMotion vzero (vscale qdd (joint_axis p))).

(** Modelled from the spec: the constructor of [DifferentiableRigidBody] is
    not among the sources.  A link starts at joint position zero, at rest,
    with the identity pose and no force ("per-call state is transient"). *)
Definition construction_body (p : rigid_body_params) : body_state :=
  mkBody (joint_pose_of p 0) motion_zero motion_zero transform_id
         motion_zero motion_zero force_zero
         motion_zero force_zero [] motion_zero force_zero 0 0.

Definition construction (m : robot) : row_state := map construction_body m.

(** The row a batched field shows to batch row [b]: a field of batch size 1
    broadcasts. *)
Definition brow (m : robot) (st : state) (b : nat) : row_state :=
  match st with
  | [r] => r
  | _ => nth b st (construction m)
  end.

(** *** Computations on the per-link fields of one row *)

Definition M (A : Type) : Type := row_state -> res A * row_state.

Definition mret {A} (a : A) : M A := fun s => (Ok a, s).
Definition mbind {A B} (x : M A) (k : A -> M B) : M B :=
  fun s => match x s with
           | (Ok a, s') => k a s'
           | (Raise e, s') => (Raise e, s')
           end.
Definition lift {A} (r : res A) : M A := fun s => (r, s).
Definition get_body (i : nat) : M body_state := fun s => (py_nth s i, s).
Definition put_body (i : nat) (b : body_state) : M unit :=
  fun s => (Ok tt, set_nth s i b).

Declare Scope m_scope.
Delimit Scope m_scope with M.
Notation "x <- c ;; k" := (mbind c (fun x => k))
  (at level 61, c at next level, right associativity) : m_scope.
Notation "c ;;; k" := (mbind c (fun _ => k))
  (at level 61, right associativity) : m_scope.
Open Scope m_scope.

(** [for i in l: body(i)], stopping where the body raises. *)
Fixpoint for_each (l : list nat) (body : nat -> M unit) : M unit :=
  match l with
  | [] => mret tt
  | i :: l' => body i ;;; for_each l' body
  end.

(** [range(lo, hi)] and [range(hi - 1, lo - 1, -1)]. *)
Definition range (lo hi : nat) : list nat := seq lo (hi - lo).
Definition range_down (hi lo : nat) : list nat := rev (range lo hi).

(** Run a row computation for every batch row, each row on its own row of
    the per-link fields; the outcome is the first exception, if any.  The
    source runs the body of an entry point once on whole tensors, so what it
    raises from the robot alone (no controlled joint, a link name that is not
    there, a joint axis off the coordinate axes) it raises whatever the batch
    size; here such an exception comes from the rows, and a batch without
    rows, whose tensors keep no trace of their other dimensions either, runs
    nothing and gives [Ok []].  The model follows the source on batches of at
    least one row. *)
Fixpoint collect {A} (l : list (res A)) : res (list A) :=
  match l with
  | [] => Ok []
  | r :: l' => let? a := r in let? rest := collect l' in Ok (a :: rest)
  end.

Definition run_batch {I A} (m : robot) (f : I -> M A) (inputs : list I)
  (st : state) : res (list A) * state :=
  let outs := map (fun '(b, x) => f x (brow m st b))
                  (combine (seq 0 (length inputs)) inputs) in
  (collect (map fst outs), map snd outs).

(** [t.shape[1] == n] for a 2-D tensor given by its rows. *)
Definition rows_have (n : nat) (rows : list (list R)) : bool :=
  forallb (fun r => Nat.eqb (length r) n) rows.

(** *** update_kinematic_state *)

Definition update_kinematic_state_row (m : robot) (q qd : list R) : M unit :=
  (* joints before the first controlled one get a zero state *)
  first <- lift (py_nth (controlled_joints m) 0) ;;
  for_each (range 0 first) (fun i =>
    p <- lift (py_nth m i) ;;
    b <- get_body i ;;
    put_body i (update_joint_state p 0 0 b)) ;;;
  for_each (range 0 (length q)) (fun i =>
    idx <- lift (py_nth (controlled_joints m) i) ;;
    p <- lift (py_nth m idx) ;;
    qi <- lift (py_nth q i) ;;
    qdi <- lift (py_nth qd i) ;;
    b <- get_body idx ;;
    put_body idx (update_joint_state p qi qdi b)) ;;;
  (* we assume a non-moving base *)
  parent_body <- get_body 0 ;;
  put_body 0 (set_vel parent_body (mkMotion vzero vzero)) ;;;
  for_each (range 1 (length m)) (fun i =>
    p <- lift (py_nth m i) ;;
    body <- get_body i ;;
    pidx <- lift (name_to_idx_map m (parent_name p)) ;;
    parent_body <- get_body pidx ;;
    let childToParentT := joint_pose body in
    let parentToChildT := inverse childToParentT in
    let pose' := multiply_transform (pose parent_body) childToParentT in
    let new_vel := motion_transform (vel parent_body) parentToChildT in
    put_body i (set_vel (set_pose body pose')
                        (add_motion_vec (joint_vel body) new_vel))).

(** The assertions of [update_kinematic_state], with the batch test its
    decorator makes on [q] against [qd]. *)
Definition kinematic_checks (m : robot) (q qd : list (list R)) : bool :=
  Nat.eqb (length q) (length qd)
  && rows_have (n_dofs m) q && rows_have (n_dofs m) qd.

Definition update_kinematic_state (m : robot) (q qd : tensor) (st : state)
  : res unit * state :=
  match q, qd with
  | T2 qr, T2 qdr =>
      if kinematic_checks m qr qdr then
        let '(r, st') :=
          run_batch m (fun '(qrow, qdrow) => update_kinematic_state_row m qrow qdrow)
                    (combine qr qdr) st in
        (let? _ := r in Ok tt, st')
      else (Raise AssertionError, st)
  | _, _ => (Raise AssertionError, st)
  end.

(** *** Forward kinematics by the ordered sweep *)

Definition zeros_like (rows : list (list R)) : list (list R) :=
  map (map (fun _ => 0)) rows.

Definition link_pose_row (m : robot) (name : string)
  : M (list R * list R) :=
  idx <- lift (name_to_idx_map m name) ;;
  b <- get_body idx ;;
  mret (vec3_list (translation (pose b)), get_quaternion (pose b)).

Definition forward_kinematics_row (m : robot) (name : string) (q : list R)
  : M (list R * list R) :=
  update_kinematic_state_row m q (map (fun _ => 0) q) ;;;
  link_pose_row m name.

Definition compute_forward_kinematics_sweep (m : robot) (q : tensor)
  (name : string) (st : state) : res ret * state :=
  match q with
  | T2 qr =>
      if kinematic_checks m qr (zeros_like qr) then
        let '(r, st') := run_batch m (forward_kinematics_row m name) qr st in
        (let? l := r in
         Ok (RTuple [VTensor (T2 (map fst l)); VTensor (T2 (map snd l))]), st')
      else (Raise AssertionError, st)
  | _ => (Raise AssertionError, st)
  end.

(** The pose of every link after the sweep, under the link names. *)
Definition all_poses_row (m : robot) (q : list R)
  : M (list (string * (list R * list R))) :=
  update_kinematic_state_row m q (map (fun _ => 0) q) ;;;
  fun s =>
    (res_map (fun name =>
                let? idx := name_to_idx_map m name in
                let? b := py_nth s idx in
                Ok (name, (vec3_list (translation (pose b)),
                           get_quaternion (pose b))))
             (get_link_names m), s).

(** A dict of batched poses from the per-row dicts: the keys are the link
    names, the same for every row. *)
Definition batch_dict (m : robot) (rows : list (list (string * (list R * list R))))
  : list (string * (tensor * tensor)) :=
  map (fun name =>
         let col := map (fun d =>
                      match find (fun kv => String.eqb (fst kv) name) d with
                      | Some kv => snd kv
                      | None => ([], [])
                      end) rows in
         (name, (T2 (map fst col), T2 (map snd col))))
      (get_link_names m).

Definition compute_forward_kinematics_all_links_sweep (m : robot) (q : tensor)
  (st : state) : res ret * state :=
  match q with
  | T2 qr =>
      if kinematic_checks m qr (zeros_like qr) then
        let '(r, st') := run_batch m (all_poses_row m) qr st in
        (let? l := r in Ok (RDict (batch_dict m l)), st')
      else (Raise AssertionError, st)
  | _ => (Raise AssertionError, st)
  end.

(** [pose_dict[link_name]]. *)
Definition dict_get (d : list (string * (tensor * tensor))) (name : string)
  : res (tensor * tensor) :=
  match find (fun kv => String.eqb (fst kv) name) d with
  | Some kv => Ok (snd kv)
  | None => Raise KeyError
  end.

(** *** End-effector Jacobians *)

(** A Jacobian of one batch row is kept by columns, one 3-vector per
    controlled joint; [jac_rows] lays it out as the 3 x n_dofs matrix. *)
Definition jac_rows (cols : list vec3) : list (list R) :=
  [map vx cols; map vy cols; map vz cols].

Definition mapi {A B} (f : nat -> A -> B) (l : list A) : list B :=
  map (fun '(i, a) => f i a) (combine (seq 0 (length l)) l).

(** [pose.translation()] and [pose.rotation() @ axis] of link [idx]. *)
Definition joint_frame (m : robot) (s : row_state) (idx : nat)
  : res (vec3 * vec3) :=
  let? b := py_nth s idx in
  let? p := py_nth m idx in
  Ok (translation (pose b), mat_vec (rotation (pose b)) (joint_axis p)).

(** Modelled from the spec: [DifferentiableRigidBody.joint_id] is not among
    the sources; it is the index of the link the joint drives, as its use
    [self._bodies[joint_id]] shows. *)
Definition joint_id_of (m : robot) (name : string) : res nat :=
  name_to_idx_map m name.

(** Modelled from the spec: [URDFRobotModel.get_name_of_parent_body] is not
    among the sources; the loader's parent name of the named link. *)
Definition get_name_of_parent_body (m : robot) (name : string) : res string :=
  let? i := name_to_idx_map m name in
  let? p := py_nth m i in
  Ok (parent_name p).

Definition is_controlled (m : robot) (joint_id : nat) : bool :=
  existsb (Nat.eqb joint_id) (controlled_joints m).

(** The [while link_name != self._bodies[0].name] loop of
    [compute_endeffector_jacobian]. *)
Fixpoint jacobian_walk (fuel : nat) (m : robot) (s : row_state) (p_e : vec3)
  (link : string) (joint_id : nat) (lin_jac ang_jac : list vec3)
  : res (list vec3 * list vec3) :=
  let? base := py_nth m 0 in
  if String.eqb link (link_name base) then Ok (lin_jac, ang_jac)
  else
    match fuel with
    | O => Raise Diverges
    | S fuel' =>
        let? (lin_jac', ang_jac') :=
          if is_controlled m joint_id then
            let? i := list_index joint_id (controlled_joints m) in
            let? (p_i, z_i) := joint_frame m s joint_id in
            Ok (set_nth lin_jac i (cross_product z_i (vsub p_e p_i)),
                set_nth ang_jac i z_i)
          else Ok (lin_jac, ang_jac) in
        let? link' := get_name_of_parent_body m link in
        let? joint_id' := joint_id_of m link' in
        jacobian_walk fuel' m s p_e link' joint_id' lin_jac' ang_jac'
    end.

Definition endeffector_jacobian_row (m : robot) (name : string) (q : list R)
  : M (list vec3 * list vec3) :=
  forward_kinematics_row m name q ;;;
  idx <- lift (name_to_idx_map m name) ;;
  e <- get_body idx ;;
  let p_e := translation (pose e) in
  joint_id <- lift (joint_id_of m name) ;;
  fun s =>
    (jacobian_walk (length m) m s p_e name joint_id
       (repeat vzero (n_dofs m)) (repeat vzero (n_dofs m)), s).

Definition compute_endeffector_jacobian_impl (m : robot) (q : tensor)
  (name : string) (st : state) : res ret * state :=
  match q with
  | T2 qr =>
      if kinematic_checks m qr (zeros_like qr) then
        let '(r, st') := run_batch m (endeffector_jacobian_row m name) qr st in
        (let? l := r in
         Ok (RTuple [VTensor (T3 (map (fun x => jac_rows (fst x)) l));
                     VTensor (T3 (map (fun x => jac_rows (snd x)) l))]), st')
      else (Raise AssertionError, st)
  | _ => (Raise AssertionError, st)
  end.

(** The all-links variant: entry [l] of a row is the Jacobian of link [l].
    [lin_jac[:, idx+1:, :, i] = cross(z_i, p_es[:, idx:] - p_i)] and
    [ang_jac[:, idx:, :, i] = z_i], where [p_es] holds the positions of the
    links after the base. *)
Definition fill_lin (idx i : nat) (z_i p_i : vec3) (p_es : list vec3)
  (lin_jac : list (list vec3)) : list (list vec3) :=
  mapi (fun l cols =>
          if Nat.leb (idx + 1) l
          then match nth_error p_es (l - 1) with
               | Some p_e => set_nth cols i (cross_product z_i (vsub p_e p_i))
               | None => cols
               end
          else cols) lin_jac.

Definition fill_ang (idx i : nat) (z_i : vec3) (ang_jac : list (list vec3))
  : list (list vec3) :=
  mapi (fun l cols => if Nat.leb idx l then set_nth cols i z_i else cols) ang_jac.

Fixpoint jacobian_walk_all (fuel : nat) (m : robot) (s : row_state)
  (p_es : list vec3) (link : string) (joint_id : nat)
  (lin_jac ang_jac : list (list vec3))
  : res (list (list vec3) * list (list vec3)) :=
  let? base := py_nth m 0 in
  if String.eqb link (link_name base) then Ok (lin_jac, ang_jac)
  else
    match fuel with
    | O => Raise Diverges
    | S fuel' =>
        let? (lin_jac', ang_jac') :=
          if is_controlled m joint_id then
            let? i := list_index joint_id (controlled_joints m) in
            let? (p_i, z_i) := joint_frame m s joint_id in
            Ok (fill_lin joint_id i z_i p_i p_es lin_jac,
                fill_ang joint_id i z_i ang_jac)
          else Ok (lin_jac, ang_jac) in
        let? link' := get_name_of_parent_body m link in
        let? joint_id' := joint_id_of m link' in
        jacobian_walk_all fuel' m s p_es link' joint_id' lin_jac' ang_jac'
    end.

Definition py_last {A} (l : list A) : res A :=
  match rev l with
  | x :: _ => Ok x
  | [] => Raise IndexError
  end.

Definition endeffector_jacobian_all_links_row (m : robot) (q : list R)
  : M (list (list vec3) * list (list vec3)) :=
  let link_names := get_link_names m in
  name <- lift (py_last link_names) ;;
  let num_links := length link_names in
  forward_kinematics_row m name q ;;;
  p_es <- (fun s =>
             (res_map (fun l => let? i := name_to_idx_map m l in
                                let? b := py_nth s i in
                                Ok (translation (pose b)))
                      (tl link_names), s)) ;;
  (* torch.stack of an empty list *)
  lift (if Nat.eqb (length p_es) 0 then Raise RuntimeError else Ok tt) ;;;
  joint_id <- lift (joint_id_of m name) ;;
  fun s =>
    (jacobian_walk_all (length m) m s p_es name joint_id
       (repeat (repeat vzero (n_dofs m)) num_links)
       (repeat (repeat vzero (n_dofs m)) num_links), s).

Definition compute_endeffector_jacobian_all_links_impl (m : robot) (q : tensor)
  (st : state) : res ret * state :=
  match q with
  | T2 qr =>
      if kinematic_checks m qr (zeros_like qr) then
        let '(r, st') := run_batch m (endeffector_jacobian_all_links_row m) qr st in
        (let? l := r in
         Ok (RTuple [VTensor (T4 (map (fun x => map jac_rows (fst x)) l));
                     VTensor (T4 (map (fun x => map jac_rows (snd x)) l))]), st')
      else (Raise AssertionError, st)
  | _ => (Raise AssertionError, st)
  end.

(** *** Inverse dynamics (recursive Newton-Euler) *)

Definition iterative_newton_euler_row (m : robot) (base_acc : SpatialMotionVec)
  : M unit :=
  body <- get_body 0 ;;
  put_body 0 (set_acc body base_acc) ;;;
  (* forward pass: accelerations from the root to the end-effector links *)
  for_each (range 1 (length m)) (fun i =>
    p <- lift (py_nth m i) ;;
    body <- get_body i ;;
    pidx <- lift (name_to_idx_map m (parent_name p)) ;;
    parent_body <- get_body pidx ;;
    let inv_pose := inverse (joint_pose body) in
    let acc_parent_body := motion_transform (acc parent_body) inv_pose in
    let tmp := cross_motion_vec (vel body) (joint_vel body) in
    put_body i (set_acc body
      (add_motion_vec (add_motion_vec acc_parent_body (joint_acc body)) tmp))) ;;;
  (* reset all forces for the backward pass *)
  for_each (range 0 (length m)) (fun i =>
    b <- get_body i ;;
    put_body i (set_force b force_zero)) ;;;
  (* backward pass: forces from the end-effector links up to the root *)
  for_each (range_down (length m) 1) (fun i =>
    p <- lift (py_nth m i) ;;
    body <- get_body i ;;
    let icxacc := multiply_motion_vec (inertia p) (acc body) in
    let icxvel := multiply_motion_vec (inertia p) (vel body) in
    let tmp_force := cross_force_vec (vel body) icxvel in
    let body' := set_force body
      (add_force_vec (add_force_vec (force body) icxacc) tmp_force) in
    put_body i body' ;;;
    if Nat.ltb 0 i then
      pidx <- lift (name_to_idx_map m (parent_name p)) ;;
      parent_body <- get_body pidx ;;
      let backprop_force := force_transform (force body') (joint_pose body') in
      put_body pidx (set_force parent_body
        (add_force_vec (force parent_body) backprop_force))
    else mret tt).

(** [torch.where(axis)[0]]: the positions of the non-zero components. *)
Definition where_nonzero (axis : vec3) : list nat :=
  (if Req_dec_T (vx axis) 0 then [] else [0%nat])
  ++ (if Req_dec_T (vy axis) 0 then [] else [1%nat])
  ++ (if Req_dec_T (vz axis) 0 then [] else [2%nat]).

(** [int(t)] of an index tensor: only a tensor of one element converts
    (torch raises a ValueError, in later versions a RuntimeError). *)
Definition int_of_indices (l : list nat) : res nat :=
  match l with
  | [k] => Ok k
  | _ => Raise ValueError
  end.

Definition sign (x : R) : R :=
  if Rlt_dec 0 x then 1 else if Rlt_dec x 0 then -1 else 0.

Definition vnth (v : vec3) (k : nat) : R :=
  match k with
  | 0%nat => vx v
  | 1%nat => vy v
  | _ => vz v
  end.

(** [rot_axis]: zeros with [rot_sign * 1] at [axis_idx]. *)
Definition axis_vector (k : nat) (s : R) : vec3 :=
  match k with
  | 0%nat => V3 (s * 1) 0 0
  | 1%nat => V3 0 (s * 1) 0
  | _ => V3 0 0 (s * 1)
  end.

(** The projection loop: the force of controlled joint [i]. *)
Definition joint_force (m : robot) (s : row_state) (i : nat) : res R :=
  let? idx := py_nth (controlled_joints m) i in
  let? p := py_nth m idx in
  let? b := py_nth s idx in
  let axis := joint_axis p in
  let? axis_idx := int_of_indices (where_nonzero axis) in
  let rot_sign := sign (vnth axis axis_idx) in
  let rot_axis := axis_vector axis_idx rot_sign in
  Ok (0 + vdot (fang (force b)) rot_axis).

(** Modelled from the spec: [get_joint_damping_const] is not among the
    sources; it returns the damping coefficient of the link's joint. *)
Definition get_joint_damping_const (p : rigid_body_params) : R := joint_damping p.

Definition damping_const (m : robot) : res (list R) :=
  res_map (fun i => let? idx := py_nth (controlled_joints m) i in
                    let? p := py_nth m idx in
                    Ok (get_joint_damping_const p))
          (range 0 (n_dofs m)).

(** Gravity enters as the acceleration of the base. *)
Definition base_acceleration (include_gravity : bool) : SpatialMotionVec :=
  let base_ang_acc := vzero in
  let base_lin_acc := if include_gravity then V3 0 0 (9.81 * 1) else vzero in
  mkMotion base_lin_acc base_ang_acc.

Definition map2 {A B C} (f : A -> B -> C) (l1 : list A) (l2 : list B) : list C :=
  map (fun '(a, b) => f a b) (combine l1 l2).

Definition inverse_dynamics_row (m : robot) (include_gravity use_damping : bool)
  (args : list R * list R * list R) : M (list R) :=
  let '(q, qd, qdd_des) := args in
  update_kinematic_state_row m q qd ;;;
  for_each (range 0 (n_dofs m)) (fun i =>
    idx <- lift (py_nth (controlled_joints m) i) ;;
    p <- lift (py_nth m idx) ;;
    a <- lift (py_nth qdd_des i) ;;
    b <- get_body idx ;;
    put_body idx (update_joint_acc p a b)) ;;;
  iterative_newton_euler_row m (base_acceleration include_gravity) ;;;
  force <- (fun s => (res_map (joint_force m s) (range 0 (length qdd_des)), s)) ;;
  if use_damping then
    dc <- lift (damping_const m) ;;
    mret (map2 Rplus force (map2 Rmult dc qd))
  else mret force.

Definition combine3 {A B C} (a : list A) (b : list B) (c : list C)
  : list (A * B * C) := combine (combine a b) c.

(** The assertions of [compute_inverse_dynamics], with the batch test that
    [tensor_check] makes across the tensors of a call. *)
Definition dynamics_checks (m : robot) (q qd x : list (list R)) : bool :=
  kinematic_checks m q qd
  && Nat.eqb (length q) (length x) && rows_have (n_dofs m) x.

Definition compute_inverse_dynamics_impl (m : robot) (q qd qdd_des : tensor)
  (include_gravity use_damping : bool) (st : state) : res ret * state :=
  match q, qd, qdd_des with
  | T2 qr, T2 qdr, T2 qddr =>
      if dynamics_checks m qr qdr qddr then
        let '(r, st') :=
          run_batch m (inverse_dynamics_row m include_gravity use_damping)
                    (combine3 qr qdr qddr) st in
        (let? l := r in Ok (RTensor (T2 l)), st')
      else (Raise AssertionError, st)
  | _, _, _ => (Raise AssertionError, st)
  end.

(** *** Forward dynamics (articulated body algorithm) *)

(** A float division; an exactly zero divisor gives no finite value. *)
Definition fdiv (x y : R) : res R :=
  if Req_dec_T y 0 then Raise NonFinite else Ok (x / y).

(** [body.joint_idx]: the position of the link among the controlled joints,
    [None] for a fixed joint. *)
Definition joint_idx (m : robot) (i : nat) : option nat :=
  match list_index i (controlled_joints m) with
  | Ok k => Some k
  | Raise _ => None
  end.

Definition force_of_vector (v : list R) : SpatialForceVec :=
  mkForce (vec3_of_list (skipn 3 v)) (vec3_of_list (firstn 3 v)).

(** [for i in l], threading the tensor the loop assigns into. *)
Fixpoint for_fold {A} (l : list nat) (body : nat -> A -> M A) (a : A) : M A :=
  match l with
  | [] => mret a
  | i :: l' => a' <- body i a ;; for_fold l' body a'
  end.

Definition aba_pass1 (m : robot) : M unit :=
  for_each (range 1 (length m)) (fun i =>
    p <- lift (py_nth m i) ;;
    body <- get_body i ;;
    let c' := cross_motion_vec (vel body) (joint_vel body) in
    let icxvel := multiply_motion_vec (inertia p) (vel body) in
    let pA' := cross_force_vec (vel body) icxvel in
    put_body i (set_bias body c' pA' (get_spatial_mat (inertia p)))).

Definition aba_pass2 (m : robot) (f : list R) : M unit :=
  for_each (range_down (length m) 1) (fun i =>
    p <- lift (py_nth m i) ;;
    body0 <- get_body i ;;
    let S := mkMotion vzero (joint_axis p) in
    let Utmp := lmat_vec (IA body0) (motion_get_vector S) in
    let U' := force_of_vector Utmp in
    let d' := motion_dot_force S U' in
    put_body i (set_projection body0 S U' d' (u body0)) ;;;
    u' <- lift (match joint_idx m i with
                | Some k => let? fk := py_nth f k in
                            Ok (fk - force_dot_motion (pA body0) S)
                | None => Ok (- force_dot_motion (pA body0) S)
                end) ;;
    let body := set_projection body0 S U' d' u' in
    put_body i body ;;;
    parent_idx <- lift (name_to_idx_map m (parent_name p)) ;;
    if Nat.ltb 0 parent_idx then
      parent_body <- get_body parent_idx ;;
      let Uv := force_get_vector (U body) in
      (* add smoothing values in case of zero mass *)
      Ud <- lift (res_map (fun x => fdiv x (d body + 1e-37)) Uv) ;;
      let cv := motion_get_vector (c body) in
      let IA' := lmat_sub (IA body) (louter Uv Ud) in
      let tmp := lmat_vec IA' cv in
      let tmps := force_of_vector tmp in
      (* add smoothing values in case of zero mass *)
      ud <- lift (fdiv (u body) (d body + 1e-37)) ;;
      let uu := force_multiply (U body) ud in
      let pa := add_force_vec (add_force_vec (pA body) tmps) uu in
      let transform_mat := to_matrix (joint_pose body) in
      put_body parent_idx
        (set_articulated parent_body
           (lmat_add (IA parent_body)
              (lmat_mul (lmat_mul (lmat_transpose 6 transform_mat) IA')
                        transform_mat))
           (add_force_vec (pA parent_body)
              (force_transform pa (joint_pose body))))
    else mret tt).

Definition aba_pass3 (m : robot) (base_acc : SpatialMotionVec) (qdd0 : list R)
  : M (list R) :=
  body <- get_body 0 ;;
  put_body 0 (set_acc body base_acc) ;;;
  for_fold (range 1 (length m)) (fun i qdd =>
    p <- lift (py_nth m i) ;;
    body <- get_body i ;;
    parent_idx <- lift (name_to_idx_map m (parent_name p)) ;;
    parent_body <- get_body parent_idx ;;
    let inv_pose := inverse (joint_pose body) in
    let acc_parent_body := motion_transform (acc parent_body) inv_pose in
    let acc1 := add_motion_vec acc_parent_body (c body) in
    if is_controlled m i then
      k <- lift (list_index i (controlled_joints m)) ;;
      inv_d <- lift (fdiv 1 (d body)) ;;
      let a := inv_d * (u body - force_dot_motion (U body) acc1) in
      put_body i (set_acc body (add_motion_vec acc1 (motion_multiply (S_ body) a))) ;;;
      mret (set_nth qdd k a)
    else
      put_body i (set_acc body acc1) ;;; mret qdd) qdd0.

Definition forward_dynamics_row (m : robot) (include_gravity : bool)
  (args : list R * list R * list R) : M (list R) :=
  let '(q, qd, f) := args in
  update_kinematic_state_row m q qd ;;;
  body <- get_body 0 ;;
  put_body 0 (set_acc body (base_acceleration include_gravity)) ;;;
  aba_pass1 m ;;;
  aba_pass2 m f ;;;
  aba_pass3 m (base_acceleration include_gravity) (map (fun _ => 0) q).

(** [f -= damping_const.repeat(batch_size, 1) * qd]: in place, so the
    right-hand side has to broadcast to the shape of [f]. *)
Definition sub_row (frow rhs : list R) : res (list R) :=
  if Nat.eqb (length frow) (length rhs) then Ok (map2 Rminus frow rhs)
  else match rhs with
       | [r] => Ok (map (fun x => x - r) frow)
       | _ => Raise RuntimeError
       end.

Definition sub_damping (dc : list R) (f qd : list (list R))
  : res (list (list R)) :=
  res_map (fun '(frow, qdrow) => sub_row frow (map2 Rmult dc qdrow))
          (combine f qd).

(** [compute_forward_dynamics]; the third component is the tensor [f] as the
    call leaves it. *)
Definition compute_forward_dynamics_impl (m : robot) (q qd f : tensor)
  (include_gravity use_damping : bool) (st : state)
  : res ret * state * tensor :=
  match q, qd, f with
  | T2 qr, T2 qdr, T2 fr =>
      if kinematic_checks m qr qdr && Nat.eqb (length qr) (length fr) then
        match (if use_damping
               then let? dc := damping_const m in sub_damping dc fr qdr
               else Ok fr) with
        | Raise e => (Raise e, st, f)
        | Ok fr' =>
            let '(r, st') :=
              run_batch m (forward_dynamics_row m include_gravity)
                        (combine3 qr qdr fr') st in
            (let? l := r in Ok (RTensor (T2 l)), st', T2 fr')
        end
      else (Raise AssertionError, st, f)
  | _, _, _ => (Raise AssertionError, st, f)
  end.

(** *** Non-linear effects and the joint-space inertia matrix *)

Definition compute_non_linear_effects_impl (m : robot) (q qd : tensor)
  (include_gravity use_damping : bool) (st : state) : res ret * state :=
  match q with
  | T2 qr =>
      compute_inverse_dynamics_impl m q qd (T2 (zeros_like qr))
        include_gravity use_damping st
  | _ => (Raise AssertionError, st)
  end.

(** [identity_tensor[:, :, j]]: column [j] of the identity, for every row. *)
Definition unit_rows (batch_size n j : nat) : list (list R) :=
  repeat (map (fun k => if Nat.eqb k j then 1 else 0) (seq 0 n)) batch_size.

Definition rows_sub (a b : list (list R)) : list (list R) :=
  map2 (map2 Rminus) a b.

(** The inverse-dynamics calls of the list comprehension, left to right. *)
Fixpoint inertia_columns (m : robot) (q : list (list R))
  (include_gravity use_damping : bool) (gravity_term : list (list R))
  (js : list nat) (st : state) : res (list (list (list R))) * state :=
  match js with
  | [] => (Ok [], st)
  | j :: js' =>
      match compute_inverse_dynamics_impl m (T2 q) (T2 (zeros_like q))
              (T2 (unit_rows (length q) (n_dofs m) j))
              include_gravity use_damping st with
      | (Ok (RTensor (T2 col)), st1) =>
          let '(r, st2) :=
            inertia_columns m q include_gravity use_damping gravity_term js' st1 in
          (let? rest := r in Ok (rows_sub col gravity_term :: rest), st2)
      | (Ok _, st1) => (Raise TypeError, st1)
      | (Raise e, st1) => (Raise e, st1)
      end
  end.

(** [torch.stack(cols, dim=2)]: entry [b][i][j] is [cols[j][b][i]]. *)
Definition stack_dim2 (batch_size n : nat) (cols : list (list (list R)))
  : list (list (list R)) :=
  map (fun b => map (fun i => map (fun col => nth i (nth b col []) 0) cols)
                    (seq 0 n))
      (seq 0 batch_size).

Definition compute_lagrangian_inertia_matrix_impl (m : robot) (q : tensor)
  (include_gravity use_damping : bool) (st : state) : res ret * state :=
  match q with
  | T2 qr =>
      if rows_have (n_dofs m) qr then
        let gravity :=
          if include_gravity then
            match compute_inverse_dynamics_impl m q (T2 (zeros_like qr))
                    (T2 (zeros_like qr)) include_gravity use_damping st with
            | (Ok (RTensor (T2 g)), st1) => (Ok g, st1)
            | (Ok _, st1) => (Raise TypeError, st1)
            | (Raise e, st1) => (Raise e, st1)
            end
          else (Ok (zeros_like qr), st) in
        match gravity with
        | (Raise e, st1) => (Raise e, st1)
        | (Ok gravity_term, st1) =>
            let '(r, st2) :=
              inertia_columns m qr include_gravity use_damping gravity_term
                (range 0 (n_dofs m)) st1 in
            (let? cols := r in
             (* torch.stack of an empty list *)
             let? _ := (if Nat.eqb (length cols) 0 then Raise RuntimeError
                        else Ok tt) in
             Ok (RTensor (T3 (stack_dim2 (length qr) (n_dofs m) cols))), st2)
        end
      else (Raise AssertionError, st)
  | _ => (Raise AssertionError, st)
  end.

(** *** Forward kinematics by recursion over the link names *)

Definition children (m : robot) (i : nat) : list nat :=
  filter (fun j => match py_nth m j with
                   | Ok p => match name_to_idx_map m (parent_name p) with
                             | Ok k => Nat.eqb k i
                             | Raise _ => false
                             end
                   | Raise _ => false
                   end)
         (range 1 (length m)).

(** [q_dict]: the joint position of a row under the name of the link its
    joint drives. *)
Definition q_dict_row (m : robot) (q : list R) : res (list (string * R)) :=
  res_map (fun '(i, body_idx) =>
             let? p := py_nth m body_idx in
             let? qi := py_nth q i in
             Ok (link_name p, qi))
          (combine (seq 0 (length (controlled_joints m))) (controlled_joints m)).

Definition q_dict_get (d : list (string * R)) (name : string) : option R :=
  match find (fun kv => String.eqb (fst kv) name) (rev d) with
  | Some kv => Some (snd kv)
  | None => None
  end.

(** Modelled from the spec: [DifferentiableRigidBody.forward_kinematics] is
    not among the sources.  "A structural recursion keyed by link name
    starting at the root": a link's pose is its parent's pose composed with
    its own joint frame, taken at the joint position found under the link's
    name, or at rest for a joint without an entry; the base sits at the
    identity.  The recursion is bounded by the number of links. *)
Fixpoint forward_kinematics_rec (fuel : nat) (m : robot)
  (q_dict : list (string * R)) (i : nat) (parent_pose : CoordinateTransform)
  : list (string * CoordinateTransform) :=
  match fuel with
  | O => []
  | S fuel' =>
      match nth_error m i with
      | None => []
      | Some p =>
          let joint_value := match q_dict_get q_dict (link_name p) with
                             | Some v => v
                             | None => 0
                             end in
          let my_pose := multiply_transform parent_pose (joint_pose_of p joint_value) in
          (link_name p, my_pose)
          :: flat_map (fun ch => forward_kinematics_rec fuel' m q_dict ch my_pose)
                      (children m i)
      end
  end.

Definition forward_kinematics_root (m : robot) (q_dict : list (string * R))
  : list (string * CoordinateTransform) :=
  match m with
  | [] => []
  | base :: _ =>
      (link_name base, transform_id)
      :: flat_map (fun ch => forward_kinematics_rec (length m) m q_dict ch transform_id)
                  (children m 0)
  end.

Definition all_poses_recursive_row (m : robot) (q : list R)
  : res (list (string * (list R * list R))) :=
  let? q_dict := q_dict_row m q in
  Ok (map (fun kv => (fst kv, (vec3_list (translation (snd kv)),
                               get_quaternion (snd kv))))
          (forward_kinematics_root m q_dict)).

(** The dict of batched poses under the keys of the first row (every row
    has the same keys). *)
Definition batch_dict_keys (keys : list string)
  (rows : list (list (string * (list R * list R))))
  : list (string * (tensor * tensor)) :=
  map (fun name =>
         let col := map (fun d =>
                      match find (fun kv => String.eqb (fst kv) name) d with
                      | Some kv => snd kv
                      | None => ([], [])
                      end) rows in
         (name, (T2 (map fst col), T2 (map snd col))))
      keys.

Definition compute_forward_kinematics_all_links_impl (m : robot) (q : tensor)
  (recursive : bool) (st : state) : res ret * state :=
  if recursive then
    match q with
    | T2 qr =>
        (let? l := res_map (all_poses_recursive_row m) qr in
         Ok (RDict (batch_dict_keys (map fst (forward_kinematics_root m [])) l)), st)
    | _ => (Raise IndexError, st)
    end
  else compute_forward_kinematics_all_links_sweep m q st.

(** [compute_forward_kinematics]: with [recursive] it asks the all-links
    entry point, leaving that one's own [recursive] at its default. *)
Definition compute_forward_kinematics_impl (m : robot) (q : tensor)
  (name : string) (recursive : bool) (st : state) : res ret * state :=
  match q with
  | T2 _ =>
      if recursive then
        match compute_forward_kinematics_all_links_impl m q false st with
        | (Ok (RDict d), st') =>
            (let? pr := dict_get d name in
             Ok (RTuple [VTensor (fst pr); VTensor (snd pr)]), st')
        | (Ok _, st') => (Raise TypeError, st')
        | (Raise e, st') => (Raise e, st')
        end
      else compute_forward_kinematics_sweep m q name st
  | _ => (Raise AssertionError, st)
  end.

(** *** The decorated entry points *)

Definition keep (args : list arg) (x : res ret * state)
  : res ret * state * list arg := (fst x, snd x, args).

Definition compute_forward_kinematics (m : robot) : method state :=
  tensor_check (fun args st =>
    match args with
    | [ATensor q; AStr name] =>
        keep args (compute_forward_kinematics_impl m q name false st)
    | [ATensor q; AStr name; ABool recursive] =>
        keep args (compute_forward_kinematics_impl m q name recursive st)
    | _ => (Raise TypeError, st, args)
    end).

Definition compute_forward_kinematics_all_links (m : robot) : method state :=
  tensor_check (fun args st =>
    match args with
    | [ATensor q] =>
        keep args (compute_forward_kinematics_all_links_impl m q false st)
    | [ATensor q; ABool recursive] =>
        keep args (compute_forward_kinematics_all_links_impl m q recursive st)
    | _ => (Raise TypeError, st, args)
    end).

Definition compute_endeffector_jacobian (m : robot) : method state :=
  tensor_check (fun args st =>
    match args with
    | [ATensor q; AStr name] =>
        keep args (compute_endeffector_jacobian_impl m q name st)
    | _ => (Raise TypeError, st, args)
    end).

Definition compute_endeffector_jacobian_all_links (m : robot) : method state :=
  tensor_check (fun args st =>
    match args with
    | [ATensor q] =>
        keep args (compute_endeffector_jacobian_all_links_impl m q st)
    | _ => (Raise TypeError, st, args)
    end).

Definition compute_inverse_dynamics (m : robot) : method state :=
  tensor_check (fun args st =>
    match args with
    | [ATensor q; ATensor qd; ATensor qdd_des; ABool g; ABool d] =>
        keep args (compute_inverse_dynamics_impl m q qd qdd_des g d st)
    | _ => (Raise TypeError, st, args)
    end).

Definition compute_non_linear_effects (m : robot) : method state :=
  tensor_check (fun args st =>
    match args with
    | [ATensor q; ATensor qd; ABool g; ABool d] =>
        keep args (compute_non_linear_effects_impl m q qd g d st)
    | _ => (Raise TypeError, st, args)
    end).

Definition compute_lagrangian_inertia_matrix (m : robot) : method state :=
  tensor_check (fun args st =>
    match args with
    | [ATensor q; ABool g; ABool d] =>
        keep args (compute_lagrangian_inertia_matrix_impl m q g d st)
    | _ => (Raise TypeError, st, args)
    end).

Definition compute_forward_dynamics (m : robot) : method state :=
  tensor_check (fun args st =>
    match args with
    | [ATensor q; ATensor qd; ATensor f; ABool g; ABool d] =>
        let '(r, st', f') := compute_forward_dynamics_impl m q qd f g d st in
        (r, st', [ATensor q; ATensor qd; ATensor f'; ABool g; ABool d])
    | _ => (Raise TypeError, st, args)
    end).

(** *** Damped-least-squares inverse kinematics *)

(** [torch.atan2(y, x)]: the angle of the point [(x, y)]. *)
Definition atan2 (y x : R) : R :=
  if Rlt_dec 0 x then atan (y / x)
  else if Rlt_dec x 0 then
         (if Rlt_dec y 0 then atan (y / x) - PI else atan (y / x) + PI)
  else if Rlt_dec 0 y then PI / 2
  else if Rlt_dec y 0 then - PI / 2
  else 0.

(** [torch.finfo(float).eps * 4.0]: four times the double-precision epsilon. *)
Definition EPS_ : R := 4 / 2 ^ 52.

(** [__euler_from_quaternion]: the angles about x, y and z of the quaternion
    [x, y, z, w].  [torch.identity] does not exist, and in the branch for a
    small [cy] the three values handed to [torch.stack] differ in shape. *)
Definition euler_from_quaternion (quat : list R) : res (list R) :=
  let? x := py_nth quat 0 in
  let? y := py_nth quat 1 in
  let? z := py_nth quat 2 in
  let? w := py_nth quat 3 in
  let q0 := [w; x; y; z] in
  let n := ldot q0 q0 in
  if Rlt_dec n EPS_ then Raise AttributeError
  else
    let q1 := map (fun a => a * sqrt (2 / n)) q0 in
    let q a b := nth a q1 0 * nth b q1 0 in
    let M00 := 1 - q 2%nat 2%nat - q 3%nat 3%nat in
    let M10 := q 1%nat 2%nat + q 3%nat 0%nat in
    let M11 := 1 - q 1%nat 1%nat - q 3%nat 3%nat in
    let M12 := q 2%nat 3%nat - q 1%nat 0%nat in
    let M20 := q 1%nat 3%nat - q 2%nat 0%nat in
    let M21 := q 2%nat 3%nat + q 1%nat 0%nat in
    let M22 := 1 - q 1%nat 1%nat - q 2%nat 2%nat in
    let cy := sqrt (M00 * M00 + M10 * M10) in
    if Rlt_dec EPS_ cy then
      Ok [atan2 M21 M22; atan2 (- M20) cy; atan2 M10 M00]
    else Raise RuntimeError.

Section InverseKinematics.
(** [torch.linalg.solve], and what [torch.empty] happens to hold. *)
Variable linalg_solve : list (list R) -> list R -> res (list R).
Variable empty_row : list R.

Variable m : robot.
Variable link : string.
Variables min_precision min_convergency_update learning_rate damping_factor : R.

(** [torch.norm]. *)
Definition lnorm (v : list R) : R := sqrt (lsum (map (fun x => x * x) v)).

(** [jac @ jac.T + damping_factor ** 2 * torch.eye(len(jac))]. *)
Definition damped_gram (jac : list (list R)) : list (list R) :=
  mapi (fun i ri =>
          mapi (fun j rj =>
                  ldot ri rj
                  + damping_factor * damping_factor
                    * (if Nat.eqb i j then 1 else 0)) jac) jac.

(** [jac.T @ f]. *)
Definition jac_T_vec (jac : list (list R)) (f : list R) : list R :=
  map (fun k => ldot (map (fun row => nth k row 0) jac) f)
      (seq 0 (length (hd [] jac))).

(** The loop variables the source keeps across iterations. *)
Record dls_vars : Type := mkVars {
  min_error : option R;        (* [None] is [torch.inf] *)
  final_row : list R }.        (* [final_conf[th_idx]] *)

(** [curr_delta_pose = goal_pose - curr_pose], the pose through the
    decorated [compute_forward_kinematics] on the unbatched row. *)
Definition pose_delta (goal_pose curr_conf : list R) (st : state)
  : res (list R) * state :=
  match compute_forward_kinematics m [ATensor (T1 curr_conf); AStr link] st with
  | (Ok (RTuple [VTensor (T1 curr_pos); VTensor (T1 curr_rot)]), st', _) =>
      (let? e := euler_from_quaternion curr_rot in
       Ok (map2 Rminus goal_pose (curr_pos ++ e)), st')
  | (Ok _, st', _) => (Raise TypeError, st')
  | (Raise e, st', _) => (Raise e, st')
  end.

(** The damped-least-squares update [curr_delta_conf]. *)
Definition dls_update (curr_delta_pose curr_conf : list R) (st : state)
  : res (list R) * state :=
  match compute_endeffector_jacobian m [ATensor (T1 curr_conf); AStr link] st with
  | (Ok (RTuple [VTensor (T2 lin_jac); VTensor (T2 ang_jac)]), st', _) =>
      let jac := lin_jac ++ ang_jac in
      (let? f := linalg_solve (damped_gram jac) curr_delta_pose in
       Ok (jac_T_vec jac f), st')
  | (Ok _, st', _) => (Raise TypeError, st')
  | (Raise e, st', _) => (Raise e, st')
  end.

(** [if delta_norm < min_error: min_error = delta_norm;
    final_conf[th_idx] = curr_conf]. *)
Definition keep_best (v : dls_vars) (curr_conf : list R) (delta_norm : R)
  : dls_vars :=
  let better := match min_error v with
                | None => true
                | Some e => if Rlt_dec delta_norm e then true else false
                end in
  if better then mkVars (Some delta_norm) curr_conf else v.

(** The [while True] loop; [remaining] is [max_num_iter - i]. *)
Fixpoint dls_loop (remaining : nat) (goal_pose curr_conf : list R)
  (v : dls_vars) (st : state) : res dls_vars * state :=
  match pose_delta goal_pose curr_conf st with
  | (Raise e, st1) => (Raise e, st1)
  | (Ok curr_delta_pose, st1) =>
      let delta_norm := lnorm curr_delta_pose in
      let v1 := keep_best v curr_conf delta_norm in
      if Rlt_dec delta_norm min_precision then (Ok v1, st1)
      else
        match remaining with
        | O => (Ok v1, st1)
        | S remaining' =>
            match dls_update curr_delta_pose curr_conf st1 with
            | (Raise e, st2) => (Raise e, st2)
            | (Ok curr_delta_conf, st2) =>
                if Rlt_dec (lnorm curr_delta_conf) min_convergency_update
                then (Ok v1, st2)
                else
                  dls_loop remaining' goal_pose
                    (map2 Rplus curr_conf
                          (map (fun x => learning_rate * x) curr_delta_conf))
                    v1 st2
            end
        end
  end.

(** The [for th_idx in range(batch_size)] loop: each row starts from the
    row solved before it, the first from [init_conf]. *)
Fixpoint dls_rows (max_num_iter : nat) (targets : list (list R * list R))
  (curr_conf : list R) (st : state)
  : res (list dls_vars) * state :=
  match targets with
  | [] => (Ok [], st)
  | (trans_row, rot_row) :: rest =>
      match euler_from_quaternion rot_row with
      | Raise e => (Raise e, st)
      | Ok eul =>
          let goal_pose := trans_row ++ eul in
          match dls_loop max_num_iter goal_pose curr_conf
                  (mkVars None empty_row) st with
          | (Raise e, st1) => (Raise e, st1)
          | (Ok v, st1) =>
              let '(r, st2) := dls_rows max_num_iter rest (final_row v) st1 in
              (let? vs := r in Ok (v :: vs), st2)
          end
      end
  end.

(** The assertions of [compute_inverse_kinematics_jac] and its loop over the
    targets.  It carries no [tensor_check]. *)
Definition inverse_kinematics_jac_rows (trans rot init_conf : tensor)
  (max_num_iter : nat) (st : state) : res (list dls_vars) * state :=
  match trans with
  | T2 tr =>
      match (let? _ := assert (Nat.eqb (length tr) (hd 0%nat (shape rot))) in
             let? _ := assert (rows_have 3 tr) in
             let? rr := match rot with
                        | T2 rr => Ok rr
                        | _ => Raise IndexError
                        end in
             let? _ := assert (rows_have 4 rr) in
             (* [init_conf] is a configuration, shape [n_dofs] *)
             let? ic := match init_conf with
                        | T1 ic => Ok ic
                        | _ => Raise TypeError
                        end in
             let? _ := assert (Nat.eqb (length ic) (n_dofs m)) in
             Ok (rr, ic)) with
      | Raise e => (Raise e, st)
      | Ok (rr, ic) => dls_rows max_num_iter (combine tr rr) ic st
      end
  | _ => (Raise AssertionError, st)
  end.

Definition compute_inverse_kinematics_jac (trans rot init_conf : tensor)
  (max_num_iter : nat) (st : state) : res ret * state :=
  let '(r, st') := inverse_kinematics_jac_rows trans rot init_conf max_num_iter st in
  (let? vs := r in
   (* [if min_error > min_precision] after the loop reads the local
      [min_error], which only a pass of the loop over the targets binds *)
   match vs with
   | [] => Raise UnboundLocalError
   | _ :: _ => Ok (RTensor (T2 (map final_row vs)))
   end, st').

End InverseKinematics.

(** *** Closed forms used to state what the entry points leave behind *)

Definition default_params : rigid_body_params :=
  mkParams "" "" fixed vzero 0 (mkInertia 0 vzero (M3 0 0 0 0 0 0 0 0 0))
           (fun _ => transform_id).

(** The damping coefficients in the order of the controlled joints. *)
Definition damping_of (m : robot) : list R :=
  map (fun i => get_joint_damping_const
                  (nth (nth i (controlled_joints m) 0%nat) m default_params))
      (range 0 (n_dofs m)).

(** [f - damping * qd], entry by entry. *)
Definition damped (m : robot) (f qd : list (list R)) : list (list R) :=
  map2 (fun frow qdrow => map2 Rminus frow (map2 Rmult (damping_of m) qdrow)) f qd.

Definition default_body : body_state := construction_body default_params.

(** The link driven by controlled joint [i], its axis, and the angular part
    of the force a row holds for it. *)
Definition controlled_link (m : robot) (i : nat) : nat :=
  nth i (controlled_joints m) 0%nat.

Definition controlled_axis (m : robot) (i : nat) : vec3 :=
  joint_axis (nth (controlled_link m i) m default_params).

Definition link_force (m : robot) (s : row_state) (i : nat) : SpatialForceVec :=
  force (nth (controlled_link m i) s default_body).

(** The entry [b][i] of a batched 2-D tensor. *)
Definition entry (rows : list (list R)) (b i : nat) : R :=
  nth i (nth b rows []) 0.

(** *** Notions for stating what the sweeps do *)

(** The index of the parent of link [i], as every sweep looks it up. *)
Definition parent_idx (m : robot) (i : nat) : res nat :=
  let? p := py_nth m i in name_to_idx_map m (parent_name p).

(** Every link after the base has its parent at a smaller index. *)
Definition tree_order (m : robot) : bool :=
  forallb (fun i => match parent_idx m i with
                    | Ok j => Nat.ltb j i
                    | Raise _ => false
                    end)
          (range 1 (length m)).

(** Link [i] of a row. *)
Definition link (s : row_state) (i : nat) : body_state := nth i s default_body.

(** What the two joint loops of [update_kinematic_state] do to the fields of
    link [i]: a controlled joint gets its column of [q] and [qd], a fixed
    joint before the first controlled one gets zeros, any other is left. *)
Definition joint_update (m : robot) (q qd : list R) (i : nat) (b : body_state)
  : body_state :=
  let p := nth i m default_params in
  match joint_idx m i with
  | Some k => update_joint_state p (nth k q 0) (nth k qd 0) b
  | None => if Nat.ltb i (controlled_link m 0)
            then update_joint_state p 0 0 b else b
  end.

(** The row [s'] that [update_kinematic_state] leaves from the row [s]. *)
Definition kinematic_post (m : robot) (q qd : list R) (s s' : row_state) : Prop :=
  length s' = length m
  /\ (forall i, (i < length m)%nat ->
        exists x v, link s' i = set_vel (set_pose (joint_update m q qd i (link s i)) x) v)
  /\ pose (link s' 0) = pose (link s 0)
  /\ vel (link s' 0) = mkMotion vzero vzero
  /\ (forall i, (1 <= i < length m)%nat ->
        exists j, parent_idx m i = Ok j /\ (j < i)%nat
          /\ pose (link s' i)
             = multiply_transform (pose (link s' j)) (joint_pose (link s' i))
          /\ vel (link s' i)
             = add_motion_vec (joint_vel (link s' i))
                 (motion_transform (vel (link s' j))
                                   (inverse (joint_pose (link s' i))))).

(** A row of per-link fields as construction and the entry points leave it:
    the base at the identity, every link on a fixed joint at rest. *)
Definition settled (m : robot) (s : row_state) : Prop :=
  length s = length m
  /\ pose (link s 0) = transform_id
  /\ forall i, (i < length m)%nat -> is_fixed (nth i m default_params) = true ->
       joint_pose (link s i) = joint_pose_of (nth i m default_params) 0
       /\ joint_vel (link s i) = motion_zero
       /\ joint_acc (link s i) = motion_zero.

(** The position of the joint of link [i] in the row [q]; zero for a fixed
    joint. *)
Definition joint_value (m : robot) (q : list R) (i : nat) : R :=
  match joint_idx m i with
  | Some k => nth k q 0
  | None => 0
  end.

(** [(pose.translation(), pose.get_quaternion())]. *)
Definition pose_entry (t : CoordinateTransform) : list R * list R :=
  (vec3_list (translation t), get_quaternion t).

(** The sum of [f] over the links [lo], ..., [hi - 1]. *)
Definition sum_links (lo hi : nat) (f : nat -> R) : R :=
  lsum (map f (range lo hi)).

Definition sub_motion (a b : SpatialMotionVec) : SpatialMotionVec :=
  mkMotion (vsub (lin a) (lin b)) (vsub (ang a) (ang b)).

(** The joint frame of link [i] at the positions [q], and the acceleration
    of its joint at the joint accelerations [x]. *)
Definition joint_frame_at (m : robot) (q : list R) (i : nat) : CoordinateTransform :=
  joint_pose_of (nth i m default_params) (joint_value m q i).

Definition joint_acc_at (m : robot) (x : list R) (i : nat) : SpatialMotionVec :=
  match joint_idx m i with
  | Some k => mkMotion vzero (vscale (nth k x 0) (joint_axis (nth i m default_params)))
  | None => motion_zero
  end.

(** A field of motion vectors over the links that follows the tree at the
    positions [q]: a link has its parent's vector, carried into its own
    frame, plus its own share [jb]. *)
Definition follows_tree (m : robot) (q : list R) (b jb : nat -> SpatialMotionVec)
  : Prop :=
  forall i p, (1 <= i < length m)%nat -> parent_idx m i = Ok p ->
    b i = add_motion_vec (motion_transform (b p) (inverse (joint_frame_at m q i)))
                         (jb i).

(** A unit axis along a coordinate axis, as the projection loop of
    [compute_inverse_dynamics] needs it. *)
Definition coordinate_axis (a : vec3) : Prop :=
  (exists k, int_of_indices (where_nonzero a) = Ok k) /\ vdot a a = 1.

(** What a row of [compute_inverse_dynamics] returns at rest ([qd] zero):
    the torques [tau] are the projections of forces [F] that do, on the
    joints' own shares of any field following the tree, the work that the
    links' inertial forces do on the field; the accelerations [a] behind
    those follow the tree from the base acceleration. *)
Definition newton_euler_at_rest (m : robot) (q x : list R) (g : bool)
  (tau : list R) : Prop :=
  exists (a : nat -> SpatialMotionVec) (F : nat -> SpatialForceVec),
    a 0%nat = base_acceleration g
    /\ follows_tree m q a (joint_acc_at m x)
    /\ (forall b jb, b 0%nat = motion_zero -> follows_tree m q b jb ->
          sum_links 1 (length m) (fun i => motion_dot_force (jb i) (F i))
          = sum_links 1 (length m)
              (fun i => motion_dot_force (b i)
                          (multiply_motion_vec (inertia (nth i m default_params))
                                               (a i))))
    /\ length tau = n_dofs m
    /\ forall k, (k < n_dofs m)%nat ->
         nth k tau 0 = vdot (fang (F (controlled_link m k))) (controlled_axis m k).

(** The combination of the motion vectors [D k] with the weights [x k], over
    the indices of [l]. *)
Fixpoint motion_comb (l : list nat) (x : nat -> R) (D : nat -> SpatialMotionVec)
  : SpatialMotionVec :=
  match l with
  | [] => motion_zero
  | k :: l' => add_motion_vec (motion_multiply (D k) (x k)) (motion_comb l' x D)
  end.

(** A matrix of [n] rows and columns, by rows: symmetric, and positive
    semidefinite. *)
Definition mat_symmetric (n : nat) (A : list (list R)) : Prop :=
  forall i j, (i < n)%nat -> (j < n)%nat ->
    nth j (nth i A []) 0 = nth i (nth j A []) 0.

Definition mat_psd (n : nat) (A : list (list R)) : Prop :=
  forall x, length x = n -> 0 <= ldot x (lmat_vec A x).

(** A link's inertia as the loader may hand it over: no negative mass, a
    symmetric and positive semidefinite inertia tensor. *)
Definition physical_inertia (I : Inertia) : Prop :=
  symmetric3 (inertia_mat I) /\ 0 <= mass I /\ psd3 (inertia_mat I).

(** [H k j] is the inertial work of field [j] on field [k], summed over the
    links. *)
Definition work_matrix (m : robot) (n : nat) (D : nat -> nat -> SpatialMotionVec)
  (H : nat -> nat -> R) : Prop :=
  forall k j, (k < n)%nat -> (j < n)%nat ->
    H k j = sum_links 1 (length m)
              (fun i => motion_dot_force (D k i)
                          (multiply_motion_vec (inertia (nth i m default_params))
                                               (D j i))).


(** Row [j] of the identity of size [n]: a row of [unit_rows]. *)
Definition unit_row (n j : nat) : list R :=
  map (fun k => if Nat.eqb k j then 1 else 0) (seq 0 n).

(** A robot as the spec describes it and as the inverse dynamics needs it: the
    links follow their parents, the base has no joint, there is a movable
    joint, the axes of the movable joints are unit vectors along coordinate
    axes, the joint frames are rigid, and the inertias are physical. *)
Definition well_formed (m : robot) : Prop :=
  tree_order m = true
  /\ is_fixed (nth 0 m default_params) = true
  /\ (0 < n_dofs m)%nat
  /\ (forall k, (k < n_dofs m)%nat -> coordinate_axis (controlled_axis m k))
  /\ (forall p v, In p m -> is_rotation (rotation (joint_pose_of p v)))
  /\ (forall p, In p m -> physical_inertia (inertia p)).

(** The links from link [i] up to the base, the base left out. *)
Fixpoint path_to_base (fuel : nat) (m : robot) (i : nat) : list nat :=
  match fuel with
  | O => []
  | S fuel' =>
      if Nat.eqb i 0 then []
      else i :: match parent_idx m i with
                | Ok p => path_to_base fuel' m p
                | Raise _ => []
                end
  end.

Definition on_path (m : robot) (i j : nat) : bool :=
  existsb (Nat.eqb j) (path_to_base (length m) m i).

(** The column of the geometric Jacobian for the joint of link [j] and a
    point [p_e], on the poses of the row [s]: linear part and angular part. *)
Definition joint_column (m : robot) (s : row_state) (p_e : vec3) (j : nat)
  : vec3 * vec3 :=
  let z := mat_vec (rotation (pose (link s j))) (joint_axis (nth j m default_params)) in
  (cross_product z (vsub p_e (translation (pose (link s j)))), z).

(** *** Notions for stating what the inverse-kinematics loop keeps *)

Section Evaluated.
Variable linalg_solve : list (list R) -> list R -> res (list R).
Variable m : robot.
Variable link : string.
Variables min_precision min_convergency_update learning_rate damping_factor : R.

(** A configuration with the norm of its pose error. *)
Definition iterate : Type := (list R * R)%type.

(** The configurations the solver evaluates for one target from [curr_conf],
    in order: the error norm of each is taken through [pose_delta], the next
    one is the one before it moved by [learning_rate] times the update of
    [dls_update], and the list ends at the first configuration whose error
    norm is below [min_precision], or that is number [remaining] after the
    first, or whose update has a norm below [min_convergency_update].  The
    bookkeeping of the best configuration plays no part in it.  The state is
    the one the calls leave behind. *)
Fixpoint iterates (remaining : nat) (goal_pose curr_conf : list R) (st : state)
  : list iterate * state :=
  match pose_delta m link goal_pose curr_conf st with
  | (Raise _, st1) => ([], st1)
  | (Ok delta, st1) =>
      let here := (curr_conf, lnorm delta) in
      if Rlt_dec (lnorm delta) min_precision then ([here], st1)
      else
        match remaining with
        | O => ([here], st1)
        | S remaining' =>
            match dls_update linalg_solve m link damping_factor delta curr_conf st1 with
            | (Raise _, st2) => ([here], st2)
            | (Ok delta_conf, st2) =>
                if Rlt_dec (lnorm delta_conf) min_convergency_update
                then ([here], st2)
                else
                  let '(rest, st3) :=
                    iterates remaining' goal_pose
                      (map2 Rplus curr_conf
                            (map (fun x => learning_rate * x) delta_conf))
                      st2 in
                  (here :: rest, st3)
            end
        end
  end.

(** The iterates of every target, target [b] from the configuration
    [nth b starts]. *)
Fixpoint rows_iterates (max_num_iter : nat) (targets : list (list R * list R))
  (starts : list (list R)) (st : state) : list (list iterate) :=
  match targets, starts with
  | (trans_row, rot_row) :: rest, c :: starts' =>
      match euler_from_quaternion rot_row with
      | Ok eul =>
          let '(its, st1) := iterates max_num_iter (trans_row ++ eul) c st in
          its :: rows_iterates max_num_iter rest starts' st1
      | Raise _ => []
      end
  | _, _ => []
  end.

End Evaluated.

(** [c] is the first configuration of least error norm among [its]. *)
Definition first_least (its : list iterate) (c : list R) : Prop :=
  exists e pre post,
    its = (pre ++ (c, e) :: post)%list
    /\ (forall x, In x pre -> e < snd x)
    /\ (forall x, In x post -> e <= snd x).

(** The loop variables hold the first configuration of least error norm among
    [its], with its error norm. *)
Definition keeps_first_least (its : list iterate) (v : dls_vars) : Prop :=
  exists e pre post,
    min_error v = Some e
    /\ its = (pre ++ (final_row v, e) :: post)%list
    /\ (forall x, In x pre -> e < snd x)
    /\ (forall x, In x post -> e <= snd x).

End RobotModel.

(** ** Robots used as concrete inputs *)

Module Examples.
Import SpatialVectorAlgebra Torch RobotModel.
Open Scope string_scope.

Definition zero_inertia : Inertia := mkInertia 0 vzero (M3 0 0 0 0 0 0 0 0 0).
Definition unit_inertia : Inertia := mkInertia 1 vzero (M3 1 0 0 0 1 0 0 0 1).

(** The base: a fixed link at the origin. *)
Definition base_link : rigid_body_params :=
  mkParams "base" "" fixed vzero 0 zero_inertia (fun _ => transform_id).

(** A link on a revolute joint about z, its joint frame shifted by [t]. *)
Definition revolute_z (name parent : string) (t : vec3) (I : Inertia)
  : rigid_body_params :=
  mkParams name parent revolute (V3 0 0 1) 0 I
           (fun q => mkTransform (z_rot q) t).

(** One link hanging off the base. *)
Definition pendulum : robot :=
  [base_link; revolute_z "arm" "base" (V3 1 0 0) unit_inertia].

(** The same, the link without mass and inertia. *)
Definition massless_pendulum : robot :=
  [base_link; revolute_z "arm" "base" (V3 1 0 0) zero_inertia].

(** The rotation by [q] about the unit axis [k] (Rodrigues' formula). *)
Definition axis_rot (k : vec3) (q : R) : mat3 :=
  let K := vector3_to_skew_symm_matrix k in
  mat_add (mat_add mat_eye (mat_scale (sin q) K))
          (mat_scale (1 - cos q) (mat_mul K K)).

(** A revolute joint whose unit axis (3/5, 4/5, 0) lies between x and y. *)
Definition skew_arm : robot :=
  [base_link;
   mkParams "arm" "base" revolute (V3 (3 / 5) (4 / 5) 0) 0 unit_inertia
            (fun q => mkTransform (axis_rot (V3 (3 / 5) (4 / 5) 0) q) (V3 1 0 0))].

(** A serial chain of two links. *)
Definition two_link : robot :=
  [base_link;
   revolute_z "upper" "base" (V3 1 0 0) unit_inertia;
   revolute_z "lower" "upper" (V3 1 0 0) unit_inertia].

(** Two links, each on its own joint at the base. *)
Definition fork : robot :=
  [base_link;
   revolute_z "a" "base" (V3 1 0 0) unit_inertia;
   revolute_z "b" "base" (V3 0 1 0) unit_inertia].

(** A stand-in for [torch.linalg.solve] in calls that end before any system
    is solved, or that solve none. *)
Definition no_solve : list (list R) -> list R -> res (list R) :=
  fun _ _ => Raise RuntimeError.

(** A method that returns one row per batch row, whatever it is given. *)
Definition constant_rows : method unit :=
  fun args w => (Ok (RTensor (T2 [[1; 2]])), w, args).

(** One link on a joint at the base whose transform shifts it along x by
    the joint value. *)
Definition slider : robot :=
  [base_link;
   mkParams "arm" "base" prismatic (V3 1 0 0) 0 unit_inertia
            (fun q => mkTransform mat_eye (V3 q 0 0))].

(** A stand-in for [torch.linalg.solve] that answers every system with [f]. *)
Definition fixed_solve (f : list R) : list (list R) -> list R -> res (list R) :=
  fun _ _ => Ok f.


End Examples.

(** * Properties *)

Import SpatialVectorAlgebra Torch RobotModel Examples.

(** Evaluate the model, leaving the real-number operations as they stand. *)
Ltac model_eval :=
  cbv -[IZR cos sin sqrt atan PI Rmax Rlt_dec Req_dec_T
        Rdiv Rminus Rplus Rmult Ropp Rinv pow].

(** ** The decorator *)

Lemma preprocess_all_unbatched (args : list arg) (bi : BatchInfo) :
  Forall unbatched args ->
  bi_shape bi = [] ->
  preprocess_all args bi
  = Ok (map batched_arg args,
        mkBatchInfo [] (bi_init bi || existsb is_tensor args)).
Proof.
  intros Hall. revert bi.
  induction Hall as [|a args Ha Hall IH]; intros [sh ini] Hsh; simpl in *; subst sh.
  - now rewrite orb_false_r.
  - destruct a as [t| | | |]; simpl;
      try (rewrite IH by reflexivity; simpl; reflexivity).
    destruct t; simpl in Ha; try discriminate.
    destruct ini; simpl; rewrite IH by reflexivity; simpl; reflexivity.
Qed.

Lemma preprocess_all_batch_of_one (args : list arg) (ini : bool) :
  Forall unbatched args ->
  preprocess_all (map batched_arg args) (mkBatchInfo [1%nat] ini)
  = Ok (map batched_arg args, mkBatchInfo [1%nat] (ini || existsb is_tensor args)).
Proof.
  intros Hall. revert ini.
  induction Hall as [|a args Ha Hall IH]; intros ini; simpl.
  - now rewrite orb_false_r.
  - destruct a as [t| | | |]; simpl;
      try (rewrite IH; simpl; reflexivity).
    destruct t; simpl in Ha; try discriminate.
    destruct ini; simpl; rewrite IH; simpl; reflexivity.
Qed.

Lemma preprocess_all_batched (args : list arg) :
  Forall unbatched args ->
  preprocess_all (map batched_arg args) BatchInfo0
  = Ok (map batched_arg args,
        if existsb is_tensor args then mkBatchInfo [1%nat] true else BatchInfo0).
Proof.
  induction 1 as [|a args Ha Hall IH]; simpl; [reflexivity|].
  destruct a as [t| | | |]; simpl; try (rewrite IH; reflexivity).
  destruct t; simpl in Ha; try discriminate.
  simpl. rewrite preprocess_all_batch_of_one by assumption. reflexivity.
Qed.

Lemma postprocess_batched (n : nat) (ini : bool) (l : list value) :
  res_map (fun x => postprocess x (mkBatchInfo [n] ini)) l = Ok l.
Proof.
  induction l as [|v l IH]; simpl; [reflexivity|].
  rewrite IH. destruct v; simpl; rewrite ?andb_false_r; reflexivity.
Qed.

Lemma parse_output_batched (r : ret) (n : nat) (ini : bool) :
  parse_output r (mkBatchInfo [n] ini) = Ok r.
Proof.
  destruct r as [t|l|dd|]; simpl; try reflexivity.
  - rewrite andb_false_r. reflexivity.
  - rewrite postprocess_batched. reflexivity.
Qed.

Lemma first_row_tensor (t : tensor) :
  first_row (RTensor t) = (let? t' := index0 t in Ok (RTensor t')).
Proof.
  unfold first_row, parse_output, postprocess. simpl.
  destruct (index0 t); reflexivity.
Qed.

(** C9 (as amended): under [tensor_check], a call whose tensor arguments are
    all one-dimensional runs the method on the batch-of-one arguments, leaves
    the same object state as the batched call, and returns the batched call's
    result with the batch dimension taken off (row 0 of a tensor, and of each
    tensor of a tuple). *)
Theorem tensor_check_unbatched_is_first_row
  (world : Type) (function : method world) (args : list arg) (w : world) :
  Forall unbatched args ->
  existsb is_tensor args = true ->
  snd (fst (tensor_check function args w))
  = snd (fst (tensor_check function (map batched_arg args) w))
  /\ fst (fst (tensor_check function args w))
     = res_bind (fst (fst (tensor_check function (map batched_arg args) w)))
                first_row.
Proof.
  intros Hall Hex. unfold tensor_check.
  rewrite (preprocess_all_unbatched args BatchInfo0 Hall eq_refl).
  rewrite (preprocess_all_batched args Hall). rewrite Hex. simpl.
  destruct (function (map batched_arg args) w) as [[r w'] args']. simpl.
  split; [reflexivity|].
  destruct r as [v|e]; simpl; [|reflexivity].
  rewrite parse_output_batched. reflexivity.
Qed.

Lemma tensor_check_unbatched_is_first_row_witness :
  Forall unbatched [ATensor (T1 [0]); ABool true]
  /\ existsb is_tensor [ATensor (T1 [0]); ABool true] = true
  /\ fst (fst (tensor_check constant_rows [ATensor (T1 [0]); ABool true] tt))
     = Ok (RTensor (T1 [1; 2])).
Proof.
  assert (Hall : Forall unbatched [ATensor (T1 [0]); ABool true])
    by (repeat constructor).
  split; [exact Hall|]. split; [reflexivity|].
  rewrite (proj2 (tensor_check_unbatched_is_first_row unit constant_rows
                    [ATensor (T1 [0]); ABool true] tt Hall eq_refl)).
  reflexivity.
Defined.

(** C9, the claim as stated fails: [compute_inverse_kinematics_jac] carries
    no [tensor_check] and asserts [trans.ndim == 2], so a single unbatched
    target is refused. *)
Lemma ik_jac_refuses_unbatched_target :
  fst (compute_inverse_kinematics_jac no_solve [] pendulum "arm"
         0.1 0.001 0.1 0.04
         (T1 [1; 0; 0]) (T1 [0; 0; 0; 1]) (T1 [0]) 1000
         [construction pendulum])
  = Raise AssertionError.
Proof. reflexivity. Qed.

(** ** Shapes, indices and the controlled joints *)

Lemma res_map_ok {A B} (f : A -> res B) (g : A -> B) (l : list A) :
  (forall x, In x l -> f x = Ok (g x)) -> res_map f l = Ok (map g l).
Proof.
  induction l as [|x l IH]; intros H; simpl; [reflexivity|].
  rewrite (H x (or_introl eq_refl)). simpl.
  rewrite IH by (intros y Hy; apply H; now right). reflexivity.
Qed.

Lemma py_nth_ok {A} (l : list A) (i : nat) (dflt : A) :
  (i < length l)%nat -> py_nth l i = Ok (nth i l dflt).
Proof.
  intros H. unfold py_nth.
  destruct (nth_error l i) eqn:E.
  - now rewrite (nth_error_nth l i dflt E).
  - apply nth_error_None in E. lia.
Qed.

Lemma controlled_from_bounds (links : robot) (i idx : nat) :
  In idx (controlled_from i links) -> (i <= idx < i + length links)%nat.
Proof.
  revert i. induction links as [|p rest IH]; intros i H; simpl in *; [tauto|].
  destruct (is_fixed p).
  - apply IH in H. lia.
  - destruct H as [<-|H]; [lia|]. apply IH in H. lia.
Qed.

Lemma controlled_joints_lt (m : robot) (i : nat) :
  (i < n_dofs m)%nat -> (nth i (controlled_joints m) 0 < length m)%nat.
Proof.
  intros H.
  assert (Hin : In (nth i (controlled_joints m) 0%nat) (controlled_joints m))
    by (apply nth_In; exact H).
  apply controlled_from_bounds in Hin. lia.
Qed.

Lemma damping_const_ok (m : robot) : damping_const m = Ok (damping_of m).
Proof.
  unfold damping_const, damping_of. apply res_map_ok.
  intros i Hi. unfold range in Hi. apply in_seq in Hi.
  assert (Hlt : (i < n_dofs m)%nat) by lia.
  rewrite (py_nth_ok _ i 0%nat) by exact Hlt. simpl.
  rewrite (py_nth_ok _ _ default_params) by (apply controlled_joints_lt; exact Hlt).
  reflexivity.
Qed.

Lemma rows_have_cons (n : nat) (r : list R) (rows : list (list R)) :
  rows_have n (r :: rows) = true -> length r = n /\ rows_have n rows = true.
Proof.
  unfold rows_have. simpl. intros H. apply andb_prop in H as [H1 H2].
  apply Nat.eqb_eq in H1. tauto.
Qed.

Lemma damping_of_length (m : robot) : length (damping_of m) = n_dofs m.
Proof. unfold damping_of, range. rewrite length_map, length_seq. lia. Qed.

Lemma map2_length {A B C} (f : A -> B -> C) (l1 : list A) (l2 : list B) :
  length (map2 f l1 l2) = Nat.min (length l1) (length l2).
Proof. unfold map2. now rewrite length_map, length_combine. Qed.

Lemma sub_damping_ok (m : robot) (f qd : list (list R)) :
  rows_have (n_dofs m) f = true ->
  rows_have (n_dofs m) qd = true ->
  sub_damping (damping_of m) f qd = Ok (damped m f qd).
Proof.
  revert qd. induction f as [|frow f IH]; intros qd Hf Hqd; [reflexivity|].
  destruct qd as [|qdrow qd]; [reflexivity|].
  apply rows_have_cons in Hf as [Hl Hf]. apply rows_have_cons in Hqd as [Hq Hqd].
  specialize (IH qd Hf Hqd).
  unfold sub_damping, damped, map2 in *.
  cbn [combine map res_map].
  unfold sub_row at 1.
  replace (Nat.eqb (length frow)
             (length (map (fun '(a, b) => a * b) (combine (damping_of m) qdrow))))
    with true.
  2:{ symmetry. apply Nat.eqb_eq.
      rewrite length_map, length_combine, damping_of_length. lia. }
  cbn [res_bind]. rewrite IH. reflexivity.
Qed.

Lemma list_nat_eqb_refl (l : list nat) : list_nat_eqb l l = true.
Proof. unfold list_nat_eqb. destruct (list_eq_dec Nat.eq_dec l l); congruence. Qed.

Lemma preprocess_dynamics_args (q qd x : list (list R)) (g d : bool) :
  length qd = length q -> length x = length q ->
  preprocess_all
    [ATensor (T2 q); ATensor (T2 qd); ATensor (T2 x); ABool g; ABool d] BatchInfo0
  = Ok ([ATensor (T2 q); ATensor (T2 qd); ATensor (T2 x); ABool g; ABool d],
        mkBatchInfo [length q] true).
Proof.
  intros H1 H2. cbn. rewrite H1, list_nat_eqb_refl. cbn.
  rewrite H2, list_nat_eqb_refl. reflexivity.
Qed.

(** ** Forward dynamics and the caller's force tensor *)

(** C10: a call of [compute_forward_dynamics] on batched tensors of matching
    shape leaves the caller's [f] holding [f - damping * qd] when
    [use_damping] is set, whatever the outcome of the call, and leaves [f] as
    it was when [use_damping] is not set. *)
Theorem forward_dynamics_damps_f_in_place
  (m : robot) (q qd f : list (list R)) (g : bool) (st : state) :
  kinematic_checks m q qd = true ->
  length f = length q ->
  rows_have (n_dofs m) f = true ->
  snd (compute_forward_dynamics m
         [ATensor (T2 q); ATensor (T2 qd); ATensor (T2 f); ABool g; ABool true] st)
  = [ATensor (T2 q); ATensor (T2 qd); ATensor (T2 (damped m f qd));
     ABool g; ABool true]
  /\ snd (compute_forward_dynamics m
            [ATensor (T2 q); ATensor (T2 qd); ATensor (T2 f); ABool g; ABool false] st)
     = [ATensor (T2 q); ATensor (T2 qd); ATensor (T2 f); ABool g; ABool false].
Proof.
  intros Hk Hlen Hf.
  assert (Hk' := Hk). unfold kinematic_checks in Hk'.
  apply andb_prop in Hk' as [Hk' Hqd]. apply andb_prop in Hk' as [Hl Hq].
  apply Nat.eqb_eq in Hl.
  unfold compute_forward_dynamics, tensor_check.
  rewrite !preprocess_dynamics_args by congruence.
  unfold compute_forward_dynamics_impl.
  rewrite Hk. rewrite <- Hlen, Nat.eqb_refl. cbn [andb].
  rewrite damping_const_ok. cbn [res_bind].
  rewrite (sub_damping_ok m f qd Hf Hqd).
  split.
  - destruct (run_batch m (forward_dynamics_row m g) (combine3 q qd (damped m f qd)) st)
      as [r st']. reflexivity.
  - destruct (run_batch m (forward_dynamics_row m g) (combine3 q qd f) st)
      as [r st']. reflexivity.
Qed.

Lemma forward_dynamics_damps_f_in_place_witness :
  snd (compute_forward_dynamics pendulum
         [ATensor (T2 [[0]]); ATensor (T2 [[2]]); ATensor (T2 [[5]]);
          ABool true; ABool true] [construction pendulum])
  = [ATensor (T2 [[0]]); ATensor (T2 [[2]]);
     ATensor (T2 (damped pendulum [[5]] [[2]])); ABool true; ABool true].
Proof.
  exact (proj1 (forward_dynamics_damps_f_in_place pendulum [[0]] [[2]] [[5]] true
                  [construction pendulum] eq_refl eq_refl eq_refl)).
Defined.

(** ** Evaluating the model on concrete robots *)

Ltac close_real :=
  first [ reflexivity | lra | (rewrite ?cos_0, ?sin_0; lra) ].

(** Two values of the same shape are equal when their real entries are. *)
Ltac same_shape :=
  lazymatch goal with
  | |- @eq R _ _ => close_real
  | |- _ => first [ reflexivity | progress f_equal; same_shape ]
  end.

(** Decide the zero test of a float division. *)
Ltac zero_divisor :=
  match goal with
  | |- context [Req_dec_T ?x 0] =>
      destruct (Req_dec_T x 0) as [?|?Hnz];
      [ | exfalso; apply Hnz; rewrite ?cos_0, ?sin_0; lra ]
  end.

Ltac nonzero_divisor :=
  match goal with
  | |- context [Req_dec_T ?x 0] =>
      destruct (Req_dec_T x 0) as [?Hz|?];
      [ exfalso; revert Hz; rewrite ?cos_0, ?sin_0; lra | ]
  end.

(** C2, the code at a failing input: a controlled link without mass and
    inertia has effective inertia [d = 0], the joint acceleration is computed
    as [(1.0 / body.d) * ...] with no epsilon, and the value returned for it
    is not finite. *)
Lemma massless_link_acceleration_not_finite :
  fst (fst (compute_forward_dynamics massless_pendulum
              [ATensor (T2 [[0]]); ATensor (T2 [[0]]); ATensor (T2 [[1]]);
               ABool true; ABool false]
              [construction massless_pendulum]))
  = Raise NonFinite.
Proof.
  model_eval. zero_divisor. reflexivity.
Qed.

(** C8, the code at a failing input: [compute_forward_dynamics] never checks
    the columns of [f]; with one column for two joints the call raises only in
    the backward sweep, after [update_kinematic_state] has overwritten the
    link poses (link 1 has moved from the origin to its joint frame). *)
Lemma forward_dynamics_short_force_fails_late :
  fst (fst (compute_forward_dynamics two_link
              [ATensor (T2 [[0; 0]]); ATensor (T2 [[0; 0]]); ATensor (T2 [[1]]);
               ABool true; ABool false]
              [construction two_link]))
  = Raise IndexError
  /\ option_map (fun b => translation (pose b))
       (nth_error (nth 0 [construction two_link] []) 1)
     = Some (V3 0 0 0)
  /\ option_map (fun b => translation (pose b))
       (nth_error
          (nth 0 (snd (fst (compute_forward_dynamics two_link
                              [ATensor (T2 [[0; 0]]); ATensor (T2 [[0; 0]]);
                               ATensor (T2 [[1]]); ABool true; ABool false]
                              [construction two_link]))) []) 1)
     = Some (V3 1 0 0).
Proof.
  split; [reflexivity|]. split; [reflexivity|].
  model_eval. same_shape.
Qed.

(** C3, the code at a failing input: for the unit axis (3/5, 4/5, 0) the
    projection loop's [int(torch.where(axis)[0])] meets two non-zero
    components and raises; no torque is returned. *)
Lemma skew_axis_inverse_dynamics_raises :
  fst (fst (compute_inverse_dynamics skew_arm
              [ATensor (T2 [[0]]); ATensor (T2 [[0]]); ATensor (T2 [[0]]);
               ABool true; ABool true]
              [construction skew_arm]))
  = Raise ValueError.
Proof.
  model_eval. repeat nonzero_divisor. reflexivity.
Qed.

(** C5, the code at a failing input: two links, each on its own joint at the
    base.  The all-links variant walks back from the last link only and fills
    every link of higher index, so the Jacobian it reports for link "a" has no
    column for the joint of "a", while the single-link variant has the joint
    axis there. *)
Lemma all_links_jacobian_misses_branch :
  fst (fst (compute_endeffector_jacobian fork
              [ATensor (T2 [[0; 0]]); AStr "a"] [construction fork]))
  = Ok (RTuple [VTensor (T3 [[[0; 0]; [0; 0]; [0; 0]]]);
                VTensor (T3 [[[0; 0]; [0; 0]; [1; 0]]])])
  /\ fst (fst (compute_endeffector_jacobian_all_links fork
                 [ATensor (T2 [[0; 0]])] [construction fork]))
     = Ok (RTuple [VTensor (T4 [[[[0; 0]; [0; 0]; [0; 0]];
                                 [[0; 0]; [0; 0]; [0; 0]];
                                 [[0; 0]; [0; 0]; [0; 0]]]]);
                   VTensor (T4 [[[[0; 0]; [0; 0]; [0; 0]];
                                 [[0; 0]; [0; 0]; [0; 0]];
                                 [[0; 0]; [0; 0]; [0; 1]]]])]).
Proof.
  split; model_eval; same_shape.
Qed.

(** ** Rows of a batched run *)

Lemma py_nth_inv {A} (l : list A) (i : nat) (a dflt : A) :
  py_nth l i = Ok a -> nth i l dflt = a /\ (i < length l)%nat.
Proof.
  unfold py_nth. destruct (nth_error l i) eqn:E; [|discriminate].
  intros [= <-]. split.
  - now apply nth_error_nth.
  - apply nth_error_Some. congruence.
Qed.

Lemma collect_ok {A} (l : list (res A)) (ys : list A) :
  collect l = Ok ys ->
  length ys = length l
  /\ forall k dr da, (k < length l)%nat -> nth k l dr = Ok (nth k ys da).
Proof.
  revert ys. induction l as [|r l IH]; intros ys H; simpl in H.
  - injection H as <-. split; [reflexivity|]. intros k dr da Hk. simpl in Hk. lia.
  - destruct r as [a|e]; simpl in H; [|discriminate].
    destruct (collect l) as [rest|e]; simpl in H; [|discriminate].
    injection H as <-. destruct (IH rest eq_refl) as [Hl Hn].
    split; [simpl; congruence|].
    intros [|k] dr da Hk; simpl; [reflexivity|]. apply Hn. simpl in Hk. lia.
Qed.

Lemma res_map_nth {A B} (f : A -> res B) (l : list A) (ys : list B) :
  res_map f l = Ok ys ->
  length ys = length l
  /\ forall k da db, (k < length l)%nat -> f (nth k l da) = Ok (nth k ys db).
Proof.
  revert ys. induction l as [|x l IH]; intros ys H; simpl in H.
  - injection H as <-. split; [reflexivity|]. intros k da db Hk. simpl in Hk. lia.
  - destruct (f x) as [y|e] eqn:E; simpl in H; [|discriminate].
    destruct (res_map f l) as [rest|e]; simpl in H; [|discriminate].
    injection H as <-. destruct (IH rest eq_refl) as [Hl Hn].
    split; [simpl; congruence|].
    intros [|k] da db Hk; simpl; [exact E|]. apply Hn. simpl in Hk. lia.
Qed.

Lemma nth_map_lt {A B} (h : A -> B) (l : list A) (k : nat) (d : B) (d' : A) :
  (k < length l)%nat -> nth k (map h l) d = h (nth k l d').
Proof.
  revert k. induction l as [|x l IH]; intros [|k] Hk; simpl in *; try lia.
  - reflexivity.
  - apply IH. lia.
Qed.

Lemma run_batch_row {I A} (m : robot) (f : I -> M A) (inputs : list I)
  (st : state) (outs : list A) (st' : state) (di : I) (da : A) (b : nat) :
  run_batch m f inputs st = (Ok outs, st') ->
  (b < length inputs)%nat ->
  f (nth b inputs di) (brow m st b) = (Ok (nth b outs da), nth b st' []).
Proof.
  unfold run_batch. intros H Hb.
  set (h := fun bx : nat * I => let '(b, x) := bx in f x (brow m st b)) in H.
  set (C := combine (seq 0 (length inputs)) inputs) in H.
  injection H as Hc Hs.
  assert (HC : length C = length inputs).
  { unfold C. rewrite length_combine, length_seq. lia. }
  assert (Hn : nth b C (0%nat, di) = (b, nth b inputs di)).
  { unfold C. rewrite combine_nth by (rewrite length_seq; reflexivity).
    rewrite seq_nth by lia. reflexivity. }
  destruct (collect_ok _ _ Hc) as [_ Hk].
  specialize (Hk b (Raise RuntimeError) da).
  rewrite !length_map, HC in Hk. specialize (Hk Hb).
  rewrite (nth_map_lt (@fst (res A) row_state) (map h C) b
             (Raise RuntimeError) (Raise RuntimeError, [])) in Hk
    by (rewrite length_map; lia).
  rewrite (nth_map_lt h C b (Raise RuntimeError, []) (0%nat, di)) in Hk by lia.
  rewrite Hn in Hk. simpl in Hk.
  rewrite <- Hs.
  rewrite (nth_map_lt (@snd (res A) row_state) (map h C) b
             [] (Raise RuntimeError, [])) by (rewrite length_map; lia).
  rewrite (nth_map_lt h C b (Raise RuntimeError, []) (0%nat, di)) by lia.
  rewrite Hn. simpl.
  rewrite <- Hk. now destruct (f (nth b inputs di) (brow m st b)).
Qed.

(** ** Inverse dynamics: the projection onto the joint axis *)

Lemma sign_unit (a : R) : a * a = 1 -> sign a * 1 = a.
Proof.
  intros H. unfold sign.
  destruct (Rlt_dec 0 a); [nra|]. destruct (Rlt_dec a 0); nra.
Qed.

(** On a unit axis along a coordinate axis the vector built by the
    projection loop is the axis itself. *)
Lemma axis_vector_unit (axis : vec3) (k : nat) :
  int_of_indices (where_nonzero axis) = Ok k ->
  vdot axis axis = 1 ->
  axis_vector k (sign (vnth axis k)) = axis.
Proof.
  destruct axis as [x y z]. unfold where_nonzero, vdot. simpl.
  destruct (Req_dec_T x 0) as [Hx|Hx], (Req_dec_T y 0) as [Hy|Hy],
           (Req_dec_T z 0) as [Hz|Hz]; simpl; try discriminate;
    intros [= <-] Hu; simpl; subst; f_equal; apply sign_unit; nra.
Qed.

Lemma joint_force_unit_axis (m : robot) (s : row_state) (i : nat) (t : R) :
  joint_force m s i = Ok t ->
  vdot (controlled_axis m i) (controlled_axis m i) = 1 ->
  t = vdot (fang (link_force m s i)) (controlled_axis m i).
Proof.
  unfold joint_force, controlled_axis, link_force, controlled_link.
  intros H Hu.
  destruct (py_nth (controlled_joints m) i) as [idx|] eqn:E1; simpl in H; [|discriminate].
  apply (py_nth_inv _ _ _ 0%nat) in E1 as [E1 _]. rewrite E1 in *.
  destruct (py_nth m idx) as [p|] eqn:E2; simpl in H; [|discriminate].
  apply (py_nth_inv _ _ _ default_params) in E2 as [E2 _]. rewrite E2 in *.
  destruct (py_nth s idx) as [b|] eqn:E3; simpl in H; [|discriminate].
  apply (py_nth_inv _ _ _ default_body) in E3 as [E3 _]. rewrite E3.
  destruct (int_of_indices (where_nonzero (joint_axis p))) as [k|] eqn:E4;
    simpl in H; [|discriminate].
  injection H as <-.
  rewrite (axis_vector_unit _ _ E4 Hu). ring.
Qed.

Lemma nth_combine_lt {A B} (l1 : list A) (l2 : list B) (i : nat) (da : A) (db : B) :
  (i < length l1)%nat -> (i < length l2)%nat ->
  nth i (combine l1 l2) (da, db) = (nth i l1 da, nth i l2 db).
Proof.
  revert l2 i. induction l1 as [|x l1 IH]; intros [|y l2] [|i] H1 H2;
    simpl in *; try lia; [reflexivity|].
  apply IH; lia.
Qed.

Lemma nth_map2 {A B C} (f : A -> B -> C) (l1 : list A) (l2 : list B)
  (i : nat) (da : A) (db : B) (dc : C) :
  (i < length l1)%nat -> (i < length l2)%nat ->
  nth i (map2 f l1 l2) dc = f (nth i l1 da) (nth i l2 db).
Proof.
  intros H1 H2. unfold map2.
  rewrite (nth_map_lt _ _ _ _ (da, db)) by (rewrite length_combine; lia).
  rewrite nth_combine_lt by assumption. reflexivity.
Qed.

Lemma rows_have_nth (n : nat) (rows : list (list R)) (b : nat) :
  rows_have n rows = true -> (b < length rows)%nat -> length (nth b rows []) = n.
Proof.
  unfold rows_have. intros H Hb. rewrite forallb_forall in H.
  apply Nat.eqb_eq, H, nth_In, Hb.
Qed.

Lemma combine3_nth {A B C} (a : list A) (b : list B) (c : list C) (k : nat)
  (da : A) (db : B) (dc : C) :
  length a = length b -> length a = length c ->
  nth k (combine3 a b c) (da, db, dc) = (nth k a da, nth k b db, nth k c dc).
Proof.
  intros H1 H2. unfold combine3.
  rewrite combine_nth by (rewrite length_combine; lia).
  rewrite combine_nth by assumption. reflexivity.
Qed.

Lemma combine3_length {A B C} (a : list A) (b : list B) (c : list C) :
  length a = length b -> length a = length c ->
  length (combine3 a b c) = length a.
Proof. intros H1 H2. unfold combine3. rewrite !length_combine. lia. Qed.

Lemma dynamics_checks_inv (m : robot) (q qd x : list (list R)) :
  dynamics_checks m q qd x = true ->
  length q = length qd /\ length q = length x
  /\ rows_have (n_dofs m) q = true /\ rows_have (n_dofs m) qd = true
  /\ rows_have (n_dofs m) x = true.
Proof.
  unfold dynamics_checks, kinematic_checks. intros H.
  repeat (apply andb_prop in H as [H ?]).
  repeat match goal with H : Nat.eqb _ _ = true |- _ => apply Nat.eqb_eq in H end.
  tauto.
Qed.

(** What one row of [compute_inverse_dynamics] returns: the projections
    computed on the fields the backward sweep leaves, plus the damping term. *)
Lemma inverse_dynamics_row_result (m : robot) (g d : bool) (q qd qdd : list R)
  (s s' : row_state) (tau : list R) :
  inverse_dynamics_row m g d (q, qd, qdd) s = (Ok tau, s') ->
  exists force,
    res_map (joint_force m s') (range 0 (length qdd)) = Ok force
    /\ tau = if d then map2 Rplus force (map2 Rmult (damping_of m) qd) else force.
Proof.
  unfold inverse_dynamics_row, mbind. intros H.
  destruct (update_kinematic_state_row m q qd s) as [[[]|e] s1]; [|discriminate].
  match type of H with
  | context [for_each ?l ?f s1] => destruct (for_each l f s1) as [[[]|e] s2]
  end; [|discriminate].
  destruct (iterative_newton_euler_row m (base_acceleration g) s2)
    as [[[]|e] s3]; [|discriminate].
  destruct (res_map (joint_force m s3) (range 0 (length qdd))) as [force|e] eqn:E;
    [|discriminate].
  destruct d.
  - unfold lift, mret in H. rewrite damping_const_ok in H.
    injection H as <- <-. exists force. split; [exact E|reflexivity].
  - unfold mret in H. injection H as <- <-. exists force. split; [exact E|reflexivity].
Qed.

(** X22: when [compute_inverse_dynamics] returns, the torque of every
    controlled joint whose axis is a unit vector is the dot product of that
    axis with the angular part of the force the backward sweep left on the
    joint's link, plus the damping term when damping is asked for. *)
Theorem inverse_dynamics_torque_is_projection
  (m : robot) (q qd qdd : list (list R)) (g d : bool) (st st' : state)
  (tau : list (list R)) (b i : nat) :
  compute_inverse_dynamics_impl m (T2 q) (T2 qd) (T2 qdd) g d st
  = (Ok (RTensor (T2 tau)), st') ->
  vdot (controlled_axis m i) (controlled_axis m i) = 1 ->
  (b < length q)%nat -> (i < n_dofs m)%nat ->
  entry tau b i
  = vdot (fang (link_force m (nth b st' []) i)) (controlled_axis m i)
    + (if d then nth i (damping_of m) 0 * entry qd b i else 0).
Proof.
  unfold compute_inverse_dynamics_impl. intros H Hu Hb Hi.
  destruct (dynamics_checks m q qd qdd) eqn:Hc; [|discriminate].
  apply dynamics_checks_inv in Hc as (Hl1 & Hl2 & Hq & Hqd & Hqdd).
  destruct (run_batch m (inverse_dynamics_row m g d) (combine3 q qd qdd) st)
    as [r st1] eqn:Hrun.
  destruct r as [l|e]; simpl in H; [|discriminate].
  injection H as -> ->.
  pose proof (run_batch_row m _ _ _ _ _ ([], [], []) [] b Hrun) as Hrow.
  rewrite combine3_length in Hrow by assumption. specialize (Hrow Hb).
  rewrite combine3_nth in Hrow by assumption.
  apply inverse_dynamics_row_result in Hrow as (force & Hf & Htau).
  apply res_map_nth in Hf as [Hlen Hf].
  assert (Hn : length (nth b qdd []) = n_dofs m)
    by (apply rows_have_nth; [assumption|lia]).
  assert (Hnq : length (nth b qd []) = n_dofs m)
    by (apply rows_have_nth; [assumption|lia]).
  unfold range in Hf, Hlen. rewrite length_seq, Nat.sub_0_r, Hn in *.
  specialize (Hf i 0%nat 0 Hi). rewrite seq_nth in Hf by lia. simpl in Hf.
  apply joint_force_unit_axis in Hf; [|assumption].
  unfold entry. rewrite Htau. destruct d.
  - rewrite (nth_map2 _ _ _ _ 0 0)
      by (rewrite ?map2_length, ?damping_of_length; lia).
    rewrite (nth_map2 _ _ _ _ 0 0) by (rewrite ?damping_of_length; lia).
    rewrite Hf. reflexivity.
  - rewrite Hf. ring.
Qed.

Lemma inverse_dynamics_torque_is_projection_witness :
  exists tau st',
    compute_inverse_dynamics_impl pendulum (T2 [[0]]) (T2 [[0]]) (T2 [[1]])
      true true [construction pendulum]
    = (Ok (RTensor (T2 tau)), st')
    /\ vdot (controlled_axis pendulum 0) (controlled_axis pendulum 0) = 1
    /\ entry tau 0 0
       = vdot (fang (link_force pendulum (nth 0 st' []) 0))
              (controlled_axis pendulum 0)
         + nth 0 (damping_of pendulum) 0 * entry [[0]] 0 0.
Proof.
  destruct (compute_inverse_dynamics_impl pendulum (T2 [[0]]) (T2 [[0]])
              (T2 [[1]]) true true [construction pendulum]) as [r st'] eqn:E.
  assert (Hr : exists tau, r = Ok (RTensor (T2 tau))).
  { revert E. model_eval.
    repeat match goal with
           | |- context [Req_dec_T ?x 0] => destruct (Req_dec_T x 0)
           end;
      try (exfalso; lra);
      try (intros [= <- _]; eexists; reflexivity). }
  destruct Hr as [tau ->].
  assert (Hu : vdot (controlled_axis pendulum 0) (controlled_axis pendulum 0) = 1)
    by (model_eval; lra).
  exists tau, st'. split; [reflexivity|]. split; [exact Hu|].
  apply (inverse_dynamics_torque_is_projection pendulum [[0]] [[0]] [[1]]
           true true [construction pendulum] st' tau 0 0 E Hu);
    apply Nat.ltb_lt; reflexivity.
Defined.

(** ** Damped least squares keeps the best configuration it has seen *)

(** The Euler angles of the identity quaternion. *)

Lemma EPS_bounds : 0 < EPS_ < 1.
Proof.
  unfold EPS_. split.
  - apply Rdiv_lt_0_compat; [lra | apply pow_lt; lra].
  - apply (Rmult_lt_reg_r (2 ^ 52)); [apply pow_lt; lra|].
    unfold Rdiv. rewrite Rmult_assoc, Rinv_l by (apply pow_nonzero; lra).
    change 52%nat with (2 + 50)%nat. rewrite pow_add.
    assert (1 <= 2 ^ 50) by (apply pow_R1_Rle; lra). nra.
Qed.

Lemma sqrt_positive_part_4 : sqrt_positive_part 4 = 2.
Proof.
  unfold sqrt_positive_part. rewrite Rmax_right by lra.
  replace 4 with (2 * 2) by lra. apply sqrt_square. lra.
Qed.

Lemma sqrt_positive_part_0 : sqrt_positive_part 0 = 0.
Proof. unfold sqrt_positive_part. rewrite Rmax_left by lra. apply sqrt_0. Qed.

Lemma get_quaternion_eye (A : mat3) (t : vec3) :
  A = mat_eye -> get_quaternion (mkTransform A t) = [0; 0; 0; 1].
Proof.
  intros ->. unfold get_quaternion. cbn [rotation mat_eye m00 m01 m02 m10 m11 m12 m20 m21 m22].
  replace (1 + 1 + 1 + 1) with 4 by lra.
  replace (1 + 1 - 1 - 1) with 0 by lra.
  replace (1 - 1 + 1 - 1) with 0 by lra.
  replace (1 - 1 - 1 + 1) with 0 by lra.
  rewrite sqrt_positive_part_4, sqrt_positive_part_0.
  unfold argmax4.
  repeat match goal with
         | |- context [Rlt_dec 2 0] =>
             destruct (Rlt_dec 2 0); [lra|]; cbn [snd fst]
         end.
  cbn [snd fst combine map nth].
  rewrite Rmax_left by lra.
  repeat f_equal; field.
Qed.

Lemma atan2_0_1 (y x : R) : y = 0 -> x = 1 -> atan2 y x = 0.
Proof.
  intros -> ->. unfold atan2. destruct (Rlt_dec 0 1); [|lra].
  replace (0 / 1) with 0 by lra. apply atan_0.
Qed.

Lemma euler_identity : euler_from_quaternion [0; 0; 0; 1] = Ok [0; 0; 0].
Proof.
  unfold euler_from_quaternion. cbn [py_nth nth_error res_bind].
  pose proof EPS_bounds as [He0 He1].
  unfold ldot, lsum. cbn [combine map fold_right nth].
  destruct (Rlt_dec _ EPS_) as [H|_]; [exfalso; lra|].
  generalize (sqrt (2 / (1 * 1 + (0 * 0 + (0 * 0 + (0 * 0 + 0)))))). intros s.
  match goal with
  | |- context [Rlt_dec EPS_ (sqrt ?a)] => replace a with 1 by ring
  end.
  rewrite sqrt_1.
  destruct (Rlt_dec EPS_ 1) as [_|H]; [|exfalso; lra].
  f_equal. repeat (apply f_equal2; [apply atan2_0_1; ring|]). reflexivity.
Qed.

(** One pass of the bookkeeping. *)

Lemma first_least_keep (pre : list iterate) (v : dls_vars) (c : list R) (dn : R) :
  match min_error v with
  | None => pre = []
  | Some e =>
      exists p q, pre = (p ++ (final_row v, e) :: q)%list
                  /\ (forall x, In x p -> e < snd x)
                  /\ (forall x, In x q -> e <= snd x)
  end ->
  exists e p q,
    min_error (keep_best v c dn) = Some e
    /\ (pre ++ [(c, dn)])%list = (p ++ (final_row (keep_best v c dn), e) :: q)%list
    /\ (forall x, In x p -> e < snd x)
    /\ (forall x, In x q -> e <= snd x).
Proof.
  unfold keep_best. destruct v as [[e|] row]; simpl.
  - intros (p & q & -> & Hp & Hq).
    destruct (Rlt_dec dn e) as [Hlt|Hge]; simpl.
    + exists dn, (p ++ (row, e) :: q)%list, []. repeat split.
      * intros x Hx. apply in_app_or in Hx as [Hx|[<-|Hx]].
        -- apply Hp in Hx. lra.
        -- simpl. lra.
        -- apply Hq in Hx. lra.
      * intros x [].
    + exists e, p, (q ++ [(c, dn)])%list. repeat split.
      * now rewrite <- app_assoc.
      * exact Hp.
      * intros x Hx. apply in_app_or in Hx as [Hx|[<-|[]]].
        -- now apply Hq.
        -- simpl. lra.
  - intros ->. exists dn, [], []. repeat split; intros x [].
Qed.

Section Kept.
Variable linalg_solve : list (list R) -> list R -> res (list R).
Variable empty_row : list R.
Variable m : robot.
Variable link : string.
Variables min_precision min_convergency_update learning_rate damping_factor : R.

Lemma dls_loop_first_least (remaining : nat) (goal_pose : list R) :
  forall (curr_conf : list R) (v : dls_vars) (st : state) (v' : dls_vars)
         (st' : state) (pre : list iterate),
    match min_error v with
    | None => pre = []
    | Some _ => keeps_first_least pre v
    end ->
    dls_loop linalg_solve m link min_precision min_convergency_update
             learning_rate damping_factor remaining goal_pose curr_conf v st
    = (Ok v', st') ->
    keeps_first_least (pre ++ fst (iterates linalg_solve m link min_precision
                        min_convergency_update learning_rate damping_factor
                        remaining goal_pose curr_conf st)) v'
    /\ snd (iterates linalg_solve m link min_precision
              min_convergency_update learning_rate damping_factor
              remaining goal_pose curr_conf st) = st'.
Proof.
  assert (Hstep : forall pre v c dn,
             match min_error v with
             | None => pre = []
             | Some _ => keeps_first_least pre v
             end ->
             keeps_first_least (pre ++ [(c, dn)]) (keep_best v c dn)).
  { intros pre v c dn Hv. apply first_least_keep.
    destruct (min_error v) as [e|] eqn:E; [|exact Hv].
    destruct Hv as (e0 & p & q & He & Hv). rewrite E in He.
    injection He as <-. exists p, q. exact Hv. }
  induction remaining as [|remaining IH];
    intros curr_conf v st v' st' pre Hv H; simpl in H |- *;
    destruct (pose_delta m link goal_pose curr_conf st) as [[delta|e] st1];
    try discriminate;
    pose proof (Hstep pre v curr_conf (lnorm delta) Hv) as Hk;
    destruct (Rlt_dec (lnorm delta) min_precision);
    try (injection H as <- <-; split; [exact Hk|reflexivity]).
  destruct (dls_update linalg_solve m link damping_factor delta curr_conf st1)
    as [[dc|e] st2]; [|discriminate].
  destruct (Rlt_dec (lnorm dc) min_convergency_update).
  - injection H as <- <-. split; [exact Hk|reflexivity].
  - assert (Hv' : match min_error (keep_best v curr_conf (lnorm delta)) with
                  | None => (pre ++ [(curr_conf, lnorm delta)])%list = []
                  | Some _ => keeps_first_least (pre ++ [(curr_conf, lnorm delta)])
                                   (keep_best v curr_conf (lnorm delta))
                  end).
    { pose proof Hk as (e0 & _ & _ & He & _). rewrite He. exact Hk. }
    specialize (IH _ _ _ _ _ _ Hv' H).
    destruct (iterates linalg_solve m link min_precision min_convergency_update
                learning_rate damping_factor remaining goal_pose _ st2)
      as [rest st3].
    cbn [fst snd] in IH |- *. rewrite <- app_assoc in IH. exact IH.
Qed.

Lemma dls_rows_first_least (max_num_iter : nat)
  (targets : list (list R * list R)) :
  forall (curr_conf : list R) (st : state) (vs : list dls_vars) (st' : state),
    dls_rows linalg_solve empty_row m link min_precision min_convergency_update
             learning_rate damping_factor max_num_iter targets curr_conf st
    = (Ok vs, st') ->
    length vs = length targets
    /\ Forall2 first_least
         (rows_iterates linalg_solve m link min_precision min_convergency_update
            learning_rate damping_factor max_num_iter targets
            (curr_conf :: map final_row vs) st)
         (map final_row vs).
Proof.
  induction targets as [|[trans_row rot_row] rest IH];
    intros curr_conf st vs st' H; simpl in H.
  - injection H as <- _. split; [reflexivity|constructor].
  - destruct (euler_from_quaternion rot_row) as [eul|e] eqn:Eeul; [|discriminate].
    destruct (dls_loop linalg_solve m link min_precision min_convergency_update
                learning_rate damping_factor max_num_iter (trans_row ++ eul)
                curr_conf (mkVars None empty_row) st)
      as [[v|e] st1] eqn:Hloop; [|discriminate].
    destruct (dls_rows linalg_solve empty_row m link min_precision
                min_convergency_update learning_rate damping_factor
                max_num_iter rest (final_row v) st1)
      as [[vs'|e] st2] eqn:Hrest; simpl in H; [|discriminate].
    injection H as <- _.
    destruct (dls_loop_first_least _ _ _ (mkVars None empty_row) _ _ _ []
                eq_refl Hloop) as [Hk Hst].
    destruct (IH _ _ _ _ Hrest) as [Hlen Hall].
    split; [simpl; now rewrite Hlen|].
    cbn [map rows_iterates]. rewrite Eeul.
    destruct (iterates linalg_solve m link min_precision min_convergency_update
                learning_rate damping_factor max_num_iter (trans_row ++ eul)
                curr_conf st) as [its st1'].
    cbn [fst snd app] in Hk, Hst. subst st1'.
    constructor; [|exact Hall].
    destruct Hk as (e & p & q & _ & Hk). exists e, p, q. exact Hk.
Qed.
End Kept.

(** C7: when [compute_inverse_kinematics_jac] returns, it returns one row for
    each target, and the row of a target is the first configuration of least
    pose-error norm among the configurations the solver evaluates for that
    target, the first target from [init_conf] and each later one from the row
    returned for the target before it, whichever of the three exits ends the
    evaluation. *)
Theorem inverse_kinematics_jac_returns_best_seen
  (linalg_solve : list (list R) -> list R -> res (list R)) (empty_row : list R)
  (m : robot) (link : string)
  (min_precision min_convergency_update learning_rate damping_factor : R)
  (tr rr : list (list R)) (ic : list R) (max_num_iter : nat) (st st' : state)
  (rows : list (list R)) :
  compute_inverse_kinematics_jac linalg_solve empty_row m link min_precision
    min_convergency_update learning_rate damping_factor
    (T2 tr) (T2 rr) (T1 ic) max_num_iter st
  = (Ok (RTensor (T2 rows)), st') ->
  length rows = length tr
  /\ Forall2 first_least
       (rows_iterates linalg_solve m link min_precision min_convergency_update
          learning_rate damping_factor max_num_iter (combine tr rr)
          (ic :: rows) st)
       rows.
Proof.
  unfold compute_inverse_kinematics_jac, inverse_kinematics_jac_rows.
  destruct (Nat.eqb (length tr) (hd 0%nat (shape (T2 rr)))) eqn:E1;
    cbn [assert res_bind]; [|intros [=]].
  destruct (rows_have 3 tr); cbn [assert res_bind]; [|intros [=]].
  destruct (rows_have 4 rr); cbn [assert res_bind]; [|intros [=]].
  destruct (Nat.eqb (length ic) (n_dofs m)); cbn [assert res_bind];
    [|intros [=]].
  destruct (dls_rows linalg_solve empty_row m link min_precision
              min_convergency_update learning_rate damping_factor max_num_iter
              (combine tr rr) ic st) as [[vs|e] st1] eqn:H;
    cbn [res_bind]; [|intros [=]].
  destruct vs as [|v vs]; [intros [=]|].
  intros [= <- _].
  apply dls_rows_first_least in H. destruct H as [Hlen Hall].
  split; [|exact Hall].
  etransitivity; [apply (length_map final_row (v :: vs))|].
  rewrite Hlen, length_combine.
  apply Nat.eqb_eq in E1. simpl in E1. lia.
Qed.

(** A run of the solver on the slider: two targets, three configurations
    evaluated for each. *)

Lemma lnorm_first (x a b c d e : R) :
  a = 0 -> b = 0 -> c = 0 -> d = 0 -> e = 0 ->
  lnorm [x; a; b; c; d; e] = Rabs x.
Proof.
  intros -> -> -> -> ->. unfold lnorm, lsum. cbn [map fold_right].
  replace (x * x + (0 * 0 + (0 * 0 + (0 * 0 + (0 * 0 + (0 * 0 + 0))))))
    with (Rsqr x) by (unfold Rsqr; ring).
  apply sqrt_Rsqr_abs.
Qed.

Lemma slider_pose_delta (g q : R) (st : state) :
  (exists b0 b1, st = [[b0; b1]] /\ pose b0 = transform_id) ->
  exists d st',
    pose_delta slider "arm" [g; 0; 0; 0; 0; 0] [q] st = (Ok d, st')
    /\ lnorm d = Rabs (g - q)
    /\ (exists b0 b1, st' = [[b0; b1]] /\ pose b0 = transform_id).
Proof.
  intros (b0 & b1 & -> & Hp). destruct b0; cbn [pose] in Hp; subst.
  unfold pose_delta.
  cbv -[IZR cos sin sqrt atan PI Rmax Rlt_dec Req_dec_T
        Rdiv Rminus Rplus Rmult Ropp Rinv pow get_quaternion
        euler_from_quaternion lnorm Rabs].
  rewrite get_quaternion_eye
    by (unfold mat_eye; f_equal; lra).
  rewrite euler_identity.
  cbv -[IZR cos sin sqrt atan PI Rmax Rlt_dec Req_dec_T
        Rdiv Rminus Rplus Rmult Ropp Rinv pow get_quaternion
        euler_from_quaternion lnorm Rabs].
  do 2 eexists. split; [reflexivity|]. split.
  - rewrite lnorm_first by lra. f_equal. lra.
  - do 2 eexists. split; reflexivity.
Qed.

Lemma slider_dls_update (d : list R) (q : R) (st : state) :
  (exists b0 b1, st = [[b0; b1]] /\ pose b0 = transform_id) ->
  exists st',
    dls_update (fixed_solve [0; 0; 0; 40; 0; 0]) slider "arm" 0.04 d [q] st
    = (Ok [40], st')
    /\ (exists b0 b1, st' = [[b0; b1]] /\ pose b0 = transform_id).
Proof.
  intros (b0 & b1 & -> & Hp). destruct b0; cbn [pose] in Hp; subst.
  unfold dls_update.
  cbv -[IZR cos sin sqrt atan PI Rmax Rlt_dec Req_dec_T
        Rdiv Rminus Rplus Rmult Ropp Rinv pow get_quaternion
        euler_from_quaternion lnorm Rabs].
  eexists. split.
  - f_equal. f_equal. f_equal. lra.
  - do 2 eexists. split; reflexivity.
Qed.

Lemma lnorm_single (x : R) : lnorm [x] = Rabs x.
Proof.
  unfold lnorm, lsum. cbn [map fold_right].
  replace (x * x + 0) with (Rsqr x) by (unfold Rsqr; ring).
  apply sqrt_Rsqr_abs.
Qed.

Ltac decide_abs :=
  repeat match goal with
         | |- context [Rlt_dec ?x ?y] =>
             let H := fresh "H" in
             destruct (Rlt_dec x y) as [H|H];
             [ try (exfalso; revert H; unfold Rabs;
                    repeat destruct Rcase_abs; lra)
             | try (exfalso; apply H; unfold Rabs;
                    repeat destruct Rcase_abs; lra) ]
         end.

Ltac slider_evaluate Hst :=
  match goal with
  | |- context [pose_delta slider "arm" [?g; _; _; _; _; _] [?q] ?st] =>
      let d := fresh "d" in
      let E := fresh "E" in
      let Hn := fresh "Hn" in
      destruct (slider_pose_delta g q st Hst) as (d & ? & E & Hn & ?Hst);
      rewrite E; clear E; cbv zeta; unfold keep_best;
      cbn [min_error final_row]; rewrite !Hn; decide_abs
  end.

Ltac slider_update Hst :=
  match goal with
  | |- context [dls_update ?s slider "arm" ?l ?d [?q] ?st] =>
      let E := fresh "E" in
      destruct (slider_dls_update d q st Hst) as (? & E & ?Hst);
      rewrite E; clear E; rewrite lnorm_single; decide_abs;
      cbn [map map2 combine]
  end.

Lemma slider_solver_run :
  exists st',
    compute_inverse_kinematics_jac (fixed_solve [0; 0; 0; 40; 0; 0]) [] slider
      "arm" 0.1 0.001 0.1 0.04
      (T2 [[3; 0; 0]; [9; 0; 0]]) (T2 [[0; 0; 0; 1]; [0; 0; 0; 1]]) (T1 [0]) 2
      [construction slider]
    = (Ok (RTensor (T2 [[4]; [8]])), st').
Proof.
  unfold compute_inverse_kinematics_jac, inverse_kinematics_jac_rows.
  change (n_dofs slider) with 1%nat.
  cbn [shape hd length rows_have forallb Nat.eqb andb assert res_bind combine
       dls_rows].
  rewrite euler_identity. cbn [app].
  assert (Hst : exists b0 b1, [construction slider] = [[b0; b1]]
                              /\ pose b0 = transform_id)
    by (do 2 eexists; split; reflexivity).
  cbn [dls_loop]. slider_evaluate Hst.
  slider_update Hst0. slider_evaluate Hst1.
  slider_update Hst2. slider_evaluate Hst3.
  cbn [final_row dls_loop app].
  slider_evaluate Hst4.
  slider_update Hst5. slider_evaluate Hst6.
  slider_update Hst7. slider_evaluate Hst8.
  cbn [res_bind map final_row].
  eexists. replace (0 + 0.1 * 40) with 4 by lra.
  replace (4 + 0.1 * 40) with 8 by lra. reflexivity.
Defined.

Lemma inverse_kinematics_jac_returns_best_seen_witness :
  exists st',
    compute_inverse_kinematics_jac (fixed_solve [0; 0; 0; 40; 0; 0]) [] slider
      "arm" 0.1 0.001 0.1 0.04
      (T2 [[3; 0; 0]; [9; 0; 0]]) (T2 [[0; 0; 0; 1]; [0; 0; 0; 1]]) (T1 [0]) 2
      [construction slider]
    = (Ok (RTensor (T2 [[4]; [8]])), st')
    /\ length [[4]; [8]] = length [[3; 0; 0]; [9; 0; 0]]
    /\ Forall2 first_least
         (rows_iterates (fixed_solve [0; 0; 0; 40; 0; 0]) slider "arm"
            0.1 0.001 0.1 0.04 2
            (combine [[3; 0; 0]; [9; 0; 0]] [[0; 0; 0; 1]; [0; 0; 0; 1]])
            ([0] :: [[4]; [8]]) [construction slider])
         [[4]; [8]].
Proof.
  destruct slider_solver_run as [st' E]. exists st'. split; [exact E|].
  exact (inverse_kinematics_jac_returns_best_seen
           (fixed_solve [0; 0; 0; 40; 0; 0]) [] slider "arm" 0.1 0.001 0.1 0.04
           [[3; 0; 0]; [9; 0; 0]] [[0; 0; 0; 1]; [0; 0; 0; 1]] [0] 2
           [construction slider] st' [[4]; [8]] E).
Defined.

Ltac slider_iterate Hst :=
  match goal with
  | |- context [pose_delta slider "arm" [?g; _; _; _; _; _] [?q] ?st] =>
      let d := fresh "d" in
      let E := fresh "E" in
      let Hn := fresh "Hn" in
      destruct (slider_pose_delta g q st Hst) as (d & ? & E & Hn & ?Hst);
      rewrite E; clear E; cbv zeta; rewrite !Hn; decide_abs
  end.

(** On that run the solver evaluates three configurations for each target,
    and the one of least error is the second, not the last. *)
Lemma slider_solver_iterates :
  rows_iterates (fixed_solve [0; 0; 0; 40; 0; 0]) slider "arm"
    0.1 0.001 0.1 0.04 2
    (combine [[3; 0; 0]; [9; 0; 0]] [[0; 0; 0; 1]; [0; 0; 0; 1]])
    ([0] :: [[4]; [8]]) [construction slider]
  = [[([0], 3); ([4], 1); ([8], 5)]; [([4], 5); ([8], 1); ([12], 3)]].
Proof.
  cbn [combine rows_iterates].
  rewrite euler_identity. cbn [app].
  assert (Hst : exists b0 b1, [construction slider] = [[b0; b1]]
                              /\ pose b0 = transform_id)
    by (do 2 eexists; split; reflexivity).
  cbn [iterates]. slider_iterate Hst.
  slider_update Hst0. slider_iterate Hst1.
  slider_update Hst2. slider_iterate Hst3.
  cbn [app iterates].
  slider_iterate Hst4.
  slider_update Hst5. slider_iterate Hst6.
  slider_update Hst7. slider_iterate Hst8.
  replace (0 + 0.1 * 40) with 4 by lra.
  replace (4 + 0.1 * 40) with 8 by lra.
  replace (8 + 0.1 * 40) with 12 by lra.
  replace (Rabs (3 - 0)) with 3 by (unfold Rabs; destruct Rcase_abs; lra).
  replace (Rabs (3 - 4)) with 1 by (unfold Rabs; destruct Rcase_abs; lra).
  replace (Rabs (3 - 8)) with 5 by (unfold Rabs; destruct Rcase_abs; lra).
  replace (Rabs (9 - 4)) with 5 by (unfold Rabs; destruct Rcase_abs; lra).
  replace (Rabs (9 - 8)) with 1 by (unfold Rabs; destruct Rcase_abs; lra).
  replace (Rabs (9 - 12)) with 3 by (unfold Rabs; destruct Rcase_abs; lra).
  reflexivity.
Qed.

(** * Further properties of the code *)

(** ** Rotation matrices and coordinate transforms *)

Ltac mat_crush :=
  repeat match goal with
         | A : mat3 |- _ => destruct A
         | v : vec3 |- _ => destruct v
         | t : CoordinateTransform |- _ => destruct t
         | s : SpatialMotionVec |- _ => destruct s
         | f : SpatialForceVec |- _ => destruct f
         | I : Inertia |- _ => destruct I
         end;
  cbv [mat_mul mat_vec mat_transpose mat_eye mat_add mat_scale mat_neg
       vadd vsub vneg vscale vdot vzero cross_product
       vector3_to_skew_symm_matrix det3
       multiply_transform inverse trans_cross_rot transform_id
       rotation translation
       m00 m01 m02 m10 m11 m12 m20 m21 m22 vx vy vz
       motion_transform force_transform add_motion_vec add_force_vec
       cross_motion_vec cross_force_vec motion_zero force_zero
       motion_dot_force force_dot_motion motion_multiply force_multiply
       lin ang flin fang
       multiply_motion_vec rot_inertia mass com inertia_mat] in *.

(** Two values of the same shape are equal when their real entries are
    equal as polynomials. *)
Ltac struct_ring :=
  lazymatch goal with
  | |- @eq R _ _ => ring
  | |- _ => first [ reflexivity | progress f_equal; struct_ring ]
  end.

Lemma mat_mul_assoc (A B C : mat3) :
  mat_mul (mat_mul A B) C = mat_mul A (mat_mul B C).
Proof. mat_crush. f_equal; ring. Qed.

Lemma mat_vec_mul (A B : mat3) (v : vec3) :
  mat_vec (mat_mul A B) v = mat_vec A (mat_vec B v).
Proof. mat_crush. f_equal; ring. Qed.

Lemma mat_transpose_mul (A B : mat3) :
  mat_transpose (mat_mul A B) = mat_mul (mat_transpose B) (mat_transpose A).
Proof. mat_crush. f_equal; ring. Qed.

Lemma det3_mul (A B : mat3) : det3 (mat_mul A B) = det3 A * det3 B.
Proof. mat_crush. ring. Qed.

Lemma det3_transpose (A : mat3) : det3 (mat_transpose A) = det3 A.
Proof. mat_crush. ring. Qed.

Lemma mat_mul_eye_l (A : mat3) : mat_mul mat_eye A = A.
Proof. mat_crush. f_equal; ring. Qed.

Lemma mat_mul_eye_r (A : mat3) : mat_mul A mat_eye = A.
Proof. mat_crush. f_equal; ring. Qed.

Lemma is_rotation_eye : is_rotation mat_eye.
Proof. unfold is_rotation. repeat split; mat_crush; try f_equal; ring. Qed.

Lemma is_rotation_mul (A B : mat3) :
  is_rotation A -> is_rotation B -> is_rotation (mat_mul A B).
Proof.
  intros (HA1 & HA2 & HA3) (HB1 & HB2 & HB3). unfold is_rotation.
  rewrite mat_transpose_mul, det3_mul, HA3, HB3. repeat split.
  - rewrite mat_mul_assoc, <- (mat_mul_assoc B), HB1, mat_mul_eye_l. exact HA1.
  - rewrite mat_mul_assoc, <- (mat_mul_assoc (mat_transpose A)), HA2, mat_mul_eye_l.
    exact HB2.
  - ring.
Qed.

Lemma is_rotation_transpose (A : mat3) :
  is_rotation A -> is_rotation (mat_transpose A).
Proof.
  intros (H1 & H2 & H3). unfold is_rotation. rewrite det3_transpose.
  replace (mat_transpose (mat_transpose A)) with A by (now destruct A).
  tauto.
Qed.

Lemma sin_cos_square (a : R) : sin a * sin a + cos a * cos a = 1.
Proof. pose proof (sin2_cos2 a) as H. unfold Rsqr in H. exact H. Qed.

Lemma is_rotation_x_rot (a : R) : is_rotation (x_rot a).
Proof.
  pose proof (sin_cos_square a). unfold is_rotation, x_rot.
  repeat split; mat_crush; try f_equal; nra.
Qed.

Lemma is_rotation_y_rot (a : R) : is_rotation (y_rot a).
Proof.
  pose proof (sin_cos_square a). unfold is_rotation, y_rot.
  repeat split; mat_crush; try f_equal; nra.
Qed.

Lemma is_rotation_z_rot (a : R) : is_rotation (z_rot a).
Proof.
  pose proof (sin_cos_square a). unfold is_rotation, z_rot.
  repeat split; mat_crush; try f_equal; nra.
Qed.

(** [x_rot], [y_rot] and [z_rot] build proper rotations (orthogonal, of
    determinant one) for every angle, and so does any product of them, such
    as a roll-pitch-yaw rotation followed by a joint rotation. *)
Theorem axis_rotations_are_rotations (roll pitch yaw q : R) :
  is_rotation (x_rot q) /\ is_rotation (y_rot q) /\ is_rotation (z_rot q)
  /\ is_rotation (mat_mul (mat_mul (mat_mul (z_rot yaw) (y_rot pitch))
                                   (x_rot roll)) (z_rot q)).
Proof.
  pose proof (is_rotation_x_rot q) as Hx.
  pose proof (is_rotation_y_rot q) as Hy.
  pose proof (is_rotation_z_rot q) as Hz.
  split; [exact Hx|]. split; [exact Hy|]. split; [exact Hz|].
  repeat apply is_rotation_mul;
    auto using is_rotation_x_rot, is_rotation_y_rot, is_rotation_z_rot.
Qed.

(** Rotations about one axis compose by adding their angles, and the
    rotation by zero is the identity. *)
Theorem z_rot_composes (a b : R) :
  mat_mul (z_rot a) (z_rot b) = z_rot (a + b)
  /\ mat_mul (x_rot a) (x_rot b) = x_rot (a + b)
  /\ mat_mul (y_rot a) (y_rot b) = y_rot (a + b)
  /\ z_rot 0 = mat_eye /\ x_rot 0 = mat_eye /\ y_rot 0 = mat_eye.
Proof.
  unfold z_rot, x_rot, y_rot, mat_eye.
  rewrite cos_plus, sin_plus, cos_0, sin_0.
  repeat split; mat_crush; f_equal; ring.
Qed.

Lemma cofactor_mul_transpose (A : mat3) :
  mat_mul (cofactor A) (mat_transpose A) = mat_scale (det3 A) mat_eye.
Proof. unfold cofactor. mat_crush. f_equal; ring. Qed.

Lemma rotation_cofactor (A : mat3) : is_rotation A -> cofactor A = A.
Proof.
  intros (H1 & H2 & H3).
  rewrite <- (mat_mul_eye_r (cofactor A)), <- H2, <- mat_mul_assoc.
  rewrite cofactor_mul_transpose, H3.
  destruct A. cbv [mat_scale mat_eye mat_mul m00 m01 m02 m10 m11 m12 m20 m21 m22].
  f_equal; ring.
Qed.

Lemma cross_product_cofactor (A : mat3) (a b : vec3) :
  cross_product (mat_vec A a) (mat_vec A b)
  = mat_vec (cofactor A) (cross_product a b).
Proof. unfold cofactor. mat_crush. f_equal; ring. Qed.

(** A rotation carries cross products to cross products. *)
Lemma rotation_cross_product (A : mat3) (a b : vec3) :
  is_rotation A ->
  cross_product (mat_vec A a) (mat_vec A b) = mat_vec A (cross_product a b).
Proof.
  intros H. rewrite cross_product_cofactor, (rotation_cofactor A H). reflexivity.
Qed.

Lemma mat_vec_eye (v : vec3) : mat_vec mat_eye v = v.
Proof. mat_crush. f_equal; ring. Qed.

Lemma skew_mat_vec (p v : vec3) :
  mat_vec (vector3_to_skew_symm_matrix p) v = cross_product p v.
Proof. mat_crush. f_equal; ring. Qed.

Lemma cross_product_vneg_l (a b : vec3) :
  cross_product (vneg a) b = vneg (cross_product a b).
Proof. mat_crush. f_equal; ring. Qed.

(** Composition of transforms is associative and has [CoordinateTransform()]
    as its unit. *)
Theorem multiply_transform_assoc (a b c : CoordinateTransform) :
  multiply_transform (multiply_transform a b) c
  = multiply_transform a (multiply_transform b c)
  /\ multiply_transform transform_id a = a
  /\ multiply_transform a transform_id = a.
Proof. repeat split; mat_crush; struct_ring. Qed.

(** [inverse] gives a two-sided inverse of a transform whose rotation part is
    a rotation, and inverting twice gives the transform back. *)
Theorem transform_inverse_round_trip (t : CoordinateTransform) :
  is_rotation (rotation t) ->
  multiply_transform t (inverse t) = transform_id
  /\ multiply_transform (inverse t) t = transform_id
  /\ inverse (inverse t) = t.
Proof.
  destruct t as [A p]. cbn [rotation]. intros (H1 & H2 & _).
  unfold multiply_transform, inverse, transform_id. cbn [rotation translation].
  replace (mat_transpose (mat_transpose A)) with A by (now destruct A).
  rewrite H1, H2.
  assert (E1 : mat_vec A (mat_vec (mat_transpose A) p) = p)
    by (rewrite <- mat_vec_mul, H1; apply mat_vec_eye).
  assert (E2 : mat_vec (mat_transpose A) (mat_vec A p) = p)
    by (rewrite <- mat_vec_mul, H2; apply mat_vec_eye).
  assert (N : forall B v, mat_vec B (vneg v) = vneg (mat_vec B v))
    by (intros; mat_crush; f_equal; ring).
  rewrite !N, E1.
  repeat split; f_equal.
  - destruct p. cbv [vadd vneg vzero vx vy vz]. f_equal; ring.
  - destruct (mat_vec (mat_transpose A) p).
    cbv [vadd vneg vzero vx vy vz]. f_equal; ring.
  - destruct p. cbv [vneg vx vy vz]. f_equal; ring.
Qed.

Lemma transform_inverse_round_trip_witness :
  is_rotation (rotation (mkTransform (z_rot 1) (V3 1 2 3)))
  /\ multiply_transform (mkTransform (z_rot 1) (V3 1 2 3))
       (inverse (mkTransform (z_rot 1) (V3 1 2 3)))
     = transform_id.
Proof.
  split; [apply is_rotation_z_rot|].
  exact (proj1 (transform_inverse_round_trip (mkTransform (z_rot 1) (V3 1 2 3))
                  (is_rotation_z_rot 1))).
Defined.

(** ** Spatial motion and force vectors *)

(** Transforming a motion vector by the inverse of [t]: undo the shift, then
    rotate back. *)
Lemma motion_transform_inverse (m : SpatialMotionVec) (t : CoordinateTransform) :
  is_rotation (rotation t) ->
  motion_transform m (inverse t)
  = mkMotion
      (mat_vec (mat_transpose (rotation t))
               (vsub (lin m) (cross_product (translation t) (ang m))))
      (mat_vec (mat_transpose (rotation t)) (ang m)).
Proof.
  intros H. apply is_rotation_transpose in H.
  destruct t as [A p], m as [v w].
  unfold motion_transform, inverse, trans_cross_rot.
  cbn [rotation translation lin ang] in *.
  rewrite mat_vec_mul, skew_mat_vec, cross_product_vneg_l.
  rewrite (rotation_cross_product _ _ _ H).
  f_equal. mat_crush. struct_ring.
Qed.

(** Transforming a motion vector by [t] and then by [inverse t] gives the
    vector back. *)
Theorem motion_transform_round_trip
  (m : SpatialMotionVec) (t : CoordinateTransform) :
  is_rotation (rotation t) ->
  motion_transform (motion_transform m t) (inverse t) = m.
Proof.
  intros H. rewrite (motion_transform_inverse _ _ H).
  destruct H as (_ & H2 & _). destruct t as [A p], m as [v w].
  unfold motion_transform, trans_cross_rot. cbn [rotation translation lin ang] in *.
  rewrite mat_vec_mul, skew_mat_vec.
  replace (vsub (vadd (cross_product p (mat_vec A w)) (mat_vec A v))
                (cross_product p (mat_vec A w)))
    with (mat_vec A v)
    by (destruct (cross_product p (mat_vec A w)), (mat_vec A v);
        cbv [vsub vadd vx vy vz]; f_equal; ring).
  rewrite <- !mat_vec_mul, H2, !mat_vec_eye. reflexivity.
Qed.

Lemma motion_transform_round_trip_witness :
  motion_transform
    (motion_transform (mkMotion (V3 1 2 3) (V3 4 5 6))
                      (mkTransform (z_rot 1) (V3 1 0 0)))
    (inverse (mkTransform (z_rot 1) (V3 1 0 0)))
  = mkMotion (V3 1 2 3) (V3 4 5 6).
Proof.
  exact (motion_transform_round_trip (mkMotion (V3 1 2 3) (V3 4 5 6))
           (mkTransform (z_rot 1) (V3 1 0 0)) (is_rotation_z_rot 1)).
Defined.

(** Force and motion transforms are dual: the power of a force carried to
    the parent frame against a motion there equals the power of the force
    against the motion carried to the child frame. *)
Theorem force_motion_transform_duality
  (f : SpatialForceVec) (m : SpatialMotionVec) (t : CoordinateTransform) :
  is_rotation (rotation t) ->
  force_dot_motion (force_transform f t) m
  = force_dot_motion f (motion_transform m (inverse t)).
Proof.
  intros H. rewrite (motion_transform_inverse _ _ H).
  mat_crush. ring.
Qed.

Lemma force_motion_transform_duality_witness :
  force_dot_motion
    (force_transform (mkForce (V3 1 2 3) (V3 0 1 0))
                     (mkTransform (z_rot 1) (V3 1 0 0)))
    (mkMotion (V3 1 1 1) (V3 0 0 1))
  = force_dot_motion (mkForce (V3 1 2 3) (V3 0 1 0))
      (motion_transform (mkMotion (V3 1 1 1) (V3 0 0 1))
                        (inverse (mkTransform (z_rot 1) (V3 1 0 0)))).
Proof.
  exact (force_motion_transform_duality (mkForce (V3 1 2 3) (V3 0 1 0))
           (mkMotion (V3 1 1 1) (V3 0 0 1))
           (mkTransform (z_rot 1) (V3 1 0 0)) (is_rotation_z_rot 1)).
Defined.

(** The cross products: a motion vector crossed with itself vanishes, the
    force [v x* f] does no work along [v], and [x*] is the negative adjoint
    of the motion cross product. *)
Theorem spatial_cross_products
  (v m : SpatialMotionVec) (f : SpatialForceVec) :
  cross_motion_vec v v = motion_zero
  /\ force_dot_motion (cross_force_vec v f) v = 0
  /\ force_dot_motion (cross_force_vec v f) m
     = - force_dot_motion f (cross_motion_vec v m).
Proof. repeat split; mat_crush; struct_ring. Qed.

(** ** Spatial inertia *)

Ltac list_ring := repeat (apply f_equal2; [ring|]); reflexivity.

(** The dense 6x6 matrix of [get_spatial_mat] and [multiply_motion_vec] are
    the same map from motion vectors to force vectors. *)
Theorem spatial_mat_agrees_with_multiply (I : Inertia) (v : SpatialMotionVec) :
  lmat_vec (get_spatial_mat I) (motion_get_vector v)
  = force_get_vector (multiply_motion_vec I v).
Proof.
  destruct I as [ms cm Ic], v as [l w], cm, Ic, l, w.
  cbv [lmat_vec get_spatial_mat motion_get_vector force_get_vector
       multiply_motion_vec rot_inertia vec3_list app map ldot lsum combine
       fold_right mass com inertia_mat lin ang flin fang
       mat_add mat_scale mat_mul mat_transpose mat_vec
       vector3_to_skew_symm_matrix cross_product vscale vsub vadd
       m00 m01 m02 m10 m11 m12 m20 m21 m22 vx vy vz].
  list_ring.
Qed.

(** The energy form of a rigid body: mass times the squared velocity of the
    centre of mass, plus the rotational part about the centre of mass. *)
Lemma inertia_energy (I : Inertia) (a : SpatialMotionVec) :
  motion_dot_force a (multiply_motion_vec I a)
  = mass I * vdot (vsub (lin a) (cross_product (com I) (ang a)))
                  (vsub (lin a) (cross_product (com I) (ang a)))
    + vdot (ang a) (mat_vec (inertia_mat I) (ang a)).
Proof. mat_crush. ring. Qed.

(** The spatial inertia is a symmetric bilinear form when the inertia tensor
    is symmetric, and positive semidefinite when moreover the mass is not
    negative and the inertia tensor is positive semidefinite. *)
Theorem spatial_inertia_symmetric_psd (I : Inertia) (a b : SpatialMotionVec) :
  symmetric3 (inertia_mat I) ->
  0 <= mass I ->
  psd3 (inertia_mat I) ->
  motion_dot_force a (multiply_motion_vec I b)
  = motion_dot_force b (multiply_motion_vec I a)
  /\ 0 <= motion_dot_force a (multiply_motion_vec I a).
Proof.
  intros Hs Hm Hp. split.
  - destruct I as [ms cm Ic], Ic. unfold symmetric3 in Hs.
    cbn [inertia_mat m01 m10 m02 m20 m12 m21] in Hs.
    destruct Hs as (-> & -> & ->). mat_crush. ring.
  - rewrite inertia_energy. apply Rplus_le_le_0_compat; [|apply Hp].
    apply Rmult_le_pos; [exact Hm|].
    destruct (vsub (lin a) (cross_product (com I) (ang a))) as [x y z].
    cbv [vdot vx vy vz]. nra.
Qed.

Lemma spatial_inertia_symmetric_psd_witness :
  0 <= motion_dot_force (mkMotion (V3 1 2 3) (V3 0 0 1))
         (multiply_motion_vec unit_inertia (mkMotion (V3 1 2 3) (V3 0 0 1))).
Proof.
  refine (proj2 (spatial_inertia_symmetric_psd unit_inertia
                   (mkMotion (V3 1 2 3) (V3 0 0 1))
                   (mkMotion (V3 1 2 3) (V3 0 0 1)) _ _ _)).
  - cbv [symmetric3 unit_inertia inertia_mat m01 m10 m02 m20 m12 m21]. tauto.
  - cbv [unit_inertia mass]. lra.
  - intros [x y z].
    cbv [unit_inertia inertia_mat vdot mat_vec m00 m01 m02 m10 m11 m12 m20 m21 m22
         vx vy vz]. nra.
Defined.

(** [to_matrix] is the motion transform into the child frame, written as a
    6x6 matrix, and its transpose is the force transform into the parent
    frame. *)
Theorem to_matrix_agrees_with_transforms
  (t : CoordinateTransform) (m : SpatialMotionVec) (f : SpatialForceVec) :
  is_rotation (rotation t) ->
  lmat_vec (to_matrix t) (motion_get_vector m)
  = motion_get_vector (motion_transform m (inverse t))
  /\ lmat_vec (lmat_transpose 6 (to_matrix t)) (force_get_vector f)
     = force_get_vector (force_transform f t).
Proof.
  intros H. rewrite (motion_transform_inverse _ _ H).
  destruct t as [A p], m as [l w], f as [fl fa], A, p, l, w, fl, fa.
  split;
    cbv [lmat_vec lmat_transpose to_matrix motion_get_vector force_get_vector
         force_transform trans_cross_rot mat3_rows seq nth
         vec3_list app map ldot lsum combine fold_right
         rotation translation lin ang flin fang
         mat_neg mat_scale mat_mul mat_transpose mat_vec
         vector3_to_skew_symm_matrix cross_product vscale vsub vadd
         m00 m01 m02 m10 m11 m12 m20 m21 m22 vx vy vz];
    list_ring.
Qed.

Lemma to_matrix_agrees_with_transforms_witness :
  lmat_vec (to_matrix (mkTransform (z_rot 1) (V3 1 0 0)))
           (motion_get_vector (mkMotion (V3 1 2 3) (V3 0 0 1)))
  = motion_get_vector
      (motion_transform (mkMotion (V3 1 2 3) (V3 0 0 1))
                        (inverse (mkTransform (z_rot 1) (V3 1 0 0)))).
Proof.
  exact (proj1 (to_matrix_agrees_with_transforms
                  (mkTransform (z_rot 1) (V3 1 0 0))
                  (mkMotion (V3 1 2 3) (V3 0 0 1)) force_zero
                  (is_rotation_z_rot 1))).
Defined.

(** ** The link table: names and controlled joints *)

Lemma find_last_spec (name : string) (links : robot) (i : nat) :
  match find_last name i links with
  | Some j =>
      (i <= j < i + length links)%nat
      /\ link_name (nth (j - i) links default_params) = name
      /\ forall k, (j - i < k < length links)%nat ->
                   link_name (nth k links default_params) <> name
  | None => forall p, In p links -> link_name p <> name
  end.
Proof.
  revert i. induction links as [|p rest IH]; intros i; simpl.
  - intros p [].
  - specialize (IH (S i)). destruct (find_last name (S i) rest) as [j|].
    + destruct IH as (Hb & Hn & Hl). split; [lia|].
      replace (j - i)%nat with (S (j - S i)) by lia. split; [exact Hn|].
      intros [|k] Hk; [lia|]. apply Hl. lia.
    + destruct (String.eqb (link_name p) name) eqn:E.
      * apply String.eqb_eq in E. rewrite Nat.sub_diag. split; [lia|].
        split; [exact E|].
        intros [|k] Hk; [lia|]. simpl. apply IH, nth_In. lia.
      * apply String.eqb_neq in E. intros p' [<-|Hin]; [exact E|now apply IH].
Qed.

(** X11: [_name_to_idx_map[name]] is the index of the last link of that name
    (the only one when names are distinct), and it raises a [KeyError]
    exactly when no link has the name. *)
Theorem name_to_idx_map_spec (m : robot) (name : string) :
  match name_to_idx_map m name with
  | Ok j =>
      (j < length m)%nat
      /\ link_name (nth j m default_params) = name
      /\ forall k, (j < k < length m)%nat ->
                   link_name (nth k m default_params) <> name
  | Raise e => e = KeyError /\ forall p, In p m -> link_name p <> name
  end.
Proof.
  unfold name_to_idx_map. pose proof (find_last_spec name m 0) as H.
  destruct (find_last name 0 m) as [j|].
  - rewrite Nat.sub_0_r in H. destruct H as (Hb & Hn & Hl).
    split; [lia|]. split; [exact Hn|]. intros k Hk. apply Hl. lia.
  - split; [reflexivity|exact H].
Qed.

(** With distinct link names, looking up the name of link [j] gives [j]. *)
Lemma name_to_idx_map_own_name (m : robot) (j : nat) :
  NoDup (map link_name m) -> (j < length m)%nat ->
  name_to_idx_map m (link_name (nth j m default_params)) = Ok j.
Proof.
  intros Hnd Hj. unfold name_to_idx_map.
  pose proof (find_last_spec (link_name (nth j m default_params)) m 0) as H.
  destruct (find_last (link_name (nth j m default_params)) 0 m) as [k|].
  - rewrite Nat.sub_0_r in H. destruct H as (Hk & Hn & _). f_equal.
    rewrite (NoDup_nth _ (link_name default_params)) in Hnd.
    apply (Hnd k j); rewrite ?length_map; try lia.
    rewrite !map_nth. exact Hn.
  - exfalso. apply (H (nth j m default_params)); [|reflexivity].
    apply nth_In. exact Hj.
Qed.

Lemma controlled_from_spec (links : robot) (i idx : nat) :
  In idx (controlled_from i links)
  <-> (i <= idx < i + length links)%nat
      /\ is_fixed (nth (idx - i) links default_params) = false.
Proof.
  revert i. induction links as [|p rest IH]; intros i; simpl.
  - split; [tauto|]. intros [H _]. lia.
  - destruct (is_fixed p) eqn:E; simpl; rewrite ?IH; split.
    + intros [Hb Hf]. split; [lia|].
      replace (idx - i)%nat with (S (idx - S i)) by lia. exact Hf.
    + intros [Hb Hf]. destruct (idx - i)%nat as [|k] eqn:Ek; [congruence|].
      split; [lia|]. replace (idx - S i)%nat with k by lia. exact Hf.
    + intros [<-|[Hb Hf]].
      * rewrite Nat.sub_diag. split; [lia|exact E].
      * split; [lia|]. replace (idx - i)%nat with (S (idx - S i)) by lia. exact Hf.
    + intros [Hb Hf]. destruct (idx - i)%nat as [|k] eqn:Ek.
      * left. lia.
      * right. split; [lia|]. replace (idx - S i)%nat with k by lia. exact Hf.
Qed.

Lemma controlled_from_sorted (links : robot) (i : nat) :
  StronglySorted lt (controlled_from i links).
Proof.
  revert i. induction links as [|p rest IH]; intros i; simpl; [constructor|].
  destruct (is_fixed p); [apply IH|].
  constructor; [apply IH|]. apply Forall_forall. intros x Hx.
  apply controlled_from_bounds in Hx. lia.
Qed.

Lemma list_index_sorted (l : list nat) (k : nat) :
  StronglySorted lt l -> (k < length l)%nat -> list_index (nth k l 0%nat) l = Ok k.
Proof.
  intros Hs. revert k. induction Hs as [|x l Hs IH Hx]; intros k Hk; simpl in *; [lia|].
  destruct k as [|k].
  - now rewrite Nat.eqb_refl.
  - assert (Hin : In (nth k l 0%nat) l) by (apply nth_In; lia).
    rewrite Forall_forall in Hx. apply Hx in Hin.
    destruct (Nat.eqb x (nth k l 0%nat)) eqn:E; [apply Nat.eqb_eq in E; lia|].
    rewrite IH by lia. reflexivity.
Qed.

(** X12: [_controlled_joints] lists, in increasing order, exactly the links
    whose joint is not fixed, and the position of a link in that list (its
    [joint_idx], found again by [list.index]) is the column of its joint. *)
Theorem controlled_joints_spec (m : robot) (i k : nat) :
  (In i (controlled_joints m)
   <-> (i < length m)%nat /\ is_fixed (nth i m default_params) = false)
  /\ StronglySorted lt (controlled_joints m)
  /\ ((k < n_dofs m)%nat ->
      list_index (nth k (controlled_joints m) 0%nat) (controlled_joints m) = Ok k
      /\ joint_idx m (nth k (controlled_joints m) 0%nat) = Some k).
Proof.
  split; [|split].
  - unfold controlled_joints. rewrite controlled_from_spec, Nat.sub_0_r.
    split; intros [H1 H2]; (split; [lia|exact H2]).
  - apply controlled_from_sorted.
  - intros Hk.
    assert (H : list_index (nth k (controlled_joints m) 0%nat) (controlled_joints m)
                = Ok k)
      by (apply list_index_sorted; [apply controlled_from_sorted|exact Hk]).
    split; [exact H|]. unfold joint_idx. now rewrite H.
Qed.
(** ** Loops over the links *)

Lemma length_set_nth {A} (l : list A) (i : nat) (v : A) :
  length (set_nth l i v) = length l.
Proof.
  revert i. induction l as [|x l IH]; intros [|i]; simpl; auto.
Qed.

Lemma nth_set_nth {A} (l : list A) (i j : nat) (v d : A) :
  (i < length l)%nat ->
  nth j (set_nth l i v) d = if Nat.eqb j i then v else nth j l d.
Proof.
  revert i j. induction l as [|x l IH]; intros [|i] [|j] H; simpl in *;
    try lia; try reflexivity.
  apply IH. lia.
Qed.

Lemma link_set_nth (s : row_state) (i j : nat) (b : body_state) :
  (i < length s)%nat ->
  link (set_nth s i b) j = if Nat.eqb j i then b else link s j.
Proof. apply nth_set_nth. Qed.

Lemma for_each_range (I : nat -> row_state -> Prop) (body : nat -> M unit)
  (lo hi : nat) :
  (lo <= hi)%nat ->
  (forall i s, (lo <= i < hi)%nat -> I i s ->
               exists s', body i s = (Ok tt, s') /\ I (S i) s') ->
  forall s, I lo s ->
            exists s', for_each (range lo hi) body s = (Ok tt, s') /\ I hi s'.
Proof.
  unfold range. intros Hle. remember (hi - lo)%nat as n eqn:Hn.
  revert lo Hle Hn. induction n as [|n IH]; intros lo Hle Hn Hstep s Hs.
  - exists s. replace hi with lo by lia. split; [reflexivity|exact Hs].
  - destruct (Hstep lo s) as (s1 & Hb & H1); [lia|exact Hs|].
    destruct (IH (S lo)) with (s := s1) as (s2 & Hf & H2); try lia; try exact H1.
    { intros i s0 Hi. apply Hstep. lia. }
    exists s2. split; [|exact H2].
    simpl. unfold mbind at 1. rewrite Hb. exact Hf.
Qed.

Lemma for_each_range_down (I : nat -> row_state -> Prop) (body : nat -> M unit)
  (lo hi : nat) :
  (lo <= hi)%nat ->
  (forall i s, (lo <= i < hi)%nat -> I (S i) s ->
               exists s', body i s = (Ok tt, s') /\ I i s') ->
  forall s, I hi s ->
            exists s', for_each (range_down hi lo) body s = (Ok tt, s') /\ I lo s'.
Proof.
  unfold range_down, range. intros Hle. remember (hi - lo)%nat as n eqn:Hn.
  revert hi Hle Hn. induction n as [|n IH]; intros hi Hle Hn Hstep s Hs.
  - exists s. replace lo with hi by lia. split; [reflexivity|exact Hs].
  - rewrite seq_S, rev_app_distr. simpl.
    replace (lo + n)%nat with (hi - 1)%nat by lia.
    destruct (Hstep (hi - 1)%nat s) as (s1 & Hb & H1);
      [lia|replace (S (hi - 1)) with hi by lia; exact Hs|].
    destruct (IH (hi - 1)%nat) with (s := s1) as (s2 & Hf & H2); try lia; try exact H1.
    { intros i s0 Hi. apply Hstep. lia. }
    exists s2. split; [|exact H2].
    unfold mbind at 1. rewrite Hb. exact Hf.
Qed.

Lemma mbind_lift {A B} (r : res A) (k : A -> M B) (s : row_state) (a : A) :
  r = Ok a -> mbind (lift r) k s = k a s.
Proof. intros ->. reflexivity. Qed.

Lemma mbind_get {B} (i : nat) (k : body_state -> M B) (s : row_state) :
  (i < length s)%nat -> mbind (get_body i) k s = k (link s i) s.
Proof.
  intros H. unfold mbind, get_body. rewrite (py_nth_ok s i default_body H).
  reflexivity.
Qed.

Lemma mbind_put {B} (i : nat) (b : body_state) (k : unit -> M B) (s : row_state) :
  mbind (put_body i b) k s = k tt (set_nth s i b).
Proof. reflexivity. Qed.

(** ** The link table, continued *)

Lemma list_index_inv (x : nat) (l : list nat) (k : nat) :
  list_index x l = Ok k -> (k < length l)%nat /\ nth k l 0%nat = x.
Proof.
  revert k. induction l as [|y l IH]; intros k; simpl; [discriminate|].
  destruct (Nat.eqb y x) eqn:E.
  - intros [= <-]. apply Nat.eqb_eq in E. split; [lia|exact E].
  - destruct (list_index x l) as [k'|]; simpl; [|discriminate].
    intros [= <-]. destruct (IH k' eq_refl). split; [lia|assumption].
Qed.

Lemma joint_idx_inv (m : robot) (i k : nat) :
  joint_idx m i = Some k -> (k < n_dofs m)%nat /\ controlled_link m k = i.
Proof.
  unfold joint_idx. destruct (list_index i (controlled_joints m)) eqn:E; [|discriminate].
  intros [= <-]. apply list_index_inv in E. exact E.
Qed.

Lemma joint_idx_controlled (m : robot) (k : nat) :
  (k < n_dofs m)%nat -> joint_idx m (controlled_link m k) = Some k.
Proof.
  intros H. unfold joint_idx, controlled_link.
  rewrite list_index_sorted; [reflexivity|apply controlled_from_sorted|exact H].
Qed.

Lemma controlled_link_lt (m : robot) (k : nat) :
  (k < n_dofs m)%nat -> (controlled_link m k < length m)%nat.
Proof.
  intros H. assert (Hin : In (controlled_link m k) (controlled_joints m))
    by (apply nth_In; exact H).
  apply controlled_from_bounds in Hin. simpl in Hin. lia.
Qed.

Lemma tree_order_parent (m : robot) (i : nat) :
  tree_order m = true -> (1 <= i < length m)%nat ->
  exists j, parent_idx m i = Ok j /\ (j < i)%nat.
Proof.
  unfold tree_order. rewrite forallb_forall. intros H Hi.
  specialize (H i). destruct (parent_idx m i) as [j|].
  - exists j. split; [reflexivity|]. apply Nat.ltb_lt, H.
    apply in_seq. lia.
  - discriminate H. apply in_seq. lia.
Qed.

Lemma parent_idx_inv (m : robot) (i j : nat) :
  parent_idx m i = Ok j ->
  py_nth m i = Ok (nth i m default_params)
  /\ name_to_idx_map m (parent_name (nth i m default_params)) = Ok j.
Proof.
  unfold parent_idx. destruct (py_nth m i) as [p|] eqn:E; [|discriminate].
  apply (py_nth_inv _ _ _ default_params) in E. destruct E as [<- Hi].
  simpl. intros H. split; [reflexivity|exact H].
Qed.
(** ** update_kinematic_state *)

Lemma joint_stage_fixed (m : robot) (first : nat) (s : row_state) :
  (first <= length m)%nat -> length s = length m ->
  exists s1,
    for_each (range 0 first) (fun i =>
      p <- lift (py_nth m i) ;;
      b <- get_body i ;;
      put_body i (update_joint_state p 0 0 b)) s = (Ok tt, s1)
    /\ length s1 = length m
    /\ forall i, link s1 i
                 = if Nat.ltb i first
                   then update_joint_state (nth i m default_params) 0 0 (link s i)
                   else link s i.
Proof.
  intros Hf Hl.
  apply (for_each_range
           (fun k s1 => length s1 = length m
                        /\ forall i, link s1 i
                             = if Nat.ltb i k
                               then update_joint_state (nth i m default_params) 0 0
                                                       (link s i)
                               else link s i)); [lia| |].
  - intros k s1 Hk [Hl1 Hs1].
    rewrite (mbind_lift _ _ _ _ (py_nth_ok m k default_params ltac:(lia))).
    rewrite mbind_get by lia.
    eexists. split; [reflexivity|]. split; [now rewrite length_set_nth|].
    intros i. rewrite link_set_nth by lia.
    destruct (Nat.eqb_spec i k) as [->|Hne].
    + rewrite Hs1, Nat.ltb_irrefl.
      replace (Nat.ltb k (S k)) with true by (symmetry; apply Nat.ltb_lt; lia).
      reflexivity.
    + rewrite Hs1. destruct (Nat.ltb_spec i k), (Nat.ltb_spec i (S k));
        try reflexivity; lia.
  - split; [exact Hl|]. intros i. reflexivity.
Qed.

Lemma joint_stage_controlled (m : robot) (q qd : list R) (s : row_state) :
  length q = n_dofs m -> length qd = n_dofs m -> length s = length m ->
  exists s2,
    for_each (range 0 (length q)) (fun i =>
      idx <- lift (py_nth (controlled_joints m) i) ;;
      p <- lift (py_nth m idx) ;;
      qi <- lift (py_nth q i) ;;
      qdi <- lift (py_nth qd i) ;;
      b <- get_body idx ;;
      put_body idx (update_joint_state p qi qdi b)) s = (Ok tt, s2)
    /\ length s2 = length m
    /\ forall i, link s2 i
                 = match joint_idx m i with
                   | Some j => update_joint_state (nth i m default_params)
                                 (nth j q 0) (nth j qd 0) (link s i)
                   | None => link s i
                   end.
Proof.
  intros Hq Hqd Hl.
  destruct (for_each_range
           (fun k s2 => length s2 = length m
                        /\ forall i, link s2 i
                             = match joint_idx m i with
                               | Some j =>
                                   if Nat.ltb j k
                                   then update_joint_state (nth i m default_params)
                                          (nth j q 0) (nth j qd 0) (link s i)
                                   else link s i
                               | None => link s i
                               end)
           (fun i =>
      idx <- lift (py_nth (controlled_joints m) i) ;;
      p <- lift (py_nth m idx) ;;
      qi <- lift (py_nth q i) ;;
      qdi <- lift (py_nth qd i) ;;
      b <- get_body idx ;;
      put_body idx (update_joint_state p qi qdi b)) 0%nat (length q)) with (s := s)
    as (s2 & Hrun & Hl2 & Hs2); [lia| | |].
  - intros k s2 Hk [Hl2 Hs2].
    pose proof (controlled_link_lt m k ltac:(lia)) as Hidx.
    rewrite (mbind_lift _ _ _ _ (py_nth_ok (controlled_joints m) k 0%nat ltac:(unfold n_dofs in *; lia))).
    fold (controlled_link m k).
    rewrite (mbind_lift _ _ _ _ (py_nth_ok m _ default_params Hidx)).
    rewrite (mbind_lift _ _ _ _ (py_nth_ok q k 0 ltac:(lia))).
    rewrite (mbind_lift _ _ _ _ (py_nth_ok qd k 0 ltac:(lia))).
    rewrite mbind_get by lia.
    eexists. split; [reflexivity|]. split; [now rewrite length_set_nth|].
    intros i. rewrite link_set_nth by lia.
    destruct (Nat.eqb_spec i (controlled_link m k)) as [->|Hne].
    + rewrite Hs2, joint_idx_controlled by lia.
      rewrite Nat.ltb_irrefl.
      replace (Nat.ltb k (S k)) with true by (symmetry; apply Nat.ltb_lt; lia).
      reflexivity.
    + rewrite Hs2. destruct (joint_idx m i) as [j|] eqn:Ej; [|reflexivity].
      apply joint_idx_inv in Ej. destruct Ej as [Hj Hcl].
      assert (j <> k) by congruence.
      destruct (Nat.ltb_spec j k), (Nat.ltb_spec j (S k)); try reflexivity; lia.
  - split; [exact Hl|]. intros i. destruct (joint_idx m i); reflexivity.
  - exists s2. split; [exact Hrun|]. split; [exact Hl2|].
    intros i. rewrite Hs2. destruct (joint_idx m i) as [j|] eqn:Ej; [|reflexivity].
    apply joint_idx_inv in Ej. destruct Ej as [Hj _].
    replace (Nat.ltb j (length q)) with true by (symmetry; apply Nat.ltb_lt; lia).
    reflexivity.
Qed.

Lemma sweep_stage (m : robot) (s : row_state) :
  tree_order m = true -> length s = length m ->
  exists s4,
    for_each (range 1 (length m)) (fun i =>
      p <- lift (py_nth m i) ;;
      body <- get_body i ;;
      pidx <- lift (name_to_idx_map m (parent_name p)) ;;
      parent_body <- get_body pidx ;;
      let childToParentT := joint_pose body in
      let parentToChildT := inverse childToParentT in
      let pose' := multiply_transform (pose parent_body) childToParentT in
      let new_vel := motion_transform (vel parent_body) parentToChildT in
      put_body i (set_vel (set_pose body pose')
                          (add_motion_vec (joint_vel body) new_vel))) s
    = (Ok tt, s4)
    /\ length s4 = length m
    /\ link s4 0 = link s 0
    /\ (forall i, exists x v, link s4 i = set_vel (set_pose (link s i) x) v)
    /\ forall i, (1 <= i < length m)%nat ->
        exists j, parent_idx m i = Ok j /\ (j < i)%nat
          /\ pose (link s4 i)
             = multiply_transform (pose (link s4 j)) (joint_pose (link s4 i))
          /\ vel (link s4 i)
             = add_motion_vec (joint_vel (link s4 i))
                 (motion_transform (vel (link s4 j))
                                   (inverse (joint_pose (link s4 i)))).
Proof.
  intros Ht Hl.
  destruct (Nat.eq_dec (length m) 0) as [H0|H0].
  { exists s. rewrite H0. split; [reflexivity|]. split; [congruence|].
    split; [reflexivity|]. split; [|intros i Hi; lia].
    intros i. exists (pose (link s i)), (vel (link s i)).
    destruct (link s i); reflexivity. }
  destruct (for_each_range
    (fun k s4 =>
       length s4 = length m
       /\ link s4 0 = link s 0
       /\ (forall i, exists x v, link s4 i = set_vel (set_pose (link s i) x) v)
       /\ (forall i, (k <= i)%nat -> link s4 i = link s i)
       /\ forall i, (1 <= i < k)%nat ->
            exists j, parent_idx m i = Ok j /\ (j < i)%nat
              /\ pose (link s4 i)
                 = multiply_transform (pose (link s4 j)) (joint_pose (link s4 i))
              /\ vel (link s4 i)
                 = add_motion_vec (joint_vel (link s4 i))
                     (motion_transform (vel (link s4 j))
                                       (inverse (joint_pose (link s4 i)))))
    (fun i =>
      p <- lift (py_nth m i) ;;
      body <- get_body i ;;
      pidx <- lift (name_to_idx_map m (parent_name p)) ;;
      parent_body <- get_body pidx ;;
      let childToParentT := joint_pose body in
      let parentToChildT := inverse childToParentT in
      let pose' := multiply_transform (pose parent_body) childToParentT in
      let new_vel := motion_transform (vel parent_body) parentToChildT in
      put_body i (set_vel (set_pose body pose')
                          (add_motion_vec (joint_vel body) new_vel)))
    1%nat (length m)) with (s := s)
    as (s4 & Hrun & Hl4 & Hb & Hsh & _ & Hrel); [lia| | |].
  - intros k s4 Hk (Hl4 & Hb & Hsh & Hun & Hrel).
    destruct (tree_order_parent m k Ht Hk) as (j & Hpar & Hj).
    destruct (parent_idx_inv _ _ _ Hpar) as [Hp Hn].
    rewrite (mbind_lift _ _ _ _ Hp).
    rewrite mbind_get by lia.
    rewrite (mbind_lift _ _ _ _ Hn).
    rewrite mbind_get by lia.
    cbv zeta.
    eexists. split; [reflexivity|]. split; [now rewrite length_set_nth|].
    split; [|split; [|split]].
    + rewrite link_set_nth by lia.
      destruct (Nat.eqb_spec 0 k); [lia|exact Hb].
    + intros i. rewrite link_set_nth by lia.
      destruct (Nat.eqb_spec i k) as [->|Hne]; [|apply Hsh].
      rewrite (Hun k) by lia. eauto.
    + intros i Hi. rewrite link_set_nth by lia.
      destruct (Nat.eqb_spec i k); [lia|]. apply Hun. lia.
    + intros i Hi. destruct (Nat.eq_dec i k) as [->|Hne].
      * exists j. split; [exact Hpar|]. split; [exact Hj|].
        rewrite !link_set_nth by lia. rewrite Nat.eqb_refl.
        destruct (Nat.eqb_spec j k); [lia|]. split; reflexivity.
      * destruct (Hrel i) as (j' & Hpar' & Hj' & Hpose & Hvel); [lia|].
        exists j'. split; [exact Hpar'|]. split; [exact Hj'|].
        rewrite !link_set_nth by lia.
        destruct (Nat.eqb_spec i k); [lia|].
        destruct (Nat.eqb_spec j' k); [lia|]. split; assumption.
  - split; [exact Hl|]. split; [reflexivity|]. split; [|split].
    + intros i. exists (pose (link s i)), (vel (link s i)).
      destruct (link s i); reflexivity.
    + reflexivity.
    + intros i Hi. lia.
  - exists s4. repeat split; assumption.
Qed.

(** Where the links follow their parents and there is a movable joint,
    [update_kinematic_state] raises nothing and leaves every link posed on its
    parent. *)
Lemma update_kinematic_state_row_ok (m : robot) (q qd : list R) (s : row_state) :
  tree_order m = true -> (0 < n_dofs m)%nat ->
  length q = n_dofs m -> length qd = n_dofs m -> length s = length m ->
  exists s', update_kinematic_state_row m q qd s = (Ok tt, s')
             /\ kinematic_post m q qd s s'.
Proof.
  intros Ht Hn Hq Hqd Hl.
  pose proof (controlled_link_lt m 0 Hn) as Hfirst.
  unfold update_kinematic_state_row.
  rewrite (mbind_lift _ _ _ _ (py_nth_ok (controlled_joints m) 0 0%nat Hn)).
  fold (controlled_link m 0).
  destruct (joint_stage_fixed m (controlled_link m 0) s ltac:(lia) Hl)
    as (s1 & H1 & Hl1 & Hs1).
  unfold mbind at 1. rewrite H1.
  destruct (joint_stage_controlled m q qd s1 Hq Hqd Hl1) as (s2 & H2 & Hl2 & Hs2).
  unfold mbind at 1. rewrite H2.
  rewrite mbind_get by lia. rewrite mbind_put.
  set (s3 := set_nth s2 0 (set_vel (link s2 0) (mkMotion vzero vzero))).
  assert (Hl3 : length s3 = length m) by (unfold s3; now rewrite length_set_nth).
  destruct (sweep_stage m s3 Ht Hl3) as (s4 & H4 & Hl4 & Hb4 & Hsh4 & Hrel).
  exists s4. split; [exact H4|].
  assert (Hju : forall i, link s2 i = joint_update m q qd i (link s i)).
  { intros i. rewrite Hs2, Hs1. unfold joint_update.
    destruct (joint_idx m i); [|reflexivity].
    destruct (Nat.ltb i (controlled_link m 0)); reflexivity. }
  assert (H3 : forall i, link s3 i
                         = if Nat.eqb i 0
                           then set_vel (link s2 0) (mkMotion vzero vzero)
                           else link s2 i).
  { intros i. unfold s3. rewrite link_set_nth by lia. reflexivity. }
  split; [exact Hl4|]. split; [|split; [|split]].
  - intros i Hi. destruct (Hsh4 i) as (x & v & Hx).
    exists x, v. rewrite Hx, H3.
    destruct (Nat.eqb_spec i 0) as [->|]; rewrite Hju; reflexivity.
  - rewrite Hb4, H3, Hju. simpl. unfold joint_update.
    destruct (joint_idx m 0); [reflexivity|].
    destruct (Nat.ltb 0 (controlled_link m 0)); reflexivity.
  - rewrite Hb4, H3. reflexivity.
  - exact Hrel.
Qed.
(** ** Forward kinematics: the recursion against the sweep *)

Lemma children_spec (m : robot) (i ch : nat) :
  In ch (children m i)
  <-> (1 <= ch < length m)%nat /\ parent_idx m ch = Ok i.
Proof.
  unfold children, parent_idx. rewrite filter_In. unfold range. rewrite in_seq.
  destruct (py_nth m ch) as [p|]; simpl.
  - destruct (name_to_idx_map m (parent_name p)) as [k|].
    + split.
      * intros [H1 H2]. apply Nat.eqb_eq in H2. subst. split; [lia|reflexivity].
      * intros [H1 [= ->]]. split; [lia|apply Nat.eqb_refl].
    + split; [intros [_ H]; discriminate|intros [_ H]; discriminate].
  - split; [intros [_ H]; discriminate|intros [_ H]; discriminate].
Qed.

Lemma forward_kinematics_root_unfold (m : robot) (q_dict : list (string * R)) :
  (0 < length m)%nat ->
  forward_kinematics_root m q_dict
  = (link_name (nth 0 m default_params), transform_id)
    :: flat_map (fun ch => forward_kinematics_rec (length m) m q_dict ch transform_id)
                (children m 0).
Proof. destruct m; simpl; [lia|reflexivity]. Qed.

Section Recursion.
Variable m : robot.
Variable q_dict : list (string * R).
Variable P : nat -> CoordinateTransform.
Hypothesis Htree : tree_order m = true.
Hypothesis HP0 : P 0%nat = transform_id.
Hypothesis HP : forall i j, (1 <= i < length m)%nat -> parent_idx m i = Ok j ->
  P i = multiply_transform (P j)
          (joint_pose_of (nth i m default_params)
             match q_dict_get q_dict (link_name (nth i m default_params)) with
             | Some v => v
             | None => 0
             end).

Lemma forward_kinematics_rec_sound (fuel i j : nat) (e : string * CoordinateTransform) :
  (1 <= i < length m)%nat -> parent_idx m i = Ok j ->
  In e (forward_kinematics_rec fuel m q_dict i (P j)) ->
  exists k, (1 <= k < length m)%nat /\ e = (link_name (nth k m default_params), P k).
Proof.
  revert i j e. induction fuel as [|fuel IH]; intros i j e Hi Hpar; simpl; [tauto|].
  rewrite (nth_error_nth' m default_params) by lia.
  rewrite <- (HP i j Hi Hpar). intros [<-|Hin].
  - exists i. split; [exact Hi|reflexivity].
  - apply in_flat_map in Hin. destruct Hin as (ch & Hch & Hin).
    apply children_spec in Hch. destruct Hch as [Hch Hp].
    exact (IH ch i e Hch Hp Hin).
Qed.

Lemma forward_kinematics_rec_head (fuel i j : nat) :
  (1 <= i < length m)%nat -> parent_idx m i = Ok j -> (1 <= fuel)%nat ->
  In (link_name (nth i m default_params), P i)
     (forward_kinematics_rec fuel m q_dict i (P j)).
Proof.
  intros Hi Hpar Hf. destruct fuel as [|fuel]; [lia|]. simpl.
  rewrite (nth_error_nth' m default_params) by lia.
  rewrite <- (HP i j Hi Hpar). left. reflexivity.
Qed.

Lemma forward_kinematics_rec_child (fuel i j ch : nat) :
  (1 <= i < length m)%nat -> parent_idx m i = Ok j ->
  (1 <= ch < length m)%nat -> parent_idx m ch = Ok i ->
  incl (forward_kinematics_rec fuel m q_dict ch (P i))
       (forward_kinematics_rec (S fuel) m q_dict i (P j)).
Proof.
  intros Hi Hpar Hch Hp e He. simpl.
  rewrite (nth_error_nth' m default_params) by lia.
  rewrite <- (HP i j Hi Hpar). right.
  apply in_flat_map. exists ch. split; [|exact He].
  apply children_spec. split; assumption.
Qed.

Lemma forward_kinematics_root_cover (j : nat) :
  (1 <= j < length m)%nat ->
  exists f p, parent_idx m j = Ok p /\ (length m - j + 1 <= f)%nat
    /\ incl (forward_kinematics_rec f m q_dict j (P p))
            (forward_kinematics_root m q_dict).
Proof.
  induction j as [j IH] using lt_wf_ind. intros Hj.
  destruct (tree_order_parent m j Htree Hj) as (p & Hpar & Hp).
  destruct (Nat.eq_dec p 0) as [->|Hp0].
  - exists (length m), 0%nat. split; [exact Hpar|]. split; [lia|].
    intros e He. rewrite forward_kinematics_root_unfold by lia.
    right. apply in_flat_map. exists j. split.
    + apply children_spec. split; [exact Hj|exact Hpar].
    + rewrite <- HP0. exact He.
  - destruct (IH p Hp ltac:(lia)) as (f & pp & Hpp & Hf & Hincl).
    destruct f as [|f]; [lia|].
    exists f, p. split; [exact Hpar|]. split; [lia|].
    intros e He. apply Hincl.
    apply (forward_kinematics_rec_child f p pp j); try assumption; lia.
Qed.

(** Every link is in the dict of the recursion, under its name and with its
    pose, and nothing else is. *)
Lemma forward_kinematics_root_entries (e : string * CoordinateTransform) :
  (0 < length m)%nat ->
  In e (forward_kinematics_root m q_dict)
  <-> exists k, (k < length m)%nat /\ e = (link_name (nth k m default_params), P k).
Proof.
  intros Hn. split.
  - rewrite forward_kinematics_root_unfold by lia. intros [<-|Hin].
    + exists 0%nat. split; [lia|]. rewrite HP0. reflexivity.
    + apply in_flat_map in Hin. destruct Hin as (ch & Hch & Hin).
      apply children_spec in Hch. destruct Hch as [Hch Hp].
      rewrite <- HP0 in Hin.
      destruct (forward_kinematics_rec_sound _ _ _ _ Hch Hp Hin) as (k & Hk & ->).
      exists k. split; [lia|reflexivity].
  - intros (k & Hk & ->). destruct (Nat.eq_dec k 0) as [->|Hk0].
    + rewrite forward_kinematics_root_unfold by lia.
      left. rewrite HP0. reflexivity.
    + destruct (forward_kinematics_root_cover k ltac:(lia))
        as (f & p & Hpar & Hf & Hincl).
      apply Hincl. apply forward_kinematics_rec_head; [lia|exact Hpar|lia].
Qed.

End Recursion.
(** ** Dicts keyed by link names *)

Lemma find_key_unique {V} (l : list (string * V)) (key : string) (v : V) :
  NoDup (map fst l) -> In (key, v) l ->
  find (fun kv => String.eqb (fst kv) key) l = Some (key, v).
Proof.
  induction l as [|[k' v'] l IH]; intros Hnd Hin; simpl in *; [tauto|].
  inversion Hnd as [|? ? Hnot Hnd']; subst.
  destruct Hin as [[= -> ->]|Hin].
  - now rewrite String.eqb_refl.
  - destruct (String.eqb_spec k' key) as [->|Hne].
    + exfalso. apply Hnot. apply (in_map fst) in Hin. exact Hin.
    + apply IH; assumption.
Qed.

Lemma find_key_absent {V} (l : list (string * V)) (key : string) :
  ~ In key (map fst l) ->
  find (fun kv => String.eqb (fst kv) key) l = None.
Proof.
  induction l as [|[k' v'] l IH]; intros Hnot; simpl in *; [reflexivity|].
  destruct (String.eqb_spec k' key) as [->|Hne]; [tauto|].
  apply IH. tauto.
Qed.

Lemma find_keyed {V} (g : string -> V) (keys : list string) (key : string) :
  find (fun kv => String.eqb (fst kv) key) (map (fun n => (n, g n)) keys)
  = if in_dec string_dec key keys then Some (key, g key) else None.
Proof.
  induction keys as [|k keys IH]; simpl; [reflexivity|].
  destruct (String.eqb_spec k key) as [->|Hne].
  - destruct (string_dec key key); [reflexivity|congruence].
  - rewrite IH. destruct (string_dec k key); [congruence|].
    destruct (in_dec string_dec key keys); reflexivity.
Qed.

Lemma NoDup_map_on {A B} (f : A -> B) (l : list A) :
  NoDup l -> (forall x y, In x l -> In y l -> f x = f y -> x = y) ->
  NoDup (map f l).
Proof.
  induction 1 as [|x l Hx Hnd IH]; intros Hinj; simpl; constructor.
  - intros Hin. apply in_map_iff in Hin. destruct Hin as (y & Hy & Hiny).
    assert (y = x) by (apply Hinj; simpl; auto). subst. tauto.
  - apply IH. intros a b Ha Hb. apply Hinj; simpl; auto.
Qed.

Lemma link_name_inj (m : robot) (i j : nat) :
  NoDup (map link_name m) -> (i < length m)%nat -> (j < length m)%nat ->
  link_name (nth i m default_params) = link_name (nth j m default_params) ->
  i = j.
Proof.
  intros Hnd Hi Hj H.
  rewrite (NoDup_nth _ (link_name default_params)) in Hnd.
  apply Hnd; rewrite ?length_map; try lia. rewrite !map_nth. exact H.
Qed.

Lemma controlled_joints_NoDup (m : robot) : NoDup (controlled_joints m).
Proof.
  pose proof (controlled_from_sorted m 0) as H. unfold controlled_joints.
  induction H as [|x l Hs IH Hx]; constructor; [|exact IH].
  intros Hin. rewrite Forall_forall in Hx. apply Hx in Hin. lia.
Qed.

Lemma joint_idx_In (m : robot) (i : nat) :
  In i (controlled_joints m) -> exists k, joint_idx m i = Some k.
Proof.
  intros Hin. apply (In_nth _ _ 0%nat) in Hin. destruct Hin as (k & Hk & <-).
  exists k. apply joint_idx_controlled. exact Hk.
Qed.

Lemma map_snd_combine {A B} (l1 : list A) (l2 : list B) :
  length l1 = length l2 -> map snd (combine l1 l2) = l2.
Proof.
  revert l2. induction l1 as [|x l1 IH]; intros [|y l2] H; simpl in *;
    try discriminate; [reflexivity|].
  f_equal. apply IH. lia.
Qed.

(** The joint positions of a row under the link names. *)
Lemma q_dict_row_get (m : robot) (q : list R) :
  NoDup (map link_name m) -> length q = n_dofs m ->
  exists d, q_dict_row m q = Ok d
    /\ forall i, (i < length m)%nat ->
         q_dict_get d (link_name (nth i m default_params))
         = match joint_idx m i with
           | Some k => Some (nth k q 0)
           | None => None
           end.
Proof.
  intros Hnd Hq.
  set (h := fun x : nat * nat =>
              (link_name (nth (snd x) m default_params), nth (fst x) q 0)).
  exists (map h (combine (seq 0 (length (controlled_joints m))) (controlled_joints m))).
  split.
  - unfold q_dict_row. apply res_map_ok. intros [k idx] Hin.
    pose proof (in_combine_l _ _ _ _ Hin) as Hk. apply in_seq in Hk.
    pose proof (in_combine_r _ _ _ _ Hin) as Hidx.
    apply controlled_from_bounds in Hidx.
    rewrite (py_nth_ok m idx default_params) by lia.
    simpl. rewrite (py_nth_ok q k 0) by (unfold n_dofs in Hq; lia).
    reflexivity.
  - intros i Hi. unfold q_dict_get.
    set (l := combine _ _).
    assert (Hkeys : map fst (map h l)
                    = map (fun idx => link_name (nth idx m default_params))
                          (controlled_joints m)).
    { rewrite map_map. unfold h. simpl.
      rewrite <- (map_map snd (fun idx => link_name (nth idx m default_params))).
      unfold l. rewrite map_snd_combine; [reflexivity|]. now rewrite length_seq. }
    assert (Hnd' : NoDup (map fst (rev (map h l)))).
    { rewrite map_rev. apply NoDup_rev. rewrite Hkeys.
      apply NoDup_map_on; [apply controlled_joints_NoDup|].
      intros x y Hx Hy. apply link_name_inj; [exact Hnd| |];
        [apply controlled_from_bounds in Hx|apply controlled_from_bounds in Hy]; lia. }
    destruct (joint_idx m i) as [k|] eqn:Ej.
    + apply joint_idx_inv in Ej. destruct Ej as [Hk Hcl].
      rewrite (find_key_unique _ _ (nth k q 0) Hnd'); [reflexivity|].
      apply in_rev. rewrite rev_involutive.
      apply in_map_iff. exists (k, i). split; [reflexivity|].
      unfold l. rewrite <- Hcl. unfold controlled_link.
      replace k with (nth k (seq 0 (length (controlled_joints m))) 0%nat) at 1
        by (rewrite seq_nth; [lia|exact Hk]).
      rewrite <- (nth_combine_lt (seq 0 (length (controlled_joints m)))
                                 (controlled_joints m) k 0%nat 0%nat)
        by (rewrite ?length_seq; exact Hk).
      apply nth_In. rewrite length_combine, length_seq. unfold n_dofs in Hk. lia.
    + rewrite find_key_absent; [reflexivity|].
      rewrite map_rev, <- in_rev, Hkeys. intros Hin.
      apply in_map_iff in Hin. destruct Hin as (idx & Hname & Hidx).
      assert (idx = i).
      { apply (link_name_inj m); [exact Hnd| |exact Hi|exact Hname].
        apply controlled_from_bounds in Hidx. lia. }
      subst idx. destruct (joint_idx_In m i Hidx) as (k & Hk). congruence.
Qed.
Lemma joint_idx_none_fixed (m : robot) (i : nat) :
  (i < length m)%nat -> joint_idx m i = None ->
  is_fixed (nth i m default_params) = true.
Proof.
  intros Hi Hnone. destruct (is_fixed (nth i m default_params)) eqn:E; [reflexivity|].
  assert (Hin : In i (controlled_joints m)).
  { unfold controlled_joints. apply controlled_from_spec.
    rewrite Nat.sub_0_r. split; [lia|exact E]. }
  destruct (joint_idx_In m i Hin) as (k & Hk). congruence.
Qed.

Lemma joint_idx_some_movable (m : robot) (i k : nat) :
  joint_idx m i = Some k -> is_fixed (nth i m default_params) = false.
Proof.
  intros H. apply joint_idx_inv in H. destruct H as [Hk <-].
  assert (Hin : In (controlled_link m k) (controlled_joints m))
    by (apply nth_In; exact Hk).
  unfold controlled_joints in Hin. apply controlled_from_spec in Hin.
  rewrite Nat.sub_0_r in Hin. apply Hin.
Qed.

Lemma collect_all_ok {A} (l : list (res A)) :
  (forall r, In r l -> exists a, r = Ok a) -> exists ys, collect l = Ok ys.
Proof.
  induction l as [|r l IH]; intros H; simpl; [eauto|].
  destruct (H r (or_introl eq_refl)) as (a & ->).
  destruct IH as (ys & ->); [intros r' Hr'; apply H; now right|].
  simpl. eauto.
Qed.

(** A batch of rows that each run through gives a row of results for each. *)
Lemma run_batch_ok {I A} (m : robot) (f : I -> M A) (inputs : list I) (st : state)
  (di : I) (da : A) (R : nat -> A -> row_state -> Prop) :
  (forall b, (b < length inputs)%nat ->
     exists a s', f (nth b inputs di) (brow m st b) = (Ok a, s') /\ R b a s') ->
  exists outs st',
    run_batch m f inputs st = (Ok outs, st')
    /\ length outs = length inputs /\ length st' = length inputs
    /\ forall b, (b < length inputs)%nat -> R b (nth b outs da) (nth b st' []).
Proof.
  intros H.
  assert (Hex : exists outs, fst (run_batch m f inputs st) = Ok outs).
  { unfold run_batch. cbn [fst]. apply collect_all_ok. intros r Hr.
    apply in_map_iff in Hr. destruct Hr as (x & <- & Hx).
    apply in_map_iff in Hx. destruct Hx as ([b i] & <- & Hbi).
    apply (In_nth _ _ (0%nat, di)) in Hbi. destruct Hbi as (k & Hk & Hnth).
    rewrite length_combine, length_seq, Nat.min_id in Hk.
    rewrite nth_combine_lt in Hnth by (rewrite ?length_seq; exact Hk).
    rewrite seq_nth in Hnth by exact Hk. injection Hnth as <- <-.
    destruct (H k Hk) as (a & s' & Hf & _). simpl. rewrite Hf. simpl. eauto. }
  destruct Hex as (outs & Hout).
  destruct (run_batch m f inputs st) as [r st'] eqn:Hrun. cbn [fst] in Hout. subst r.
  exists outs, st'. split; [reflexivity|].
  assert (Hlen : length outs = length inputs /\ length st' = length inputs).
  { unfold run_batch in Hrun. injection Hrun as Hc Hs.
    apply collect_ok in Hc. destruct Hc as [Hc _].
    rewrite Hc, <- Hs, !length_map, length_combine, length_seq, Nat.min_id. auto. }
  split; [apply Hlen|]. split; [apply Hlen|].
  intros b Hb. pose proof (run_batch_row m f inputs st outs st' di da b Hrun Hb) as Hrow.
  destruct (H b Hb) as (a & s' & Hf & HR). rewrite Hf in Hrow.
  injection Hrow as <- <-. exact HR.
Qed.

Lemma brow_settled (m : robot) (st : state) (b : nat) (P : row_state -> Prop) :
  P (construction m) -> Forall P st -> P (brow m st b).
Proof.
  intros Hc Hst. unfold brow.
  assert (H : P (nth b st (construction m))).
  { destruct (Nat.lt_ge_cases b (length st)) as [Hb|Hb].
    - rewrite Forall_forall in Hst. apply Hst, nth_In, Hb.
    - rewrite nth_overflow by lia. exact Hc. }
  destruct st as [|r [|r' st]]; try exact H.
  inversion Hst; assumption.
Qed.

Lemma link_construction (m : robot) (i : nat) :
  (i < length m)%nat ->
  link (construction m) i = construction_body (nth i m default_params).
Proof.
  intros Hi. unfold link, construction.
  apply (nth_map_lt construction_body m i default_body default_params Hi).
Qed.

Lemma settled_construction (m : robot) : settled m (construction m).
Proof.
  split; [apply length_map|]. split.
  - destruct m as [|p m]; reflexivity.
  - intros i Hi _. rewrite link_construction by exact Hi. repeat split.
Qed.

(** The poses the sweep leaves: the base where it was, every other link on
    its parent by its joint frame. *)
Lemma sweep_poses (m : robot) (q qd : list R) (s : row_state) :
  tree_order m = true -> (0 < n_dofs m)%nat ->
  length q = n_dofs m -> length qd = n_dofs m -> settled m s ->
  exists s', update_kinematic_state_row m q qd s = (Ok tt, s')
    /\ length s' = length m
    /\ pose (link s' 0) = transform_id
    /\ forall i j, (1 <= i < length m)%nat -> parent_idx m i = Ok j ->
         pose (link s' i)
         = multiply_transform (pose (link s' j))
             (joint_pose_of (nth i m default_params) (joint_value m q i)).
Proof.
  intros Ht Hn Hq Hqd (Hl & Hbase & Hfix).
  destruct (update_kinematic_state_row_ok m q qd s Ht Hn Hq Hqd Hl)
    as (s' & Hrun & Hl' & Hsh & Hp0 & _ & Hrel).
  exists s'. split; [exact Hrun|]. split; [exact Hl'|].
  split; [now rewrite Hp0|].
  intros i j Hi Hpar. destruct (Hrel i Hi) as (j' & Hpar' & _ & Hpose & _).
  assert (j' = j) by congruence. subst j'. rewrite Hpose. f_equal.
  destruct (Hsh i ltac:(lia)) as (x & v & ->).
  unfold joint_update, joint_value.
  destruct (joint_idx m i) as [k|] eqn:Ej; [reflexivity|].
  destruct (Nat.ltb i (controlled_link m 0)); [reflexivity|].
  apply Hfix; [lia|]. apply joint_idx_none_fixed; [lia|exact Ej].
Qed.

Lemma find_same_entries {V} (l1 l2 : list (string * V)) (name : string) :
  (forall e, In e l1 <-> In e l2) ->
  (forall e e', In e l1 -> In e' l1 -> fst e = fst e' -> e = e') ->
  find (fun kv => String.eqb (fst kv) name) l1
  = find (fun kv => String.eqb (fst kv) name) l2.
Proof.
  intros Hsame Hfun.
  destruct (find _ l1) as [e1|] eqn:E1, (find _ l2) as [e2|] eqn:E2;
    try reflexivity.
  - apply find_some in E1, E2. destruct E1 as [H1 K1], E2 as [H2 K2].
    apply String.eqb_eq in K1, K2. f_equal.
    apply Hfun; [exact H1|now apply Hsame|congruence].
  - apply find_some in E1. destruct E1 as [H1 K1].
    apply Hsame in H1. pose proof (find_none _ _ E2 _ H1) as K. simpl in K. congruence.
  - apply find_some in E2. destruct E2 as [H2 K2].
    apply Hsame in H2. pose proof (find_none _ _ E1 _ H2) as K. simpl in K. congruence.
Qed.

Lemma name_lookup_ok (m : robot) (name : string) :
  NoDup (map link_name m) -> In name (get_link_names m) ->
  exists i, (i < length m)%nat /\ name = link_name (nth i m default_params)
            /\ name_to_idx_map m name = Ok i.
Proof.
  intros Hnd Hin. unfold get_link_names in Hin.
  apply (In_nth _ _ (link_name default_params)) in Hin.
  destruct Hin as (i & Hi & Hname). rewrite length_map in Hi.
  rewrite map_nth in Hname. exists i. split; [exact Hi|]. split; [now symmetry|].
  rewrite <- Hname. apply name_to_idx_map_own_name; assumption.
Qed.

(** One row: the dict of the recursion and the dict read off the sweep hold
    the same entry under every name. *)
Lemma all_poses_rows_agree (m : robot) (q : list R) (s : row_state) :
  NoDup (map link_name m) -> tree_order m = true -> (0 < n_dofs m)%nat ->
  length q = n_dofs m -> settled m s ->
  exists l_sweep s' l_rec,
    all_poses_row m q s = (Ok l_sweep, s')
    /\ all_poses_recursive_row m q = Ok l_rec
    /\ (forall name,
          find (fun kv => String.eqb (fst kv) name) l_rec
          = find (fun kv => String.eqb (fst kv) name) l_sweep)
    /\ (forall name, In name (map fst l_rec) <-> In name (get_link_names m)).
Proof.
  intros Hnd Ht Hn Hq Hs.
  destruct (sweep_poses m q (map (fun _ => 0) q) s Ht Hn Hq
              ltac:(now rewrite length_map) Hs)
    as (s' & Hrun & Hl' & Hp0 & Hrel).
  destruct (q_dict_row_get m q Hnd Hq) as (d & Hd & Hget).
  assert (Hlen : (0 < length m)%nat) by (pose proof (controlled_link_lt m 0 Hn); lia).
  set (P := fun k => pose (link s' k)).
  assert (Hent : forall e,
            In e (forward_kinematics_root m d)
            <-> exists k, (k < length m)%nat
                          /\ e = (link_name (nth k m default_params), P k)).
  { intros e. apply forward_kinematics_root_entries; try assumption.
    intros i j Hi Hpar. unfold P. rewrite (Hrel i j Hi Hpar).
    rewrite Hget by lia. unfold joint_value.
    destruct (joint_idx m i); reflexivity. }
  set (g := fun name => (name, match name_to_idx_map m name with
                               | Ok i => pose_entry (P i)
                               | Raise _ => ([], [])
                               end)).
  exists (map g (get_link_names m)), s',
    (map (fun kv => (fst kv, pose_entry (snd kv))) (forward_kinematics_root m d)).
  split; [|split; [|split]].
  - unfold all_poses_row. unfold mbind. rewrite Hrun.
    rewrite (res_map_ok _ g); [reflexivity|].
    intros name Hin. destruct (name_lookup_ok m name Hnd Hin) as (i & Hi & _ & Hidx).
    unfold g. rewrite Hidx. simpl.
    rewrite (py_nth_ok s' i default_body) by lia. reflexivity.
  - unfold all_poses_recursive_row. rewrite Hd. reflexivity.
  - intros name. apply find_same_entries.
    + intros e. rewrite !in_map_iff. split.
      * intros (e0 & <- & He0). apply Hent in He0. destruct He0 as (k & Hk & ->).
        exists (link_name (nth k m default_params)). split.
        -- unfold g. rewrite name_to_idx_map_own_name by assumption. reflexivity.
        -- unfold get_link_names. apply in_map, nth_In, Hk.
      * intros (nm & <- & Hin).
        destruct (name_lookup_ok m nm Hnd Hin) as (i & Hi & -> & Hidx).
        exists (link_name (nth i m default_params), P i). split.
        -- unfold g. rewrite Hidx. reflexivity.
        -- apply Hent. eauto.
    + intros e e' He He' Hkey.
      apply in_map_iff in He, He'.
      destruct He as (e0 & <- & He0), He' as (e0' & <- & He0').
      apply Hent in He0, He0'.
      destruct He0 as (k & Hk & ->), He0' as (k' & Hk' & ->).
      simpl in Hkey. apply (link_name_inj m) in Hkey; try assumption.
      subst. reflexivity.
  - intros name. rewrite map_map. simpl. rewrite in_map_iff. split.
    + intros (e & <- & He). apply Hent in He. destruct He as (k & Hk & ->).
      unfold get_link_names. simpl. apply in_map, nth_In, Hk.
    + intros Hin. destruct (name_lookup_ok m name Hnd Hin) as (i & Hi & -> & _).
      exists (link_name (nth i m default_params), P i). split; [reflexivity|].
      apply Hent. eauto.
Qed.
Lemma res_map_all_ok {A B} (f : A -> res B) (l : list A) :
  (forall x, In x l -> exists y, f x = Ok y) -> exists ys, res_map f l = Ok ys.
Proof.
  induction l as [|x l IH]; intros H; simpl; [eauto|].
  destruct (H x (or_introl eq_refl)) as (y & ->).
  destruct IH as (ys & ->); [intros x' Hx'; apply H; now right|].
  simpl. eauto.
Qed.

Lemma rows_have_zeros_like (n : nat) (rows : list (list R)) :
  rows_have n (zeros_like rows) = rows_have n rows.
Proof.
  unfold rows_have, zeros_like. induction rows as [|r rows IH]; simpl; [reflexivity|].
  now rewrite length_map, IH.
Qed.

Lemma kinematic_checks_zeros (m : robot) (qr : list (list R)) :
  rows_have (n_dofs m) qr = true -> kinematic_checks m qr (zeros_like qr) = true.
Proof.
  intros H. unfold kinematic_checks. rewrite rows_have_zeros_like, H.
  unfold zeros_like. rewrite length_map, Nat.eqb_refl. reflexivity.
Qed.

Lemma map_nth_ext {A B C} (f : A -> C) (g : B -> C) (l1 : list A) (l2 : list B)
  (d1 : A) (d2 : B) :
  length l1 = length l2 ->
  (forall b, (b < length l1)%nat -> f (nth b l1 d1) = g (nth b l2 d2)) ->
  map f l1 = map g l2.
Proof.
  revert l2. induction l1 as [|x l1 IH]; intros [|y l2] Hl H; simpl in *;
    try discriminate; [reflexivity|].
  f_equal.
  - apply (H 0%nat). lia.
  - apply IH; [lia|]. intros b Hb. apply (H (S b)). lia.
Qed.

Lemma dict_get_batch (keys : list string)
  (rows : list (list (string * (list R * list R)))) (name : string) :
  dict_get (batch_dict_keys keys rows) name
  = if in_dec string_dec name keys
    then let col := map (fun d =>
                      match find (fun kv => String.eqb (fst kv) name) d with
                      | Some kv => snd kv
                      | None => ([], [])
                      end) rows in
         Ok (T2 (map fst col), T2 (map snd col))
    else Raise KeyError.
Proof.
  unfold dict_get, batch_dict_keys.
  rewrite (find_keyed (fun name =>
    let col := map (fun d =>
                      match find (fun kv => String.eqb (fst kv) name) d with
                      | Some kv => snd kv
                      | None => ([], [])
                      end) rows in
    (T2 (map fst col), T2 (map snd col)))).
  destruct (in_dec string_dec name keys); reflexivity.
Qed.

Lemma root_keys (m : robot) (name : string) :
  NoDup (map link_name m) -> tree_order m = true -> (0 < n_dofs m)%nat ->
  In name (map fst (forward_kinematics_root m [])) <-> In name (get_link_names m).
Proof.
  intros Hnd Ht Hn.
  destruct (sweep_poses m (repeat 0 (n_dofs m)) (repeat 0 (n_dofs m))
              (construction m) Ht Hn ltac:(apply repeat_length)
              ltac:(apply repeat_length) (settled_construction m))
    as (s' & _ & Hl' & Hp0 & Hrel).
  assert (Hlen : (0 < length m)%nat) by (pose proof (controlled_link_lt m 0 Hn); lia).
  assert (Hent : forall e,
            In e (forward_kinematics_root m [])
            <-> exists k, (k < length m)%nat
                  /\ e = (link_name (nth k m default_params), pose (link s' k))).
  { intros e. apply (forward_kinematics_root_entries m [] (fun k => pose (link s' k)));
      try assumption.
    intros i j Hi Hpar. rewrite (Hrel i j Hi Hpar). unfold joint_value. simpl.
    destruct (joint_idx m i); [|reflexivity]. now rewrite nth_repeat. }
  rewrite in_map_iff. split.
  - intros (e & <- & He). apply Hent in He. destruct He as (k & Hk & ->).
    unfold get_link_names. simpl. apply in_map, nth_In, Hk.
  - intros Hin. destruct (name_lookup_ok m name Hnd Hin) as (i & Hi & -> & _).
    exists (link_name (nth i m default_params), pose (link s' i)).
    split; [reflexivity|]. apply Hent. eauto.
Qed.

(** One row of the single-link query against the same row of the all-links
    sweep. *)
Lemma single_link_row (m : robot) (q : list R) (s : row_state) (name : string) :
  NoDup (map link_name m) -> tree_order m = true -> (0 < n_dofs m)%nat ->
  length q = n_dofs m -> settled m s -> In name (get_link_names m) ->
  exists a l s',
    forward_kinematics_row m name q s = (Ok a, s')
    /\ all_poses_row m q s = (Ok l, s')
    /\ match find (fun kv => String.eqb (fst kv) name) l with
       | Some kv => snd kv
       | None => ([], [])
       end = a.
Proof.
  intros Hnd Ht Hn Hq Hs Hin.
  destruct (sweep_poses m q (map (fun _ => 0) q) s Ht Hn Hq
              ltac:(now rewrite length_map) Hs)
    as (s' & Hrun & Hl' & _).
  set (g := fun name => (name, match name_to_idx_map m name with
                               | Ok i => pose_entry (pose (link s' i))
                               | Raise _ => ([], [])
                               end)).
  destruct (name_lookup_ok m name Hnd Hin) as (i & Hi & Hname & Hidx).
  exists (pose_entry (pose (link s' i))), (map g (get_link_names m)), s'.
  split; [|split].
  - unfold forward_kinematics_row, link_pose_row. unfold mbind at 1. rewrite Hrun.
    rewrite (mbind_lift _ _ _ _ Hidx). rewrite mbind_get by lia. reflexivity.
  - unfold all_poses_row. unfold mbind. rewrite Hrun.
    rewrite (res_map_ok _ g); [reflexivity|].
    intros nm Hnm. destruct (name_lookup_ok m nm Hnd Hnm) as (k & Hk & _ & Hkidx).
    unfold g. rewrite Hkidx. simpl.
    rewrite (py_nth_ok s' k default_body) by lia. reflexivity.
  - unfold g at 1.
    rewrite (find_keyed (fun name => match name_to_idx_map m name with
                                     | Ok i => pose_entry (pose (link s' i))
                                     | Raise _ => ([], [])
                                     end)).
    destruct (in_dec string_dec name (get_link_names m)); [|tauto].
    simpl. now rewrite Hidx.
Qed.

(** C4: on a robot whose links follow their parents, with distinct link names
    and a movable joint, and on per-link fields as construction and the entry
    points leave them, the dict of [compute_forward_kinematics_all_links] holds
    the same translation and quaternion under every name with [recursive] and
    without, and [compute_forward_kinematics] returns the same pair for a link
    with [recursive] and without. *)
Theorem forward_kinematics_strategies_agree
  (m : robot) (qr : list (list R)) (st : state) :
  NoDup (map link_name m) -> tree_order m = true -> (0 < n_dofs m)%nat ->
  rows_have (n_dofs m) qr = true -> Forall (settled m) st ->
  (exists d_rec d_sweep st',
     compute_forward_kinematics_all_links_impl m (T2 qr) true st
     = (Ok (RDict d_rec), st)
     /\ compute_forward_kinematics_all_links_impl m (T2 qr) false st
        = (Ok (RDict d_sweep), st')
     /\ forall name, dict_get d_rec name = dict_get d_sweep name)
  /\ forall name, In name (get_link_names m) ->
       exists r st',
         compute_forward_kinematics_impl m (T2 qr) name true st = (Ok r, st')
         /\ compute_forward_kinematics_impl m (T2 qr) name false st = (Ok r, st').
Proof.
  intros Hnd Ht Hn Hrows Hst.
  assert (Hrow : forall b, (b < length qr)%nat ->
            length (nth b qr []) = n_dofs m /\ settled m (brow m st b)).
  { intros b Hb. split; [now apply rows_have_nth|].
    apply (brow_settled m st b (settled m)); [apply settled_construction|exact Hst]. }
  (* the sweep over all links *)
  destruct (run_batch_ok m (all_poses_row m) qr st [] []
              (fun b a s' => all_poses_row m (nth b qr []) (brow m st b) = (Ok a, s')))
    as (l_sw & st_sw & Hsw & Hlsw & Hlst & Hsw_rows).
  { intros b Hb. destruct (Hrow b Hb) as [Hq Hs].
    destruct (all_poses_rows_agree m _ _ Hnd Ht Hn Hq Hs) as (l & s' & _ & H & _).
    eauto. }
  split.
  - destruct (res_map_all_ok (all_poses_recursive_row m) qr) as (l_rec & Hrec).
    { intros q Hin. apply (In_nth _ _ []) in Hin. destruct Hin as (b & Hb & <-).
      destruct (Hrow b Hb) as [Hq Hs].
      destruct (all_poses_rows_agree m _ _ Hnd Ht Hn Hq Hs) as (_ & _ & l & _ & H & _).
      eauto. }
    exists (batch_dict_keys (map fst (forward_kinematics_root m [])) l_rec),
           (batch_dict m l_sw), st_sw.
    split; [|split].
    + unfold compute_forward_kinematics_all_links_impl. rewrite Hrec. reflexivity.
    + unfold compute_forward_kinematics_all_links_impl,
        compute_forward_kinematics_all_links_sweep.
      rewrite (kinematic_checks_zeros m qr Hrows), Hsw. reflexivity.
    + intros name. change (batch_dict m l_sw)
        with (batch_dict_keys (get_link_names m) l_sw).
      rewrite !dict_get_batch.
      destruct (in_dec string_dec name (map fst (forward_kinematics_root m [])))
        as [Hk|Hk], (in_dec string_dec name (get_link_names m)) as [Hk'|Hk'];
        try reflexivity;
        try (exfalso; apply (root_keys m name Hnd Ht Hn) in Hk; tauto);
        try (exfalso; apply (root_keys m name Hnd Ht Hn) in Hk'; tauto).
      cbv zeta. destruct (res_map_nth _ _ _ Hrec) as [Hlrec Hrec_rows].
      assert (Hcol : map (fun d => match find (fun kv => String.eqb (fst kv) name) d with
                                   | Some kv => snd kv
                                   | None => ([], [])
                                   end) l_rec
                     = map (fun d => match find (fun kv => String.eqb (fst kv) name) d with
                                     | Some kv => snd kv
                                     | None => ([], [])
                                     end) l_sw).
      { apply (map_nth_ext _ _ _ _ [] []);
          [etransitivity; [exact Hlrec|symmetry; exact Hlsw]|].
        intros b Hb. rewrite Hlrec in Hb. destruct (Hrow b Hb) as [Hq Hs].
        destruct (all_poses_rows_agree m _ _ Hnd Ht Hn Hq Hs)
          as (l1 & s' & l2 & H1 & H2 & Hfind & _).
        pose proof (Hsw_rows b Hb) as H1'. cbv beta in H1'. rewrite H1 in H1'.
        injection H1' as H1' _.
        pose proof (Hrec_rows b [] [] Hb) as H2'. rewrite H2 in H2'.
        injection H2' as H2'.
        rewrite <- H1', <- H2', Hfind. reflexivity. }
      rewrite Hcol. reflexivity.
  - intros name Hin.
    destruct (run_batch_ok m (forward_kinematics_row m name) qr st [] ([], [])
                (fun b a s' => forward_kinematics_row m name (nth b qr []) (brow m st b)
                               = (Ok a, s')))
      as (l_one & st_one & Hone & Hlone & Hlst1 & Hone_rows).
    { intros b Hb. destruct (Hrow b Hb) as [Hq Hs].
      destruct (single_link_row m _ _ name Hnd Ht Hn Hq Hs Hin) as (a & _ & s' & H & _).
      eauto. }
    exists (RTuple [VTensor (T2 (map fst l_one)); VTensor (T2 (map snd l_one))]), st_one.
    assert (Hsame : st_sw = st_one
                    /\ map (fun d => match find (fun kv => String.eqb (fst kv) name) d with
                                     | Some kv => snd kv
                                     | None => ([], [])
                                     end) l_sw = l_one).
    { split.
      - apply (@nth_ext row_state _ _ [] []);
          [etransitivity; [exact Hlst|symmetry; exact Hlst1]|]. intros b Hb. rewrite Hlst in Hb.
        destruct (Hrow b Hb) as [Hq Hs].
        destruct (single_link_row m _ _ name Hnd Ht Hn Hq Hs Hin)
          as (a & l & s' & H1 & H2 & _).
        pose proof (Hsw_rows b Hb) as Ha. cbv beta in Ha. rewrite H2 in Ha.
        pose proof (Hone_rows b Hb) as Hb'. cbv beta in Hb'. rewrite H1 in Hb'.
        congruence.
      - rewrite <- (map_id l_one).
        apply (map_nth_ext _ _ _ _ [] ([], []));
          [etransitivity; [exact Hlsw|symmetry; exact Hlone]|].
        intros b Hb. rewrite Hlsw in Hb. destruct (Hrow b Hb) as [Hq Hs].
        destruct (single_link_row m _ _ name Hnd Ht Hn Hq Hs Hin)
          as (a & l & s' & H1 & H2 & Hfind).
        pose proof (Hsw_rows b Hb) as Ha. cbv beta in Ha. rewrite H2 in Ha.
        pose proof (Hone_rows b Hb) as Hb'. cbv beta in Hb'. rewrite H1 in Hb'.
        injection Ha as Ha _. injection Hb' as Hb' _.
        rewrite <- Ha, <- Hb'. exact Hfind. }
    destruct Hsame as [Hst_eq Hcol].
    split.
    + unfold compute_forward_kinematics_impl,
        compute_forward_kinematics_all_links_impl,
        compute_forward_kinematics_all_links_sweep.
      rewrite (kinematic_checks_zeros m qr Hrows), Hsw.
      cbn [res_bind].
      change (batch_dict m l_sw) with (batch_dict_keys (get_link_names m) l_sw).
      rewrite dict_get_batch.
      destruct (in_dec string_dec name (get_link_names m)); [|tauto].
      cbv zeta. rewrite Hcol, Hst_eq. reflexivity.
    + unfold compute_forward_kinematics_impl, compute_forward_kinematics_sweep.
      rewrite (kinematic_checks_zeros m qr Hrows), Hone. reflexivity.
Qed.
Lemma forward_kinematics_strategies_agree_witness :
  (exists d_rec d_sweep st',
     compute_forward_kinematics_all_links_impl two_link (T2 [[1; 2]]) true
       [construction two_link]
     = (Ok (RDict d_rec), [construction two_link])
     /\ compute_forward_kinematics_all_links_impl two_link (T2 [[1; 2]]) false
          [construction two_link]
        = (Ok (RDict d_sweep), st')
     /\ forall name, dict_get d_rec name = dict_get d_sweep name)
  /\ forall name, In name (get_link_names two_link) ->
       exists r st',
         compute_forward_kinematics_impl two_link (T2 [[1; 2]]) name true
           [construction two_link] = (Ok r, st')
         /\ compute_forward_kinematics_impl two_link (T2 [[1; 2]]) name false
              [construction two_link] = (Ok r, st').
Proof.
  apply (forward_kinematics_strategies_agree two_link [[1; 2]] [construction two_link]).
  - repeat constructor; simpl; intuition discriminate.
  - reflexivity.
  - apply Nat.ltb_lt. reflexivity.
  - reflexivity.
  - constructor; [apply settled_construction|constructor].
Defined.

(** ** What update_kinematic_state leaves behind *)

Lemma vscale_0 (a : vec3) : vscale 0 a = vzero.
Proof. unfold vscale, vzero. f_equal; ring. Qed.

Lemma kinematic_post_settled (m : robot) (q qd : list R) (s s' : row_state) :
  kinematic_post m q qd s s' -> settled m s -> settled m s'.
Proof.
  intros (Hl' & Hsh & Hp0 & _) (Hl & Hbase & Hfix).
  split; [exact Hl'|]. split; [now rewrite Hp0|].
  intros i Hi Hf. destruct (Hsh i Hi) as (x & v & ->).
  destruct (Hfix i Hi Hf) as (Hjp & Hjv & Hja).
  unfold joint_update.
  destruct (joint_idx m i) as [k|] eqn:Ej.
  { apply joint_idx_some_movable in Ej. congruence. }
  destruct (Nat.ltb i (controlled_link m 0)); cbn; [|auto].
  rewrite vscale_0. auto.
Qed.

(** X13: on a robot whose links follow their parents and that has a movable
    joint, [update_kinematic_state] raises nothing on rows of [n_dofs]
    columns; it leaves the base where it was and without velocity, every
    other link posed on its parent by its joint frame, with the parent's
    velocity carried into its frame and its own joint velocity added; and
    it keeps the fields of fixed joints at rest. *)
Theorem update_kinematic_state_row_spec
  (m : robot) (q qd : list R) (s : row_state) :
  tree_order m = true -> (0 < n_dofs m)%nat ->
  length q = n_dofs m -> length qd = n_dofs m -> length s = length m ->
  exists s', update_kinematic_state_row m q qd s = (Ok tt, s')
             /\ kinematic_post m q qd s s'
             /\ (settled m s -> settled m s').
Proof.
  intros Ht Hn Hq Hqd Hl.
  destruct (update_kinematic_state_row_ok m q qd s Ht Hn Hq Hqd Hl) as (s' & Hrun & Hpost).
  exists s'. split; [exact Hrun|]. split; [exact Hpost|].
  apply (kinematic_post_settled m q qd s s' Hpost).
Qed.

Lemma update_kinematic_state_row_spec_witness :
  exists s', update_kinematic_state_row two_link [1; 2] [0; 0] (construction two_link)
             = (Ok tt, s')
             /\ kinematic_post two_link [1; 2] [0; 0] (construction two_link) s'
             /\ (settled two_link (construction two_link) -> settled two_link s').
Proof.
  apply (update_kinematic_state_row_spec two_link [1; 2] [0; 0] (construction two_link)).
  - reflexivity.
  - apply Nat.ltb_lt. reflexivity.
  - reflexivity.
  - reflexivity.
  - reflexivity.
Defined.

Lemma collect_first_raise {A} (e : exn) (l : list (res A)) :
  collect (Raise e :: l) = Raise e.
Proof. reflexivity. Qed.

(** X14: a robot without a movable joint.  [update_kinematic_state] reads
    [_controlled_joints[0]], so every sweep over a batch that is not empty
    ends in an [IndexError], while the recursion still returns the poses. *)
Theorem no_movable_joint_sweep_raises
  (m : robot) (q : list R) (qr : list (list R)) (st : state) :
  n_dofs m = 0%nat -> rows_have 0 (q :: qr) = true ->
  fst (compute_forward_kinematics_all_links_impl m (T2 (q :: qr)) false st)
  = Raise IndexError
  /\ exists d,
       compute_forward_kinematics_all_links_impl m (T2 (q :: qr)) true st
       = (Ok (RDict d), st).
Proof.
  intros Hn Hrows. split.
  - unfold compute_forward_kinematics_all_links_impl,
      compute_forward_kinematics_all_links_sweep.
    rewrite kinematic_checks_zeros by (rewrite Hn; exact Hrows).
    unfold run_batch. cbn [length seq combine map fst].
    unfold all_poses_row at 1, update_kinematic_state_row at 1.
    unfold n_dofs in Hn. apply length_zero_iff_nil in Hn. rewrite Hn.
    reflexivity.
  - destruct (res_map_all_ok (all_poses_recursive_row m) (q :: qr)) as (l & Hl).
    { intros x _. unfold all_poses_recursive_row, q_dict_row.
      unfold n_dofs in Hn. apply length_zero_iff_nil in Hn. rewrite Hn.
      simpl. eauto. }
    eexists. unfold compute_forward_kinematics_all_links_impl. rewrite Hl.
    reflexivity.
Qed.

Lemma no_movable_joint_sweep_raises_witness :
  fst (compute_forward_kinematics_all_links_impl [base_link] (T2 [[]]) false
         [construction [base_link]])
  = Raise IndexError
  /\ exists d,
       compute_forward_kinematics_all_links_impl [base_link] (T2 [[]]) true
         [construction [base_link]]
       = (Ok (RDict d), [construction [base_link]]).
Proof.
  apply (no_movable_joint_sweep_raises [base_link] [] [] [construction [base_link]]).
  - reflexivity.
  - reflexivity.
Defined.

(** ** Sums over the links *)

Lemma sum_links_nil (lo : nat) (f : nat -> R) : sum_links lo lo f = 0.
Proof. unfold sum_links, range. now rewrite Nat.sub_diag. Qed.

Lemma sum_links_first (lo hi : nat) (f : nat -> R) :
  (lo < hi)%nat -> sum_links lo hi f = f lo + sum_links (S lo) hi f.
Proof.
  intros H. unfold sum_links, range.
  replace (hi - lo)%nat with (S (hi - S lo)) by lia. reflexivity.
Qed.

Lemma sum_links_ext (lo hi : nat) (f g : nat -> R) :
  (forall i, (lo <= i < hi)%nat -> f i = g i) -> sum_links lo hi f = sum_links lo hi g.
Proof.
  intros H. unfold sum_links. f_equal. apply map_ext_in. intros i Hi.
  apply H. unfold range in Hi. apply in_seq in Hi. lia.
Qed.

Lemma sum_links_split (lo mid hi : nat) (f : nat -> R) :
  (lo <= mid <= hi)%nat ->
  sum_links lo hi f = sum_links lo mid f + sum_links mid hi f.
Proof.
  intros H. unfold sum_links, range.
  replace (hi - lo)%nat with ((mid - lo) + (hi - mid))%nat by lia.
  rewrite seq_app, map_app. replace (lo + (mid - lo))%nat with mid by lia.
  unfold lsum. rewrite fold_right_app.
  generalize (map f (seq lo (mid - lo))). intros l.
  induction l as [|x l IH]; simpl; [ring|]. rewrite IH. ring.
Qed.

Lemma sum_links_zero (lo hi : nat) (f : nat -> R) :
  (forall i, (lo <= i < hi)%nat -> f i = 0) -> sum_links lo hi f = 0.
Proof.
  intros H. rewrite (sum_links_ext lo hi f (fun _ => 0) H).
  unfold sum_links, lsum. generalize (range lo hi). intros l.
  induction l as [|x l IH]; simpl; [reflexivity|].
  rewrite IH. ring.
Qed.

Lemma sum_links_plus (lo hi : nat) (f g : nat -> R) :
  sum_links lo hi (fun i => f i + g i) = sum_links lo hi f + sum_links lo hi g.
Proof.
  unfold sum_links, lsum. generalize (range lo hi). intros l.
  induction l as [|x l IH]; simpl; [ring|].
  rewrite IH. ring.
Qed.

Lemma sum_links_minus (lo hi : nat) (f g : nat -> R) :
  sum_links lo hi (fun i => f i - g i) = sum_links lo hi f - sum_links lo hi g.
Proof.
  unfold sum_links, lsum. generalize (range lo hi). intros l.
  induction l as [|x l IH]; simpl; [ring|].
  rewrite IH. ring.
Qed.

Lemma sum_links_scale (lo hi : nat) (c : R) (f : nat -> R) :
  sum_links lo hi (fun i => c * f i) = c * sum_links lo hi f.
Proof.
  unfold sum_links, lsum. generalize (range lo hi). intros l.
  induction l as [|x l IH]; simpl; [ring|].
  rewrite IH. ring.
Qed.

Lemma sum_links_nonneg (lo hi : nat) (f : nat -> R) :
  (forall i, (lo <= i < hi)%nat -> 0 <= f i) -> 0 <= sum_links lo hi f.
Proof.
  unfold sum_links, range, lsum. remember (hi - lo)%nat as n eqn:Hn.
  revert lo Hn. induction n as [|n IH]; intros lo Hn H; simpl; [lra|].
  apply Rplus_le_le_0_compat; [apply H; lia|].
  apply IH; [lia|]. intros i Hi. apply H. lia.
Qed.

(** A function that vanishes off one link, or off two. *)
Lemma sum_links_one (lo hi i : nat) (h : nat -> R) :
  (lo <= i < hi)%nat -> (forall j, (lo <= j < hi)%nat -> j <> i -> h j = 0) ->
  sum_links lo hi h = h i.
Proof.
  intros Hi H. rewrite (sum_links_split lo i hi) by lia.
  rewrite (sum_links_first i hi) by lia.
  rewrite (sum_links_zero lo i) by (intros j Hj; apply H; lia).
  rewrite (sum_links_zero (S i) hi) by (intros j Hj; apply H; lia).
  ring.
Qed.

Lemma sum_links_two (lo hi p i : nat) (h : nat -> R) :
  (lo <= p)%nat -> (p < i < hi)%nat ->
  (forall j, (lo <= j < hi)%nat -> j <> i -> j <> p -> h j = 0) ->
  sum_links lo hi h = h p + h i.
Proof.
  intros Hp Hi H. rewrite (sum_links_split lo i hi) by lia.
  rewrite (sum_links_first i hi) by lia.
  rewrite (sum_links_one lo i p) by (try lia; intros j Hj Hne; apply H; lia).
  rewrite (sum_links_zero (S i) hi); [ring|].
  intros j Hj. apply H; lia.
Qed.

Lemma sum_links_swap (lo hi lo' hi' : nat) (f : nat -> nat -> R) :
  sum_links lo hi (fun i => sum_links lo' hi' (fun k => f i k))
  = sum_links lo' hi' (fun k => sum_links lo hi (fun i => f i k)).
Proof.
  unfold sum_links at 1. unfold lsum.
  transitivity (sum_links lo' hi'
                  (fun k => fold_right Rplus 0 (map (fun i => f i k) (range lo hi))));
    [|reflexivity].
  generalize (range lo hi). intros l.
  induction l as [|x l IH]; simpl.
  - symmetry. apply sum_links_zero. reflexivity.
  - rewrite IH. rewrite <- sum_links_plus. reflexivity.
Qed.
(** ** Inverse dynamics at rest *)

Lemma motion_transform_zero (t : CoordinateTransform) :
  motion_transform motion_zero t = motion_zero.
Proof. mat_crush. struct_ring. Qed.

Lemma add_motion_zero_l (a : SpatialMotionVec) : add_motion_vec motion_zero a = a.
Proof. mat_crush. struct_ring. Qed.

Lemma add_motion_zero_r (a : SpatialMotionVec) : add_motion_vec a motion_zero = a.
Proof. mat_crush. struct_ring. Qed.

Lemma cross_motion_zero_l (a : SpatialMotionVec) :
  cross_motion_vec motion_zero a = motion_zero.
Proof. mat_crush. struct_ring. Qed.

Lemma dot_add_force (b : SpatialMotionVec) (f g : SpatialForceVec) :
  motion_dot_force b (add_force_vec f g) = motion_dot_force b f + motion_dot_force b g.
Proof. mat_crush. ring. Qed.

Lemma dot_add_motion (a b : SpatialMotionVec) (f : SpatialForceVec) :
  motion_dot_force (add_motion_vec a b) f = motion_dot_force a f + motion_dot_force b f.
Proof. mat_crush. ring. Qed.

Lemma dot_sub_motion (a b : SpatialMotionVec) (f : SpatialForceVec) :
  motion_dot_force (sub_motion a b) f = motion_dot_force a f - motion_dot_force b f.
Proof. unfold sub_motion. mat_crush. ring. Qed.

Lemma dot_force_zero (b : SpatialMotionVec) : motion_dot_force b force_zero = 0.
Proof. mat_crush. ring. Qed.

Lemma dot_motion_zero (f : SpatialForceVec) : motion_dot_force motion_zero f = 0.
Proof. mat_crush. ring. Qed.

Lemma dot_cross_force_rest (b : SpatialMotionVec) (f : SpatialForceVec) :
  motion_dot_force b (cross_force_vec motion_zero f) = 0.
Proof. mat_crush. ring. Qed.

(** A force carried to the parent does on the parent's motion the work it
    does on that motion carried to the child. *)
Lemma dot_force_transform (b : SpatialMotionVec) (f : SpatialForceVec)
  (t : CoordinateTransform) :
  is_rotation (rotation t) ->
  motion_dot_force b (force_transform f t)
  = motion_dot_force (motion_transform b (inverse t)) f.
Proof.
  intros H. rewrite (motion_transform_inverse _ _ H). mat_crush. ring.
Qed.

Lemma inertia_sub_motion (I : Inertia) (b a a' : SpatialMotionVec) :
  motion_dot_force b (multiply_motion_vec I (sub_motion a a'))
  = motion_dot_force b (multiply_motion_vec I a)
    - motion_dot_force b (multiply_motion_vec I a').
Proof. unfold sub_motion. mat_crush. ring. Qed.

Lemma nth_zeros (q : list R) (k : nat) : nth k (map (fun _ => 0) q) 0 = 0.
Proof.
  revert k. induction q as [|x q IH]; intros [|k]; simpl; auto.
Qed.

(** The accelerations of the joints. *)
Lemma joint_acc_stage (m : robot) (x : list R) (s : row_state) :
  length x = n_dofs m -> length s = length m ->
  exists s2,
    for_each (range 0 (n_dofs m)) (fun i =>
      idx <- lift (py_nth (controlled_joints m) i) ;;
      p <- lift (py_nth m idx) ;;
      a <- lift (py_nth x i) ;;
      b <- get_body idx ;;
      put_body idx (update_joint_acc p a b)) s = (Ok tt, s2)
    /\ length s2 = length m
    /\ forall i, link s2 i
                 = match joint_idx m i with
                   | Some k => update_joint_acc (nth i m default_params)
                                 (nth k x 0) (link s i)
                   | None => link s i
                   end.
Proof.
  intros Hx Hl.
  destruct (for_each_range
           (fun k s2 => length s2 = length m
                        /\ forall i, link s2 i
                             = match joint_idx m i with
                               | Some j =>
                                   if Nat.ltb j k
                                   then update_joint_acc (nth i m default_params)
                                          (nth j x 0) (link s i)
                                   else link s i
                               | None => link s i
                               end)
           (fun i =>
      idx <- lift (py_nth (controlled_joints m) i) ;;
      p <- lift (py_nth m idx) ;;
      a <- lift (py_nth x i) ;;
      b <- get_body idx ;;
      put_body idx (update_joint_acc p a b)) 0%nat (n_dofs m)) with (s := s)
    as (s2 & Hrun & Hl2 & Hs2); [lia| | |].
  - intros k s2 Hk [Hl2 Hs2].
    pose proof (controlled_link_lt m k ltac:(lia)) as Hidx.
    rewrite (mbind_lift _ _ _ _ (py_nth_ok (controlled_joints m) k 0%nat ltac:(unfold n_dofs in *; lia))).
    fold (controlled_link m k).
    rewrite (mbind_lift _ _ _ _ (py_nth_ok m _ default_params Hidx)).
    rewrite (mbind_lift _ _ _ _ (py_nth_ok x k 0 ltac:(lia))).
    rewrite mbind_get by lia.
    eexists. split; [reflexivity|]. split; [now rewrite length_set_nth|].
    intros i. rewrite link_set_nth by lia.
    destruct (Nat.eqb_spec i (controlled_link m k)) as [->|Hne].
    + rewrite Hs2, joint_idx_controlled by lia.
      rewrite Nat.ltb_irrefl.
      replace (Nat.ltb k (S k)) with true by (symmetry; apply Nat.ltb_lt; lia).
      reflexivity.
    + rewrite Hs2. destruct (joint_idx m i) as [j|] eqn:Ej; [|reflexivity].
      apply joint_idx_inv in Ej. destruct Ej as [Hj Hcl].
      assert (j <> k) by congruence.
      destruct (Nat.ltb_spec j k), (Nat.ltb_spec j (S k)); try reflexivity; lia.
  - split; [exact Hl|]. intros i. destruct (joint_idx m i); reflexivity.
  - exists s2. split; [exact Hrun|]. split; [exact Hl2|].
    intros i. rewrite Hs2. destruct (joint_idx m i) as [j|] eqn:Ej; [|reflexivity].
    apply joint_idx_inv in Ej. destruct Ej as [Hj _].
    replace (Nat.ltb j (n_dofs m)) with true by (symmetry; apply Nat.ltb_lt; lia).
    reflexivity.
Qed.

(** The forward pass of [iterative_newton_euler]. *)
Lemma acc_stage (m : robot) (s : row_state) :
  tree_order m = true -> (0 < length m)%nat -> length s = length m ->
  exists s',
    for_each (range 1 (length m)) (fun i =>
      p <- lift (py_nth m i) ;;
      body <- get_body i ;;
      pidx <- lift (name_to_idx_map m (parent_name p)) ;;
      parent_body <- get_body pidx ;;
      let inv_pose := inverse (joint_pose body) in
      let acc_parent_body := motion_transform (acc parent_body) inv_pose in
      let tmp := cross_motion_vec (vel body) (joint_vel body) in
      put_body i (set_acc body
        (add_motion_vec (add_motion_vec acc_parent_body (joint_acc body)) tmp))) s
    = (Ok tt, s')
    /\ length s' = length m
    /\ link s' 0 = link s 0
    /\ (forall i, exists a, link s' i = set_acc (link s i) a)
    /\ forall i, (1 <= i < length m)%nat ->
        exists j, parent_idx m i = Ok j /\ (j < i)%nat
          /\ acc (link s' i)
             = add_motion_vec
                 (add_motion_vec
                    (motion_transform (acc (link s' j))
                                      (inverse (joint_pose (link s i))))
                    (joint_acc (link s i)))
                 (cross_motion_vec (vel (link s i)) (joint_vel (link s i))).
Proof.
  intros Ht H0 Hl.
  destruct (for_each_range
    (fun k s' =>
       length s' = length m
       /\ link s' 0 = link s 0
       /\ (forall i, exists a, link s' i = set_acc (link s i) a)
       /\ (forall i, (k <= i)%nat -> link s' i = link s i)
       /\ forall i, (1 <= i < k)%nat ->
            exists j, parent_idx m i = Ok j /\ (j < i)%nat
              /\ acc (link s' i)
                 = add_motion_vec
                     (add_motion_vec
                        (motion_transform (acc (link s' j))
                                          (inverse (joint_pose (link s i))))
                        (joint_acc (link s i)))
                     (cross_motion_vec (vel (link s i)) (joint_vel (link s i))))
    (fun i =>
      p <- lift (py_nth m i) ;;
      body <- get_body i ;;
      pidx <- lift (name_to_idx_map m (parent_name p)) ;;
      parent_body <- get_body pidx ;;
      let inv_pose := inverse (joint_pose body) in
      let acc_parent_body := motion_transform (acc parent_body) inv_pose in
      let tmp := cross_motion_vec (vel body) (joint_vel body) in
      put_body i (set_acc body
        (add_motion_vec (add_motion_vec acc_parent_body (joint_acc body)) tmp)))
    1%nat (length m)) with (s := s)
    as (s' & Hrun & Hl' & Hb & Hsh & _ & Hrel); [lia| | |].
  - intros k s' Hk (Hl' & Hb & Hsh & Hun & Hrel).
    destruct (tree_order_parent m k Ht Hk) as (j & Hpar & Hj).
    destruct (parent_idx_inv _ _ _ Hpar) as [Hp Hn].
    rewrite (mbind_lift _ _ _ _ Hp).
    rewrite mbind_get by lia.
    rewrite (mbind_lift _ _ _ _ Hn).
    rewrite mbind_get by lia.
    cbv zeta.
    eexists. split; [reflexivity|]. split; [now rewrite length_set_nth|].
    split; [|split; [|split]].
    + rewrite link_set_nth by lia.
      destruct (Nat.eqb_spec 0 k); [lia|exact Hb].
    + intros i. rewrite link_set_nth by lia.
      destruct (Nat.eqb_spec i k) as [->|Hne]; [|apply Hsh].
      rewrite (Hun k) by lia. eauto.
    + intros i Hi. rewrite link_set_nth by lia.
      destruct (Nat.eqb_spec i k); [lia|]. apply Hun. lia.
    + intros i Hi. destruct (Nat.eq_dec i k) as [->|Hne].
      * exists j. split; [exact Hpar|]. split; [exact Hj|].
        rewrite !link_set_nth by lia. rewrite Nat.eqb_refl.
        destruct (Nat.eqb_spec j k); [lia|].
        rewrite (Hun k) by lia. reflexivity.
      * destruct (Hrel i) as (j' & Hpar' & Hj' & Hacc); [lia|].
        exists j'. split; [exact Hpar'|]. split; [exact Hj'|].
        rewrite !link_set_nth by lia.
        destruct (Nat.eqb_spec i k); [lia|].
        destruct (Nat.eqb_spec j' k); [lia|]. exact Hacc.
  - split; [exact Hl|]. split; [reflexivity|]. split; [|split].
    + intros i. exists (acc (link s i)). destruct (link s i); reflexivity.
    + reflexivity.
    + intros i Hi. lia.
  - exists s'. repeat split; assumption.
Qed.

(** The reset of the forces. *)
Lemma reset_stage (m : robot) (s : row_state) :
  length s = length m ->
  exists s',
    for_each (range 0 (length m)) (fun i =>
      b <- get_body i ;;
      put_body i (set_force b force_zero)) s = (Ok tt, s')
    /\ length s' = length m
    /\ forall i, (i < length m)%nat -> link s' i = set_force (link s i) force_zero.
Proof.
  intros Hl.
  destruct (for_each_range
    (fun k s' => length s' = length m
                 /\ forall i, link s' i
                      = if Nat.ltb i k then set_force (link s i) force_zero
                        else link s i)
    (fun i => b <- get_body i ;; put_body i (set_force b force_zero))
    0%nat (length m)) with (s := s) as (s' & Hrun & Hl' & Hs'); [lia| | |].
  - intros k s' Hk [Hl' Hs'].
    rewrite mbind_get by lia.
    eexists. split; [reflexivity|]. split; [now rewrite length_set_nth|].
    intros i. rewrite link_set_nth by lia.
    destruct (Nat.eqb_spec i k) as [->|Hne].
    + rewrite Hs', Nat.ltb_irrefl.
      replace (Nat.ltb k (S k)) with true by (symmetry; apply Nat.ltb_lt; lia).
      reflexivity.
    + rewrite Hs'. destruct (Nat.ltb_spec i k), (Nat.ltb_spec i (S k));
        try reflexivity; lia.
  - split; [exact Hl|]. reflexivity.
  - exists s'. split; [exact Hrun|]. split; [exact Hl'|].
    intros i Hi. rewrite Hs'.
    replace (Nat.ltb i (length m)) with true by (symmetry; apply Nat.ltb_lt; lia).
    reflexivity.
Qed.
(** The backward pass of [iterative_newton_euler] on links at rest: the work
    of the forces it leaves on the joints' own shares of a field that follows
    the tree is the work of the links' inertial forces on the field. *)
Lemma force_stage (m : robot) (s : row_state) :
  tree_order m = true -> (0 < length m)%nat -> length s = length m ->
  (forall i, (i < length m)%nat ->
     force (link s i) = force_zero /\ vel (link s i) = motion_zero
     /\ is_rotation (rotation (joint_pose (link s i)))) ->
  exists s',
    for_each (range_down (length m) 1) (fun i =>
      p <- lift (py_nth m i) ;;
      body <- get_body i ;;
      let icxacc := multiply_motion_vec (inertia p) (acc body) in
      let icxvel := multiply_motion_vec (inertia p) (vel body) in
      let tmp_force := cross_force_vec (vel body) icxvel in
      let body' := set_force body
        (add_force_vec (add_force_vec (force body) icxacc) tmp_force) in
      put_body i body' ;;;
      if Nat.ltb 0 i then
        pidx <- lift (name_to_idx_map m (parent_name p)) ;;
        parent_body <- get_body pidx ;;
        let backprop_force := force_transform (force body') (joint_pose body') in
        put_body pidx (set_force parent_body
          (add_force_vec (force parent_body) backprop_force))
      else mret tt) s
    = (Ok tt, s')
    /\ length s' = length m
    /\ (forall i, exists f, link s' i = set_force (link s i) f)
    /\ forall b jb : nat -> SpatialMotionVec,
         b 0%nat = motion_zero ->
         (forall i p, (1 <= i < length m)%nat -> parent_idx m i = Ok p ->
            b i = add_motion_vec
                    (motion_transform (b p) (inverse (joint_pose (link s i))))
                    (jb i)) ->
         sum_links 1 (length m) (fun i => motion_dot_force (jb i) (force (link s' i)))
         = sum_links 1 (length m)
             (fun i => motion_dot_force (b i)
                         (multiply_motion_vec (inertia (nth i m default_params))
                                              (acc (link s i)))).
Proof.
  intros Ht H0 Hl Hrest.
  set (Ia := fun j => multiply_motion_vec (inertia (nth j m default_params))
                                          (acc (link s j))).
  set (T := fun (k : nat) (s' : row_state) (b jb : nat -> SpatialMotionVec) (j : nat) =>
              if Nat.ltb j k
              then motion_dot_force (b j) (add_force_vec (force (link s' j)) (Ia j))
              else motion_dot_force (jb j) (force (link s' j))).
  destruct (for_each_range_down
    (fun k s' =>
       length s' = length m
       /\ (forall i, exists f, link s' i = set_force (link s i) f)
       /\ forall b jb : nat -> SpatialMotionVec,
            b 0%nat = motion_zero ->
            (forall i p, (1 <= i < length m)%nat -> parent_idx m i = Ok p ->
               b i = add_motion_vec
                       (motion_transform (b p) (inverse (joint_pose (link s i))))
                       (jb i)) ->
            sum_links 1 (length m) (T k s' b jb)
            = sum_links 1 (length m) (fun i => motion_dot_force (b i) (Ia i)))
    (fun i =>
      p <- lift (py_nth m i) ;;
      body <- get_body i ;;
      let icxacc := multiply_motion_vec (inertia p) (acc body) in
      let icxvel := multiply_motion_vec (inertia p) (vel body) in
      let tmp_force := cross_force_vec (vel body) icxvel in
      let body' := set_force body
        (add_force_vec (add_force_vec (force body) icxacc) tmp_force) in
      put_body i body' ;;;
      if Nat.ltb 0 i then
        pidx <- lift (name_to_idx_map m (parent_name p)) ;;
        parent_body <- get_body pidx ;;
        let backprop_force := force_transform (force body') (joint_pose body') in
        put_body pidx (set_force parent_body
          (add_force_vec (force parent_body) backprop_force))
      else mret tt)
    1%nat (length m)) with (s := s) as (s' & Hrun & Hl' & Hsh & Hvw); [lia| | |].
  - (* one link of the backward pass *)
    intros k s' Hk (Hl' & Hsh & Hvw).
    destruct (tree_order_parent m k Ht Hk) as (p & Hpar & Hp).
    destruct (parent_idx_inv _ _ _ Hpar) as [Hpk Hn].
    rewrite (mbind_lift _ _ _ _ Hpk).
    rewrite mbind_get by lia.
    cbv zeta. rewrite mbind_put.
    replace (Nat.ltb 0 k) with true by (symmetry; apply Nat.ltb_lt; lia).
    rewrite (mbind_lift _ _ _ _ Hn).
    rewrite mbind_get by (rewrite length_set_nth; lia).
    rewrite link_set_nth by lia.
    destruct (Nat.eqb_spec p k) as [|_]; [lia|].
    destruct (Hsh k) as (fk & Hfk). destruct (Hsh p) as (fp & Hfp).
    destruct (Hrest k ltac:(lia)) as (_ & Hvel & Hrot).
    set (F' := add_force_vec
                 (add_force_vec (force (link s' k))
                    (multiply_motion_vec (inertia (nth k m default_params))
                                         (acc (link s' k))))
                 (cross_force_vec (vel (link s' k))
                    (multiply_motion_vec (inertia (nth k m default_params))
                                         (vel (link s' k))))).
    eexists. split; [reflexivity|].
    split; [now rewrite !length_set_nth|]. split.
    + intros i. rewrite !link_set_nth by (rewrite ?length_set_nth; lia).
      destruct (Nat.eqb_spec i p) as [->|_].
      { eexists. rewrite Hfp. reflexivity. }
      destruct (Nat.eqb_spec i k) as [->|_]; [|apply Hsh].
      eexists. rewrite Hfk. reflexivity.
    + intros b jb Hb0 Hb. rewrite <- (Hvw b jb Hb0 Hb).
      apply Rminus_diag_uniq. rewrite <- sum_links_minus.
      assert (Hacc : acc (link s' k) = acc (link s k)) by (now rewrite Hfk).
      assert (Hvel' : vel (link s' k) = motion_zero) by (now rewrite Hfk).
      assert (Hjp : joint_pose (set_force (link s' k) F') = joint_pose (link s k))
        by (now rewrite Hfk).
      assert (HF' : forall c, motion_dot_force c F'
                              = motion_dot_force c (force (link s' k))
                                + motion_dot_force c (Ia k)).
      { intros c. unfold F', Ia. rewrite Hvel', Hacc, !dot_add_force.
        rewrite dot_cross_force_rest. ring. }
      assert (Hoff : forall j, (1 <= j < length m)%nat -> j <> k -> j <> p ->
                T k (set_nth (set_nth s' k (set_force (link s' k) F')) p
                       (set_force (link s' p)
                          (add_force_vec (force (link s' p))
                             (force_transform (force (set_force (link s' k) F'))
                                (joint_pose (set_force (link s' k) F'))))))
                  b jb j
                - T (S k) s' b jb j = 0).
      { intros j Hj Hjk Hjp'. unfold T.
        rewrite !link_set_nth by (rewrite ?length_set_nth; lia).
        destruct (Nat.eqb_spec j p); [contradiction|].
        destruct (Nat.eqb_spec j k); [contradiction|].
        destruct (Nat.ltb_spec j k), (Nat.ltb_spec j (S k)); try lia; ring. }
      assert (Hk' : T k (set_nth (set_nth s' k (set_force (link s' k) F')) p
                       (set_force (link s' p)
                          (add_force_vec (force (link s' p))
                             (force_transform (force (set_force (link s' k) F'))
                                (joint_pose (set_force (link s' k) F'))))))
                  b jb k
                - T (S k) s' b jb k
                = - motion_dot_force
                      (motion_transform (b p) (inverse (joint_pose (link s k))))
                      F').
      { unfold T. rewrite !link_set_nth by (rewrite ?length_set_nth; lia).
        destruct (Nat.eqb_spec k p); [lia|]. rewrite Nat.eqb_refl, Nat.ltb_irrefl.
        replace (Nat.ltb k (S k)) with true by (symmetry; apply Nat.ltb_lt; lia).
        cbn [force set_force]. rewrite (Hb k p Hk Hpar).
        rewrite dot_add_motion, !dot_add_force, !HF'.
        fold (Ia k). ring. }
      destruct (Nat.eq_dec p 0) as [->|Hp0].
      * rewrite (sum_links_one 1 (length m) k) by
          (try lia; intros j Hj Hne; apply Hoff; lia).
        rewrite Hk', Hb0, motion_transform_zero, dot_motion_zero. ring.
      * rewrite (sum_links_two 1 (length m) p k) by
          (try lia; intros j Hj Hne Hne'; apply Hoff; lia).
        rewrite Hk'. unfold T.
        rewrite !link_set_nth by (rewrite ?length_set_nth; lia).
        rewrite Nat.eqb_refl.
        replace (Nat.ltb p k) with true by (symmetry; apply Nat.ltb_lt; lia).
        replace (Nat.ltb p (S k)) with true by (symmetry; apply Nat.ltb_lt; lia).
        rewrite Hjp. cbn [force set_force].
        rewrite !dot_add_force, (dot_force_transform _ _ _ Hrot). ring.
  - split; [exact Hl|]. split.
    + intros i. exists (force (link s i)). destruct (link s i); reflexivity.
    + intros b jb _ _. apply sum_links_ext. intros i Hi. unfold T.
      replace (Nat.ltb i (length m)) with true by (symmetry; apply Nat.ltb_lt; lia).
      destruct (Hrest i ltac:(lia)) as (-> & _).
      rewrite dot_add_force, dot_force_zero. ring.
  - exists s'. split; [exact Hrun|]. split; [exact Hl'|]. split; [exact Hsh|].
    intros b jb Hb0 Hb.
    transitivity (sum_links 1 (length m) (T 1%nat s' b jb));
      [|exact (Hvw b jb Hb0 Hb)].
    apply sum_links_ext. intros i Hi. unfold T.
    destruct (Nat.ltb_spec i 1); [lia|reflexivity].
Qed.
Lemma joint_update_fields (m : robot) (q : list R) (s : row_state) (i : nat) :
  settled m s -> (i < length m)%nat ->
  joint_pose (joint_update m q (map (fun _ => 0) q) i (link s i)) = joint_frame_at m q i
  /\ joint_vel (joint_update m q (map (fun _ => 0) q) i (link s i)) = motion_zero
  /\ joint_acc (joint_update m q (map (fun _ => 0) q) i (link s i))
     = joint_acc (link s i).
Proof.
  intros (Hl & Hbase & Hfix) Hi. unfold joint_update, joint_frame_at, joint_value.
  destruct (joint_idx m i) as [k|] eqn:Ej.
  - cbn. rewrite nth_zeros, vscale_0. auto.
  - destruct (Hfix i Hi (joint_idx_none_fixed m i Hi Ej)) as (Hjp & Hjv & Hja).
    destruct (Nat.ltb i (controlled_link m 0)); cbn; [|auto].
    rewrite vscale_0. auto.
Qed.

Lemma joint_force_projection (m : robot) (s : row_state) (k : nat) :
  (k < n_dofs m)%nat -> length s = length m ->
  coordinate_axis (controlled_axis m k) ->
  joint_force m s k
  = Ok (vdot (fang (force (link s (controlled_link m k)))) (controlled_axis m k)).
Proof.
  intros Hk Hl [[a Ha] Hu]. unfold joint_force.
  pose proof (controlled_link_lt m k Hk) as Hidx.
  rewrite (py_nth_ok (controlled_joints m) k 0%nat Hk). cbn [res_bind].
  fold (controlled_link m k).
  rewrite (py_nth_ok m _ default_params Hidx). cbn [res_bind].
  rewrite (py_nth_ok s _ default_body) by lia. cbn [res_bind].
  fold (controlled_axis m k). rewrite Ha. cbn [res_bind].
  rewrite (axis_vector_unit _ _ Ha Hu). f_equal. unfold link. ring.
Qed.

Lemma mbind_run {A B} (c : M A) (k : A -> M B) (s s' : row_state) (a : A) :
  c s = (Ok a, s') -> mbind c k s = k a s'.
Proof. intros H. unfold mbind. now rewrite H. Qed.

(** One row of [compute_inverse_dynamics] at rest. *)
Lemma inverse_dynamics_row_at_rest (m : robot) (g d : bool) (q x : list R)
  (s : row_state) :
  tree_order m = true -> (0 < n_dofs m)%nat ->
  (forall k, (k < n_dofs m)%nat -> coordinate_axis (controlled_axis m k)) ->
  (forall p v, In p m -> is_rotation (rotation (joint_pose_of p v))) ->
  length q = n_dofs m -> length x = n_dofs m -> settled m s ->
  exists tau s',
    inverse_dynamics_row m g d (q, map (fun _ => 0) q, x) s = (Ok tau, s')
    /\ settled m s'
    /\ newton_euler_at_rest m q x g tau.
Proof.
  intros Ht Hn Hax Hrot Hq Hx Hs.
  assert (Hlen : (0 < length m)%nat) by (pose proof (controlled_link_lt m 0 Hn); lia).
  assert (Hl : length s = length m) by apply Hs.
  (* the kinematic state *)
  destruct (update_kinematic_state_row_ok m q (map (fun _ => 0) q) s Ht Hn Hq
              ltac:(now rewrite length_map) Hl) as (s1 & Hrun1 & Hpost).
  pose proof (kinematic_post_settled _ _ _ _ _ Hpost Hs) as Hs1.
  destruct Hpost as (Hl1 & Hsh1 & Hp1 & Hv1 & Hrel1).
  assert (Hvel1 : forall i, (i < length m)%nat -> vel (link s1 i) = motion_zero).
  { induction i as [i IH] using lt_wf_ind. intros Hi.
    destruct (Nat.eq_dec i 0) as [->|Hi0]; [exact Hv1|].
    destruct (Hrel1 i ltac:(lia)) as (j & _ & Hj & _ & Hv).
    rewrite Hv, (IH j Hj ltac:(lia)), motion_transform_zero, add_motion_zero_r.
    destruct (Hsh1 i Hi) as (y & v & ->). cbn.
    apply (joint_update_fields m q s i Hs Hi). }
  assert (Hj1 : forall i, (i < length m)%nat ->
            joint_pose (link s1 i) = joint_frame_at m q i
            /\ joint_vel (link s1 i) = motion_zero
            /\ joint_acc (link s1 i) = joint_acc (link s i)).
  { intros i Hi. destruct (Hsh1 i Hi) as (y & v & ->). cbn.
    apply (joint_update_fields m q s i Hs Hi). }
  (* the accelerations of the joints *)
  destruct (joint_acc_stage m x s1 Hx Hl1) as (s2 & Hrun2 & Hl2 & Hsh2).
  (* Newton-Euler *)
  set (s2' := set_nth s2 0 (set_acc (link s2 0) (base_acceleration g))).
  assert (Hl2' : length s2' = length m) by (unfold s2'; now rewrite length_set_nth).
  assert (Hsh2' : forall i, link s2' i
                            = if Nat.eqb i 0
                              then set_acc (link s2 0) (base_acceleration g)
                              else link s2 i).
  { intros i. unfold s2'. rewrite link_set_nth by lia. reflexivity. }
  destruct (acc_stage m s2' Ht Hlen Hl2') as (s3 & Hrun3 & Hl3 & Hb3 & Hsh3 & Hrel3).
  destruct (reset_stage m s3 Hl3) as (s4 & Hrun4 & Hl4 & Hsh4).
  assert (H2' : forall i, (i < length m)%nat ->
            joint_pose (link s2' i) = joint_frame_at m q i
            /\ joint_vel (link s2' i) = motion_zero
            /\ vel (link s2' i) = motion_zero
            /\ joint_acc (link s2' i) = joint_acc_at m x i
            /\ pose (link s2' i) = pose (link s1 i)).
  { intros i Hi. destruct (Hj1 i Hi) as (Hjp & Hjv & Hja).
    pose proof (Hvel1 i Hi) as Hv.
    assert (Hja' : joint_acc (link s2 i) = joint_acc_at m x i).
    { rewrite Hsh2. unfold joint_acc_at.
      destruct (joint_idx m i) as [k|] eqn:Ej; [reflexivity|].
      rewrite Hja. apply Hs; [exact Hi|]. now apply joint_idx_none_fixed. }
    assert (H2 : joint_pose (link s2 i) = joint_pose (link s1 i)
                 /\ joint_vel (link s2 i) = joint_vel (link s1 i)
                 /\ vel (link s2 i) = vel (link s1 i)
                 /\ pose (link s2 i) = pose (link s1 i)).
    { rewrite Hsh2. destruct (joint_idx m i); repeat split. }
    destruct H2 as (E1 & E2 & E3 & E4).
    rewrite Hsh2'. destruct (Nat.eqb_spec i 0) as [->|_]; cbn;
      rewrite ?E1, ?E2, ?E3, ?E4, ?Hja'; auto. }
  destruct (force_stage m s4 Ht Hlen Hl4) as (s5 & Hrun5 & Hl5 & Hsh5 & Hvw).
  { intros i Hi. rewrite (Hsh4 i Hi). destruct (Hsh3 i) as (a & ->).
    destruct (H2' i Hi) as (Hjp & _ & Hv & _). cbn. split; [reflexivity|].
    split; [exact Hv|]. rewrite Hjp. apply Hrot, nth_In, Hi. }
  assert (H5 : forall i, (i < length m)%nat ->
            joint_pose (link s5 i) = joint_pose (link s2' i)
            /\ joint_vel (link s5 i) = joint_vel (link s2' i)
            /\ joint_acc (link s5 i) = joint_acc (link s2' i)
            /\ pose (link s5 i) = pose (link s2' i)
            /\ acc (link s5 i) = acc (link s3 i)
            /\ joint_pose (link s4 i) = joint_pose (link s2' i)
            /\ acc (link s4 i) = acc (link s3 i)).
  { intros i Hi. destruct (Hsh5 i) as (f & ->). rewrite (Hsh4 i Hi).
    destruct (Hsh3 i) as (a & ->). repeat split. }
  (* the projections *)
  set (tq := fun k => vdot (fang (force (link s5 (controlled_link m k))))
                           (controlled_axis m k)).
  assert (Hforce : res_map (joint_force m s5) (range 0 (length x))
                   = Ok (map tq (range 0 (length x)))).
  { apply res_map_ok. intros k Hk. unfold range in Hk. apply in_seq in Hk.
    apply joint_force_projection; [lia|exact Hl5|apply Hax; lia]. }
  set (tau := if d then map2 Rplus (map tq (range 0 (length x)))
                             (map2 Rmult (damping_of m) (map (fun _ => 0) q))
              else map tq (range 0 (length x))).
  exists tau, s5. split; [|split].
  - assert (HINE : iterative_newton_euler_row m (base_acceleration g) s2 = (Ok tt, s5)).
    { unfold iterative_newton_euler_row.
      rewrite mbind_get by lia. rewrite mbind_put. fold s2'.
      rewrite (mbind_run _ _ _ _ _ Hrun3), (mbind_run _ _ _ _ _ Hrun4).
      exact Hrun5. }
    unfold inverse_dynamics_row.
    rewrite (mbind_run _ _ _ _ _ Hrun1), (mbind_run _ _ _ _ _ Hrun2),
      (mbind_run _ _ _ _ _ HINE).
    unfold mbind at 1. rewrite Hforce.
    unfold tau. destruct d; [|reflexivity].
    rewrite (mbind_lift _ _ _ _ (damping_const_ok m)). reflexivity.
  - split; [exact Hl5|]. split.
    + destruct (H5 0%nat Hlen) as (_ & _ & _ & -> & _).
      destruct (H2' 0%nat Hlen) as (_ & _ & _ & _ & ->). apply Hs1.
    + intros i Hi Hf. destruct (H5 i Hi) as (-> & -> & -> & _).
      destruct (H2' i Hi) as (-> & -> & _ & -> & _).
      split; [|split; [reflexivity|]].
      * unfold joint_frame_at, joint_value.
        destruct (joint_idx m i) as [k|] eqn:Ej; [|reflexivity].
        apply joint_idx_some_movable in Ej. congruence.
      * unfold joint_acc_at.
        destruct (joint_idx m i) as [k|] eqn:Ej; [|reflexivity].
        apply joint_idx_some_movable in Ej. congruence.
  - exists (fun i => acc (link s3 i)), (fun i => force (link s5 i)).
    split; [|split; [|split; [|split]]].
    + rewrite Hb3, Hsh2'. reflexivity.
    + intros i p Hi Hpar. destruct (Hrel3 i Hi) as (j & Hpar' & _ & Hacc).
      assert (j = p) by congruence. subst j. rewrite Hacc.
      destruct (H2' i ltac:(lia)) as (-> & -> & -> & -> & _).
      rewrite cross_motion_zero_l, add_motion_zero_r. reflexivity.
    + intros b jb Hb0 Hb.
      rewrite (Hvw b jb Hb0).
      * apply sum_links_ext. intros i Hi.
        destruct (H5 i ltac:(lia)) as (_ & _ & _ & _ & _ & _ & ->). reflexivity.
      * intros i p Hi Hpar. destruct (H5 i ltac:(lia)) as (_ & _ & _ & _ & _ & -> & _).
        destruct (H2' i ltac:(lia)) as (-> & _). exact (Hb i p Hi Hpar).
    + unfold tau. destruct d.
      * rewrite map2_length, length_map. unfold range. rewrite length_seq.
        rewrite map2_length, damping_of_length, length_map. lia.
      * rewrite length_map. unfold range. rewrite length_seq. lia.
    + intros k Hk.
      assert (Htq : nth k (map tq (range 0 (length x))) 0 = tq k).
      { rewrite (nth_map_lt tq _ _ 0 0%nat) by (unfold range; rewrite length_seq; lia).
        unfold range. rewrite seq_nth by lia. reflexivity. }
      unfold tau. destruct d; [|exact Htq].
      rewrite (nth_map2 _ _ _ _ 0 0).
      * rewrite Htq. rewrite (nth_map2 _ _ _ _ 0 0)
          by (rewrite ?damping_of_length, ?length_map; lia).
        rewrite nth_zeros. unfold tq. ring.
      * rewrite length_map. unfold range. rewrite length_seq. lia.
      * rewrite map2_length, damping_of_length, length_map. lia.
Qed.
(** ** A matrix of inertial work is symmetric and positive semidefinite *)

Lemma inertia_form_symmetric (I : Inertia) (a b : SpatialMotionVec) :
  symmetric3 (inertia_mat I) ->
  motion_dot_force a (multiply_motion_vec I b)
  = motion_dot_force b (multiply_motion_vec I a).
Proof.
  intros Hs. destruct I as [ms cm Ic], Ic. unfold symmetric3 in Hs.
  cbn [inertia_mat m01 m10 m02 m20 m12 m21] in Hs.
  destruct Hs as (-> & -> & ->). mat_crush. ring.
Qed.

Lemma inertia_form_nonneg (I : Inertia) (a : SpatialMotionVec) :
  0 <= mass I -> psd3 (inertia_mat I) ->
  0 <= motion_dot_force a (multiply_motion_vec I a).
Proof.
  intros Hm Hp. rewrite inertia_energy. apply Rplus_le_le_0_compat; [|apply Hp].
  apply Rmult_le_pos; [exact Hm|].
  destruct (vsub (lin a) (cross_product (com I) (ang a))) as [x y z].
  unfold vdot. simpl. nra.
Qed.

Lemma dot_motion_comb (l : list nat) (x : nat -> R) (D : nat -> SpatialMotionVec)
  (f : SpatialForceVec) :
  motion_dot_force (motion_comb l x D) f
  = lsum (map (fun k => x k * motion_dot_force (D k) f) l).
Proof.
  induction l as [|k l IH]; simpl.
  - apply dot_motion_zero.
  - rewrite dot_add_motion, IH. unfold lsum. simpl. f_equal.
    generalize (D k). intros a. unfold motion_multiply. mat_crush. ring.
Qed.

Lemma inertia_motion_comb (I : Inertia) (b : SpatialMotionVec) (l : list nat)
  (x : nat -> R) (D : nat -> SpatialMotionVec) :
  motion_dot_force b (multiply_motion_vec I (motion_comb l x D))
  = lsum (map (fun j => x j * motion_dot_force b (multiply_motion_vec I (D j))) l).
Proof.
  induction l as [|k l IH]; simpl.
  - mat_crush. unfold lsum. simpl. ring.
  - unfold lsum in *. simpl. rewrite <- IH.
    generalize (D k) (motion_comb l x D). intros u v.
    unfold motion_multiply. mat_crush. ring.
Qed.

Lemma work_matrix_symmetric (m : robot) (n : nat)
  (D : nat -> nat -> SpatialMotionVec) (H : nat -> nat -> R) (k j : nat) :
  (forall p, In p m -> physical_inertia (inertia p)) ->
  work_matrix m n D H -> (k < n)%nat -> (j < n)%nat -> H k j = H j k.
Proof.
  intros Hin HW Hk Hj. rewrite (HW k j Hk Hj), (HW j k Hj Hk).
  apply sum_links_ext. intros i Hi. apply inertia_form_symmetric.
  apply Hin, nth_In. lia.
Qed.

Lemma work_matrix_psd (m : robot) (n : nat)
  (D : nat -> nat -> SpatialMotionVec) (H : nat -> nat -> R) (x : nat -> R) :
  (forall p, In p m -> physical_inertia (inertia p)) ->
  work_matrix m n D H ->
  0 <= sum_links 0 n (fun k => x k * sum_links 0 n (fun j => H k j * x j)).
Proof.
  intros Hin HW.
  set (G := fun i k j => motion_dot_force (D k i)
                           (multiply_motion_vec (inertia (nth i m default_params))
                                                (D j i))).
  assert (E : sum_links 0 n (fun k => x k * sum_links 0 n (fun j => H k j * x j))
              = sum_links 1 (length m)
                  (fun i => sum_links 0 n
                     (fun k => x k * sum_links 0 n (fun j => x j * G i k j)))).
  { transitivity (sum_links 0 n
                    (fun k => sum_links 1 (length m)
                       (fun i => x k * sum_links 0 n (fun j => x j * G i k j)))).
    - apply sum_links_ext. intros k Hk. rewrite sum_links_scale.
      apply (f_equal (Rmult (x k))).
      transitivity (sum_links 0 n
                      (fun j => sum_links 1 (length m) (fun i => x j * G i k j))).
      + apply sum_links_ext. intros j Hj. rewrite (HW k j) by lia.
        rewrite Rmult_comm, <- sum_links_scale. reflexivity.
      + exact (sum_links_swap 0 n 1 (length m) (fun j i => x j * G i k j)).
    - exact (sum_links_swap 0 n 1 (length m)
               (fun k i => x k * sum_links 0 n (fun j => x j * G i k j))). }
  rewrite E. apply sum_links_nonneg. intros i Hi.
  set (V := motion_comb (range 0 n) x (fun k => D k i)).
  assert (EV : sum_links 0 n (fun k => x k * sum_links 0 n (fun j => x j * G i k j))
               = motion_dot_force V
                   (multiply_motion_vec (inertia (nth i m default_params)) V)).
  { unfold V at 1. rewrite dot_motion_comb. unfold sum_links at 1. f_equal.
    apply map_ext. intros k. f_equal. unfold V.
    rewrite inertia_motion_comb. reflexivity. }
  rewrite EV. destruct (Hin (nth i m default_params)) as (_ & Hmass & Hpsd).
  { apply nth_In. lia. }
  apply inertia_form_nonneg; assumption.
Qed.
(** ** From the runs of inverse dynamics to the mass matrix *)

Lemma finite_choice {X} (dflt : X) (n : nat) (P : nat -> X -> Prop) :
  (forall j, (j < n)%nat -> exists x, P j x) ->
  exists f : nat -> X, forall j, (j < n)%nat -> P j (f j).
Proof.
  induction n as [|n IH]; intros H.
  - exists (fun _ => dflt). intros j Hj. lia.
  - destruct IH as (f & Hf); [intros j Hj; apply H; lia|].
    destruct (H n ltac:(lia)) as (x & Hx).
    exists (fun j => if Nat.eqb j n then x else f j). intros j Hj.
    destruct (Nat.eqb_spec j n) as [->|Hne]; [exact Hx|]. apply Hf. lia.
Qed.

Lemma nth_unit_row (n j k : nat) :
  (j < n)%nat -> nth k (unit_row n j) 0 = if Nat.eqb k j then 1 else 0.
Proof.
  intros Hj. unfold unit_row.
  destruct (Nat.lt_ge_cases k n) as [Hk|Hk].
  - rewrite (nth_map_lt _ _ _ 0 0%nat) by (rewrite length_seq; exact Hk).
    rewrite seq_nth by exact Hk. reflexivity.
  - rewrite nth_overflow by (rewrite length_map, length_seq; exact Hk).
    destruct (Nat.eqb_spec k j); [lia|reflexivity].
Qed.

Lemma sub_motion_diag (a : SpatialMotionVec) : sub_motion a a = motion_zero.
Proof. unfold sub_motion. mat_crush. struct_ring. Qed.

Lemma follows_tree_sub (m : robot) (q : list R)
  (a ja a' ja' : nat -> SpatialMotionVec) :
  follows_tree m q a ja -> follows_tree m q a' ja' ->
  follows_tree m q (fun i => sub_motion (a i) (a' i))
                   (fun i => sub_motion (ja i) (ja' i)).
Proof.
  intros H H' i p Hi Hpar. rewrite (H i p Hi Hpar), (H' i p Hi Hpar).
  generalize (inverse (joint_frame_at m q i)) (a p) (a' p) (ja i) (ja' i).
  intros t u u' v v'. unfold sub_motion. mat_crush. struct_ring.
Qed.

(** The share of joint [k] alone: its work on a force is the projection of
    the force on the axis, on the link of the joint, and nothing elsewhere. *)
Lemma unit_share_work (m : robot) (z : list R) (k i : nat) (F : SpatialForceVec) :
  (k < n_dofs m)%nat ->
  motion_dot_force
    (sub_motion (joint_acc_at m (unit_row (n_dofs m) k) i)
                (joint_acc_at m (map (fun _ => 0) z) i)) F
  = if Nat.eqb i (controlled_link m k)
    then vdot (fang F) (controlled_axis m k) else 0.
Proof.
  intros Hk. unfold joint_acc_at.
  destruct (joint_idx m i) as [k'|] eqn:Ej.
  - rewrite nth_unit_row by exact Hk. rewrite nth_zeros.
    pose proof (joint_idx_inv _ _ _ Ej) as [Hk' Hcl].
    destruct (Nat.eqb_spec k' k) as [->|Hne].
    + rewrite Hcl, Nat.eqb_refl. unfold controlled_axis. rewrite Hcl.
      generalize (joint_axis (nth i m default_params)). intros ax.
      unfold sub_motion. mat_crush. ring.
    + destruct (Nat.eqb_spec i (controlled_link m k)) as [->|_].
      * rewrite joint_idx_controlled in Ej by exact Hk. congruence.
      * generalize (joint_axis (nth i m default_params)). intros ax.
        unfold sub_motion. mat_crush. ring.
  - destruct (Nat.eqb_spec i (controlled_link m k)) as [->|_].
    + rewrite joint_idx_controlled in Ej by exact Hk. discriminate.
    + unfold sub_motion. mat_crush. ring.
Qed.

Lemma controlled_link_pos (m : robot) (k : nat) :
  is_fixed (nth 0 m default_params) = true -> (k < n_dofs m)%nat ->
  (1 <= controlled_link m k < length m)%nat.
Proof.
  intros Hbase Hk. split; [|now apply controlled_link_lt].
  destruct (controlled_link m k) eqn:E; [|lia].
  pose proof (joint_idx_controlled m k Hk) as Hj. rewrite E in Hj.
  apply joint_idx_some_movable in Hj. congruence.
Qed.

(** Without gravity, a row of zeros is what inverse dynamics at rest returns
    for zero accelerations. *)
Lemma newton_euler_zero (m : robot) (q : list R) :
  length q = n_dofs m ->
  newton_euler_at_rest m q (map (fun _ => 0) q) false (map (fun _ => 0) q).
Proof.
  intros Hq. exists (fun _ => motion_zero), (fun _ => force_zero).
  split; [reflexivity|]. split; [|split; [|split]].
  - intros i p Hi Hpar. rewrite motion_transform_zero, add_motion_zero_l.
    unfold joint_acc_at. destruct (joint_idx m i); [|reflexivity].
    now rewrite nth_zeros, vscale_0.
  - intros b jb _ _.
    rewrite !sum_links_zero; [reflexivity| |]; intros i Hi.
    + generalize (b i) (inertia (nth i m default_params)). intros u I.
      mat_crush. ring.
    + apply dot_force_zero.
  - now rewrite length_map.
  - intros k Hk. rewrite nth_zeros.
    generalize (controlled_axis m k). intros ax. mat_crush. ring.
Qed.

(** The columns of inverse dynamics at rest for the unit accelerations, less
    the column for no acceleration, are a matrix of inertial work. *)
Lemma unit_columns_work (m : robot) (q : list R) (g : bool)
  (tau : nat -> list R) (tau0 z : list R) :
  is_fixed (nth 0 m default_params) = true ->
  (forall j, (j < n_dofs m)%nat ->
     newton_euler_at_rest m q (unit_row (n_dofs m) j) g (tau j)) ->
  newton_euler_at_rest m q (map (fun _ => 0) z) g tau0 ->
  exists D, work_matrix m (n_dofs m) D
              (fun k j => nth k (tau j) 0 - nth k tau0 0).
Proof.
  intros Hbase Hcols (a0 & F0 & Ha0 & Hf0 & Hvw0 & _ & Ht0).
  destruct (finite_choice (fun _ : nat => motion_zero, fun _ : nat => force_zero)
              (n_dofs m)
              (fun j aF =>
                 fst aF 0%nat = base_acceleration g
                 /\ follows_tree m q (fst aF) (joint_acc_at m (unit_row (n_dofs m) j))
                 /\ (forall b jb, b 0%nat = motion_zero -> follows_tree m q b jb ->
                       sum_links 1 (length m)
                         (fun i => motion_dot_force (jb i) (snd aF i))
                       = sum_links 1 (length m)
                           (fun i => motion_dot_force (b i)
                              (multiply_motion_vec (inertia (nth i m default_params))
                                                   (fst aF i))))
                 /\ forall k, (k < n_dofs m)%nat ->
                      nth k (tau j) 0
                      = vdot (fang (snd aF (controlled_link m k)))
                             (controlled_axis m k)))
    as (aF & HaF).
  { intros j Hj. destruct (Hcols j Hj) as (a & F & H1 & H2 & H3 & _ & H5).
    exists (a, F). auto. }
  set (D := fun j i => sub_motion (fst (aF j) i) (a0 i)).
  exists D. intros k j Hk Hj.
  destruct (HaF k Hk) as (Hak & Hfk & _ & _).
  destruct (HaF j Hj) as (_ & _ & Hvwj & Htj).
  set (jb := fun i => sub_motion (joint_acc_at m (unit_row (n_dofs m) k) i)
                                 (joint_acc_at m (map (fun _ => 0) z) i)).
  assert (HD0 : D k 0%nat = motion_zero).
  { unfold D. rewrite Hak, Ha0. apply sub_motion_diag. }
  assert (HDf : follows_tree m q (D k) jb) by (apply follows_tree_sub; assumption).
  assert (Hshare : forall F : nat -> SpatialForceVec,
            sum_links 1 (length m) (fun i => motion_dot_force (jb i) (F i))
            = vdot (fang (F (controlled_link m k))) (controlled_axis m k)).
  { intros F. pose proof (controlled_link_pos m k Hbase Hk) as Hpos.
    rewrite (sum_links_one 1 (length m) (controlled_link m k)).
    - unfold jb. rewrite unit_share_work by exact Hk. now rewrite Nat.eqb_refl.
    - exact Hpos.
    - intros i Hi Hne. unfold jb. rewrite unit_share_work by exact Hk.
      destruct (Nat.eqb_spec i (controlled_link m k)); [contradiction|reflexivity]. }
  rewrite (Htj k Hk), (Ht0 k Hk).
  rewrite <- (Hshare (snd (aF j))), <- (Hshare F0).
  rewrite (Hvwj (D k) jb HD0 HDf), (Hvw0 (D k) jb HD0 HDf).
  rewrite <- sum_links_minus. apply sum_links_ext. intros i Hi.
  rewrite <- inertia_sub_motion. reflexivity.
Qed.
Lemma sum_links_shift (lo hi : nat) (f : nat -> R) :
  sum_links (S lo) (S hi) f = sum_links lo hi (fun i => f (S i)).
Proof.
  unfold sum_links, range. simpl. rewrite <- seq_shift, map_map. reflexivity.
Qed.

Lemma ldot_sum (a b : list R) :
  length a = length b ->
  ldot a b = sum_links 0 (length a) (fun k => nth k a 0 * nth k b 0).
Proof.
  revert b. induction a as [|x a IH]; intros [|y b] H; simpl in H; try discriminate.
  - reflexivity.
  - cbn [length]. rewrite sum_links_first by lia. rewrite sum_links_shift.
    cbn [nth]. rewrite <- IH by lia. reflexivity.
Qed.

(** A square matrix whose entries are a matrix of inertial work. *)
Lemma work_matrix_rows (m : robot) (n : nat) (A : list (list R))
  (D : nat -> nat -> SpatialMotionVec) :
  (forall p, In p m -> physical_inertia (inertia p)) ->
  length A = n -> (forall k, (k < n)%nat -> length (nth k A []) = n) ->
  work_matrix m n D (fun k j => nth j (nth k A []) 0) ->
  mat_symmetric n A /\ mat_psd n A.
Proof.
  intros Hin HA Hrows HW. split.
  - intros i j Hi Hj.
    exact (work_matrix_symmetric m n D _ i j Hin HW Hi Hj).
  - intros x Hx.
    assert (Hlv : length (lmat_vec A x) = n) by (unfold lmat_vec; now rewrite length_map).
    rewrite ldot_sum by lia. rewrite Hx.
    rewrite (sum_links_ext 0 n _
               (fun k => nth k x 0
                         * sum_links 0 n (fun j => nth j (nth k A []) 0 * nth j x 0))).
    + exact (work_matrix_psd m n D _ (fun k => nth k x 0) Hin HW).
    + intros k Hk. f_equal. unfold lmat_vec.
      rewrite (nth_map_lt _ _ _ 0 []) by lia.
      rewrite ldot_sum by (rewrite Hrows; lia). rewrite Hrows by lia. reflexivity.
Qed.

Lemma Forall_nth_lt {A} (P : A -> Prop) (l : list A) (d : A) :
  (forall b, (b < length l)%nat -> P (nth b l d)) -> Forall P l.
Proof.
  intros H. apply Forall_forall. intros x Hx.
  apply (In_nth _ _ d) in Hx. destruct Hx as (b & Hb & <-). now apply H.
Qed.

Lemma nth_repeat_lt {A} (x d : A) (n b : nat) :
  (b < n)%nat -> nth b (repeat x n) d = x.
Proof.
  revert b. induction n as [|n IH]; intros [|b] H; simpl; try lia; [reflexivity|].
  apply IH. lia.
Qed.

Lemma rows_have_repeat (n B : nat) (r : list R) :
  length r = n -> rows_have n (repeat r B) = true.
Proof.
  intros H. unfold rows_have. apply forallb_forall. intros x Hx.
  apply repeat_spec in Hx. subst. now apply Nat.eqb_eq.
Qed.

Lemma nth_zeros_like (qr : list (list R)) (b : nat) :
  nth b (zeros_like qr) [] = map (fun _ => 0) (nth b qr []).
Proof.
  unfold zeros_like.
  change (@nil R) with (map (fun _ : R => 0) (@nil R)) at 1.
  apply map_nth.
Qed.

(** A batch of [compute_inverse_dynamics] at rest. *)
Lemma inverse_dynamics_batch_at_rest (m : robot) (qr xr : list (list R))
  (g d : bool) (st : state) :
  tree_order m = true -> (0 < n_dofs m)%nat ->
  (forall k, (k < n_dofs m)%nat -> coordinate_axis (controlled_axis m k)) ->
  (forall p v, In p m -> is_rotation (rotation (joint_pose_of p v))) ->
  rows_have (n_dofs m) qr = true -> rows_have (n_dofs m) xr = true ->
  length qr = length xr -> Forall (settled m) st ->
  exists l st',
    compute_inverse_dynamics_impl m (T2 qr) (T2 (zeros_like qr)) (T2 xr) g d st
    = (Ok (RTensor (T2 l)), st')
    /\ Forall (settled m) st'
    /\ length l = length qr
    /\ forall b, (b < length qr)%nat ->
         newton_euler_at_rest m (nth b qr []) (nth b xr []) g (nth b l []).
Proof.
  intros Ht Hn Hax Hrot Hq Hx Hlen Hst.
  assert (Hz : length qr = length (zeros_like qr))
    by (unfold zeros_like; now rewrite length_map).
  assert (Hc3 : length (combine3 qr (zeros_like qr) xr) = length qr)
    by (apply combine3_length; assumption).
  destruct (run_batch_ok m (inverse_dynamics_row m g d)
              (combine3 qr (zeros_like qr) xr) st ([], [], []) []
              (fun b tau s' =>
                 settled m s'
                 /\ newton_euler_at_rest m (nth b qr []) (nth b xr []) g tau))
    as (l & st' & Hrun & Hl & Hlst & Hrows).
  { intros b Hb. rewrite Hc3 in Hb.
    rewrite combine3_nth by assumption. rewrite nth_zeros_like.
    destruct (inverse_dynamics_row_at_rest m g d (nth b qr []) (nth b xr [])
                (brow m st b) Ht Hn Hax Hrot)
      as (tau & s' & H1 & H2 & H3).
    - now apply rows_have_nth.
    - apply rows_have_nth; [assumption|lia].
    - apply (brow_settled m st b (settled m)); [apply settled_construction|exact Hst].
    - eauto. }
  exists l, st'. split; [|split; [|split]].
  - unfold compute_inverse_dynamics_impl, dynamics_checks.
    rewrite (kinematic_checks_zeros m qr Hq), Hx.
    replace (Nat.eqb (length qr) (length xr)) with true
      by (symmetry; apply Nat.eqb_eq; exact Hlen).
    cbn [andb]. rewrite Hrun. reflexivity.
  - apply (Forall_nth_lt _ _ []). intros b Hb. apply Hrows.
    apply (Nat.lt_le_trans _ _ _ Hb). apply Nat.eq_le_incl. exact Hlst.
  - etransitivity; [exact Hl|exact Hc3].
  - intros b Hb. apply Hrows. now rewrite Hc3.
Qed.
Lemma newton_euler_length (m : robot) (q x : list R) (g : bool) (tau : list R) :
  newton_euler_at_rest m q x g tau -> length tau = n_dofs m.
Proof. intros (a & F & _ & _ & _ & H & _). exact H. Qed.

(** The inverse-dynamics calls of the list comprehension. *)
Lemma inertia_columns_at_rest (m : robot) (qr : list (list R)) (g d : bool)
  (grav : list (list R)) (js : list nat) (st : state) :
  tree_order m = true -> (0 < n_dofs m)%nat ->
  (forall k, (k < n_dofs m)%nat -> coordinate_axis (controlled_axis m k)) ->
  (forall p v, In p m -> is_rotation (rotation (joint_pose_of p v))) ->
  rows_have (n_dofs m) qr = true ->
  (forall j, In j js -> (j < n_dofs m)%nat) -> Forall (settled m) st ->
  exists cols st',
    inertia_columns m qr g d grav js st = (Ok cols, st')
    /\ Forall (settled m) st'
    /\ length cols = length js
    /\ forall t, (t < length js)%nat ->
         exists l, nth t cols [] = rows_sub l grav
                   /\ length l = length qr
                   /\ forall b, (b < length qr)%nat ->
                        newton_euler_at_rest m (nth b qr [])
                          (unit_row (n_dofs m) (nth t js 0%nat)) g (nth b l []).
Proof.
  intros Ht Hn Hax Hrot Hq. revert st.
  induction js as [|j js IH]; intros st Hjs Hst.
  - exists [], st. split; [reflexivity|]. split; [exact Hst|].
    split; [reflexivity|]. intros t Hlt. simpl in Hlt. lia.
  - destruct (inverse_dynamics_batch_at_rest m qr
                (unit_rows (length qr) (n_dofs m) j) g d st Ht Hn Hax Hrot Hq)
      as (l & st1 & Hrun & Hst1 & Hl & Hrows).
    { apply rows_have_repeat. unfold unit_row.
      now rewrite length_map, length_seq. }
    { unfold unit_rows. now rewrite repeat_length. }
    { exact Hst. }
    destruct (IH st1) as (cols & st2 & Hrun2 & Hst2 & Hlc & Hcols).
    { intros j' Hj'. apply Hjs. now right. }
    { exact Hst1. }
    exists (rows_sub l grav :: cols), st2.
    split; [|split; [|split]].
    + cbn [inertia_columns]. rewrite Hrun, Hrun2. reflexivity.
    + exact Hst2.
    + simpl. now rewrite Hlc.
    + intros [|t] Hlt.
      * exists l. split; [reflexivity|]. split; [exact Hl|].
        intros b Hb. specialize (Hrows b Hb).
        unfold unit_rows in Hrows. rewrite nth_repeat_lt in Hrows by exact Hb.
        exact Hrows.
      * simpl in Hlt. apply (Hcols t). lia.
Qed.

Lemma nth_stack_dim2 (B n : nat) (cols : list (list (list R))) (b k j : nat) :
  (b < B)%nat -> (k < n)%nat ->
  nth j (nth k (nth b (stack_dim2 B n cols) []) []) 0
  = nth k (nth b (nth j cols []) []) 0.
Proof.
  intros Hb Hk. unfold stack_dim2.
  rewrite (nth_map_lt _ _ _ [] 0%nat) by (rewrite length_seq; exact Hb).
  rewrite seq_nth by exact Hb.
  rewrite (nth_map_lt _ _ _ [] 0%nat) by (rewrite length_seq; exact Hk).
  rewrite seq_nth by exact Hk. cbn [Nat.add].
  destruct (Nat.lt_ge_cases j (length cols)) as [Hj|Hj].
  - rewrite (nth_map_lt _ _ _ 0 []) by exact Hj. reflexivity.
  - rewrite (nth_overflow (map _ cols)) by (rewrite length_map; exact Hj).
    rewrite (nth_overflow cols) by exact Hj.
    destruct b, k; reflexivity.
Qed.

(** What [compute_lagrangian_inertia_matrix] returns: entry [k], [j] of the
    matrix of a row is torque [k] of inverse dynamics at rest for the unit
    acceleration of joint [j], less torque [k] for no acceleration. *)
Lemma lagrangian_inertia_matrix_entries
  (m : robot) (qr : list (list R)) (g d : bool) (st : state) :
  well_formed m -> rows_have (n_dofs m) qr = true -> Forall (settled m) st ->
  exists Hs st',
    compute_lagrangian_inertia_matrix_impl m (T2 qr) g d st
    = (Ok (RTensor (T3 Hs)), st')
    /\ Forall (settled m) st'
    /\ length Hs = length qr
    /\ forall b, (b < length qr)%nat ->
         length (nth b Hs []) = n_dofs m
         /\ (forall k, (k < n_dofs m)%nat -> length (nth k (nth b Hs []) []) = n_dofs m)
         /\ exists (tau : nat -> list R) (tau0 : list R),
              (forall j, (j < n_dofs m)%nat ->
                 newton_euler_at_rest m (nth b qr []) (unit_row (n_dofs m) j) g (tau j))
              /\ newton_euler_at_rest m (nth b qr [])
                   (map (fun _ => 0) (nth b qr [])) g tau0
              /\ forall k j, (k < n_dofs m)%nat -> (j < n_dofs m)%nat ->
                   nth j (nth k (nth b Hs []) []) 0
                   = nth k (tau j) 0 - nth k tau0 0.
Proof.
  intros (Ht & Hbase & Hn & Hax & Hrot & Hin) Hq Hst.
  (* the baseline *)
  assert (Hgrav : exists grav st1,
            (if g
             then match compute_inverse_dynamics_impl m (T2 qr) (T2 (zeros_like qr))
                          (T2 (zeros_like qr)) g d st with
                  | (Ok (RTensor (T2 g0)), st1) => (Ok g0, st1)
                  | (Ok _, st1) => (Raise TypeError, st1)
                  | (Raise e, st1) => (Raise e, st1)
                  end
             else (Ok (zeros_like qr), st)) = (Ok grav, st1)
            /\ Forall (settled m) st1
            /\ length grav = length qr
            /\ forall b, (b < length qr)%nat ->
                 newton_euler_at_rest m (nth b qr [])
                   (map (fun _ => 0) (nth b qr [])) g (nth b grav [])).
  { destruct g.
    - destruct (inverse_dynamics_batch_at_rest m qr (zeros_like qr) true d st
                  Ht Hn Hax Hrot Hq)
        as (l & st1 & Hrun & Hst1 & Hl & Hrows).
      { now rewrite rows_have_zeros_like. }
      { unfold zeros_like. now rewrite length_map. }
      { exact Hst. }
      exists l, st1. rewrite Hrun. split; [reflexivity|]. split; [exact Hst1|].
      split; [exact Hl|]. intros b Hb. specialize (Hrows b Hb).
      now rewrite nth_zeros_like in Hrows.
    - exists (zeros_like qr), st. split; [reflexivity|]. split; [exact Hst|].
      split; [unfold zeros_like; now rewrite length_map|].
      intros b Hb. rewrite nth_zeros_like. apply newton_euler_zero.
      now apply rows_have_nth. }
  destruct Hgrav as (grav & st1 & Hgrun & Hst1 & Hlg & Hgrows).
  (* the columns *)
  destruct (inertia_columns_at_rest m qr g d grav (range 0 (n_dofs m)) st1
              Ht Hn Hax Hrot Hq)
    as (cols & st2 & Hcrun & Hst2 & Hlc & Hcols).
  { intros j Hj. unfold range in Hj. apply in_seq in Hj. lia. }
  { exact Hst1. }
  assert (Hlr : length (range 0 (n_dofs m)) = n_dofs m)
    by (unfold range; rewrite length_seq; lia).
  rewrite Hlr in Hlc, Hcols.
  exists (stack_dim2 (length qr) (n_dofs m) cols), st2.
  split; [|split; [exact Hst2|split]].
  - unfold compute_lagrangian_inertia_matrix_impl. rewrite Hq.
    rewrite Hgrun, Hcrun. cbn [res_bind].
    destruct (Nat.eqb_spec (length cols) 0) as [E|_]; [lia|]. reflexivity.
  - unfold stack_dim2. now rewrite length_map, length_seq.
  - intros b Hb.
    destruct (finite_choice (@nil (list R)) (n_dofs m)
                (fun j l => nth j cols [] = rows_sub l grav
                            /\ length l = length qr
                            /\ forall b, (b < length qr)%nat ->
                                 newton_euler_at_rest m (nth b qr [])
                                   (unit_row (n_dofs m) j) g (nth b l [])))
      as (lf & Hlf).
    { intros j Hj. destruct (Hcols j Hj) as (l & H1 & H2 & H3).
      exists l. split; [exact H1|]. split; [exact H2|].
      intros b' Hb'. specialize (H3 b' Hb').
      unfold range in H3. rewrite seq_nth in H3 by lia. exact H3. }
    split; [|split].
    + unfold stack_dim2.
      rewrite (nth_map_lt _ _ _ [] 0%nat) by (rewrite length_seq; exact Hb).
      now rewrite length_map, length_seq.
    + intros k Hk. unfold stack_dim2.
      rewrite (nth_map_lt _ _ _ [] 0%nat) by (rewrite length_seq; exact Hb).
      rewrite (nth_map_lt _ _ _ [] 0%nat) by (rewrite length_seq; exact Hk).
      rewrite length_map. exact Hlc.
    + exists (fun j => nth b (lf j) []), (nth b grav []).
      split; [|split].
      * intros j Hj. apply (Hlf j Hj). exact Hb.
      * apply Hgrows. exact Hb.
      * intros k j Hk Hj.
        rewrite nth_stack_dim2 by assumption.
        destruct (Hlf j Hj) as (Hcol & Hll & Hne).
        rewrite Hcol. unfold rows_sub.
        rewrite (nth_map2 _ _ _ _ [] []) by lia.
        apply (nth_map2 _ _ _ _ 0 0).
        -- rewrite (newton_euler_length _ _ _ _ _ (Hne b Hb)). exact Hk.
        -- rewrite (newton_euler_length _ _ _ _ _ (Hgrows b Hb)). exact Hk.
Qed.

(** C6: on a well-formed robot, on per-link fields as construction and the
    entry points leave them, [compute_lagrangian_inertia_matrix] returns, for
    every flag setting, one matrix per batch row, and each is symmetric and
    positive semidefinite. *)
Theorem lagrangian_inertia_matrix_symmetric_psd
  (m : robot) (qr : list (list R)) (g d : bool) (st : state) :
  well_formed m -> rows_have (n_dofs m) qr = true -> Forall (settled m) st ->
  exists Hs st',
    compute_lagrangian_inertia_matrix_impl m (T2 qr) g d st
    = (Ok (RTensor (T3 Hs)), st')
    /\ length Hs = length qr
    /\ forall b, (b < length qr)%nat ->
         mat_symmetric (n_dofs m) (nth b Hs [])
         /\ mat_psd (n_dofs m) (nth b Hs []).
Proof.
  intros Hwf Hq Hst.
  destruct (lagrangian_inertia_matrix_entries m qr g d st Hwf Hq Hst)
    as (Hs & st' & Hrun & _ & Hl & Hrows).
  destruct Hwf as (Ht & Hbase & Hn & Hax & Hrot & Hin).
  exists Hs, st'. split; [exact Hrun|]. split; [exact Hl|].
  intros b Hb.
  destruct (Hrows b Hb) as (Hlen & Hlens & tau & tau0 & Hcols & H0 & Hent).
  destruct (unit_columns_work m (nth b qr []) g tau tau0 (nth b qr []) Hbase Hcols H0)
    as (D & HW).
  apply (work_matrix_rows m (n_dofs m) _ D Hin Hlen Hlens).
  intros k j Hk Hj. rewrite (Hent k j Hk Hj). exact (HW k j Hk Hj).
Qed.
Lemma coordinate_axis_z : coordinate_axis (V3 0 0 1).
Proof.
  split.
  - exists 2%nat. unfold where_nonzero. cbn [vx vy vz].
    destruct (Req_dec_T 0 0) as [_|H]; [|contradiction H; reflexivity].
    destruct (Req_dec_T 1 0) as [H|_]; [lra|]. reflexivity.
  - unfold vdot. cbn. ring.
Qed.

Lemma physical_zero_inertia : physical_inertia zero_inertia.
Proof.
  split; [repeat split|]. split; [cbn; lra|].
  intros [x y z]. unfold vdot, mat_vec. cbn. lra.
Qed.

Lemma physical_unit_inertia : physical_inertia unit_inertia.
Proof.
  split; [repeat split|]. split; [cbn; lra|].
  intros [x y z]. unfold vdot, mat_vec. cbn. nra.
Qed.

Lemma well_formed_two_link : well_formed two_link.
Proof.
  split; [reflexivity|]. split; [reflexivity|].
  split; [apply Nat.ltb_lt; reflexivity|]. split; [|split].
  - intros [|[|k]] Hk; try exact coordinate_axis_z.
    change (n_dofs two_link) with 2%nat in Hk. lia.
  - intros p v [<-|[<-|[<-|[]]]]; cbn;
      [apply is_rotation_eye|apply is_rotation_z_rot|apply is_rotation_z_rot].
  - intros p [<-|[<-|[<-|[]]]];
      [apply physical_zero_inertia|apply physical_unit_inertia
      |apply physical_unit_inertia].
Qed.

Lemma lagrangian_inertia_matrix_symmetric_psd_witness :
  exists Hs st',
    compute_lagrangian_inertia_matrix_impl two_link (T2 [[1; 2]]) true true
      [construction two_link]
    = (Ok (RTensor (T3 Hs)), st')
    /\ length Hs = length [[1; 2]]
    /\ forall b, (b < length [[1; 2]])%nat ->
         mat_symmetric (n_dofs two_link) (nth b Hs [])
         /\ mat_psd (n_dofs two_link) (nth b Hs []).
Proof.
  apply (lagrangian_inertia_matrix_symmetric_psd two_link [[1; 2]] true true
           [construction two_link]).
  - exact well_formed_two_link.
  - reflexivity.
  - constructor; [apply settled_construction|constructor].
Defined.

(** ** Inverse dynamics at rest is the mass matrix times the acceleration,
    plus the bias *)

Lemma follows_tree_unique (m : robot) (q : list R)
  (a a' ja : nat -> SpatialMotionVec) (i : nat) :
  tree_order m = true -> a 0%nat = a' 0%nat ->
  follows_tree m q a ja -> follows_tree m q a' ja ->
  (i < length m)%nat -> a i = a' i.
Proof.
  intros Ht H0 Ha Ha'. induction i as [i IH] using lt_wf_ind. intros Hi.
  destruct (Nat.eq_dec i 0) as [->|Hne]; [exact H0|].
  destruct (tree_order_parent m i Ht ltac:(lia)) as (p & Hpar & Hp).
  rewrite (Ha i p ltac:(lia) Hpar), (Ha' i p ltac:(lia) Hpar).
  rewrite (IH p Hp ltac:(lia)). reflexivity.
Qed.

(** A sum over the links of what only the links of movable joints carry is
    a sum over the joints. *)
Lemma sum_over_joints (m : robot) (t : nat -> R) :
  is_fixed (nth 0 m default_params) = true ->
  sum_links 1 (length m)
    (fun i => match joint_idx m i with Some k => t k | None => 0 end)
  = sum_links 0 (n_dofs m) t.
Proof.
  intros Hbase.
  set (h := fun n' i => match joint_idx m i with
                        | Some k => if Nat.ltb k n' then t k else 0
                        | None => 0
                        end).
  assert (H : forall n', (n' <= n_dofs m)%nat ->
            sum_links 1 (length m) (h n') = sum_links 0 n' t).
  { induction n' as [|n' IH]; intros Hn'.
    - rewrite sum_links_nil. apply sum_links_zero. intros i _. unfold h.
      destruct (joint_idx m i); reflexivity.
    - pose proof (controlled_link_pos m n' Hbase ltac:(lia)) as Hpos.
      transitivity (sum_links 1 (length m)
                      (fun i => h n' i
                                + (if Nat.eqb i (controlled_link m n')
                                   then t n' else 0))).
      + apply sum_links_ext. intros i Hi. unfold h.
        destruct (joint_idx m i) as [k|] eqn:Ej.
        * pose proof (joint_idx_inv _ _ _ Ej) as [Hk Hcl].
          destruct (Nat.eqb_spec i (controlled_link m n')) as [E|E].
          -- rewrite E in Ej. rewrite joint_idx_controlled in Ej by lia.
             injection Ej as <-. rewrite Nat.ltb_irrefl.
             replace (Nat.ltb n' (S n')) with true
               by (symmetry; apply Nat.ltb_lt; lia).
             ring.
          -- assert (k <> n') by (intros ->; congruence).
             destruct (Nat.ltb_spec k n'), (Nat.ltb_spec k (S n')); try lia; ring.
        * destruct (Nat.eqb_spec i (controlled_link m n')) as [E|E]; [|ring].
          rewrite E in Ej. rewrite joint_idx_controlled in Ej by lia. discriminate.
      + rewrite sum_links_plus, IH by lia.
        rewrite (sum_links_one 1 (length m) (controlled_link m n')).
        * rewrite Nat.eqb_refl.
          rewrite (sum_links_split 0 n' (S n')) by lia.
          rewrite (sum_links_first n' (S n')) by lia. rewrite sum_links_nil. ring.
        * exact Hpos.
        * intros j _ Hne. destruct (Nat.eqb_spec j (controlled_link m n'));
            [contradiction|reflexivity]. }
  rewrite <- (H (n_dofs m)) by lia. apply sum_links_ext. intros i Hi. unfold h.
  destruct (joint_idx m i) as [k|] eqn:Ej; [|reflexivity].
  apply joint_idx_inv in Ej. destruct Ej as [Hk _].
  replace (Nat.ltb k (n_dofs m)) with true by (symmetry; apply Nat.ltb_lt; lia).
  reflexivity.
Qed.

(** The work of the joints' accelerations [x] (less none) on forces. *)
Lemma joint_share_work (m : robot) (x z : list R) (F : nat -> SpatialForceVec) :
  is_fixed (nth 0 m default_params) = true ->
  sum_links 1 (length m)
    (fun i => motion_dot_force
                (sub_motion (joint_acc_at m x i)
                            (joint_acc_at m (map (fun _ => 0) z) i)) (F i))
  = sum_links 0 (n_dofs m)
      (fun k => nth k x 0
                * vdot (fang (F (controlled_link m k))) (controlled_axis m k)).
Proof.
  intros Hbase. rewrite <- (sum_over_joints m _ Hbase).
  apply sum_links_ext. intros i Hi. unfold joint_acc_at.
  destruct (joint_idx m i) as [k|] eqn:Ej.
  - apply joint_idx_inv in Ej. destruct Ej as [_ Hcl].
    unfold controlled_axis. rewrite Hcl, nth_zeros.
    generalize (joint_axis (nth i m default_params)) (F i) (nth k x 0).
    intros ax f c. unfold sub_motion. mat_crush. ring.
  - generalize (F i). intros f. unfold sub_motion. mat_crush. ring.
Qed.

Lemma unit_share_sum (m : robot) (z : list R) (k : nat) (F : nat -> SpatialForceVec) :
  is_fixed (nth 0 m default_params) = true -> (k < n_dofs m)%nat ->
  sum_links 1 (length m)
    (fun i => motion_dot_force
                (sub_motion (joint_acc_at m (unit_row (n_dofs m) k) i)
                            (joint_acc_at m (map (fun _ => 0) z) i)) (F i))
  = vdot (fang (F (controlled_link m k))) (controlled_axis m k).
Proof.
  intros Hbase Hk. pose proof (controlled_link_pos m k Hbase Hk) as Hpos.
  rewrite (sum_links_one 1 (length m) (controlled_link m k)).
  - rewrite unit_share_work by exact Hk. now rewrite Nat.eqb_refl.
  - exact Hpos.
  - intros i Hi Hne. rewrite unit_share_work by exact Hk.
    destruct (Nat.eqb_spec i (controlled_link m k)); [contradiction|reflexivity].
Qed.

(** Inverse dynamics at rest is affine in the accelerations: its torques are
    those of the unit accelerations, less those of no acceleration, weighted
    by the accelerations, plus those of no acceleration. *)
Lemma newton_euler_affine (m : robot) (q x z : list R) (g : bool)
  (tau : nat -> list R) (tau_x tau0 tau0' : list R) (k : nat) :
  is_fixed (nth 0 m default_params) = true ->
  (forall p, In p m -> physical_inertia (inertia p)) ->
  (forall j, (j < n_dofs m)%nat ->
     newton_euler_at_rest m q (unit_row (n_dofs m) j) g (tau j)) ->
  newton_euler_at_rest m q x g tau_x ->
  newton_euler_at_rest m q (map (fun _ => 0) z) g tau0 ->
  newton_euler_at_rest m q (map (fun _ => 0) z) g tau0' ->
  (k < n_dofs m)%nat ->
  nth k tau_x 0
  = sum_links 0 (n_dofs m)
      (fun j => (nth k (tau j) 0 - nth k tau0 0) * nth j x 0)
    + nth k tau0' 0.
Proof.
  intros Hbase Hin Hcols (ax & Fx & Hax0 & Hfx & Hvwx & _ & Htx) Hne0
         (a0' & F0' & Ha0' & Hf0' & Hvw0' & _ & Ht0') Hk.
  pose proof Hne0 as (a0 & F0 & Ha0 & Hf0 & Hvw0 & _ & Ht0).
  destruct (Hcols k Hk) as (ak & Fk & Hak0 & Hfk & Hvwk & _ & Htk).
  (* the field of joint [k] alone, and the field of the accelerations [x] *)
  set (Dk := fun i => sub_motion (ak i) (a0 i)).
  set (jbk := fun i => sub_motion (joint_acc_at m (unit_row (n_dofs m) k) i)
                                  (joint_acc_at m (map (fun _ => 0) z) i)).
  assert (HDk0 : Dk 0%nat = motion_zero)
    by (unfold Dk; rewrite Hak0, Ha0; apply sub_motion_diag).
  assert (HDkf : follows_tree m q Dk jbk) by (apply follows_tree_sub; assumption).
  set (E := fun i => sub_motion (ax i) (a0' i)).
  set (jbE := fun i => sub_motion (joint_acc_at m x i)
                                  (joint_acc_at m (map (fun _ => 0) z) i)).
  assert (HE0 : E 0%nat = motion_zero)
    by (unfold E; rewrite Hax0, Ha0'; apply sub_motion_diag).
  assert (HEf : follows_tree m q E jbE) by (apply follows_tree_sub; assumption).
  (* the torque of joint [k] *)
  assert (Hleft : nth k tau_x 0 - nth k tau0' 0
                  = sum_links 1 (length m)
                      (fun i => motion_dot_force (E i)
                         (multiply_motion_vec (inertia (nth i m default_params))
                                              (Dk i)))).
  { rewrite (Htx k Hk), (Ht0' k Hk).
    rewrite <- (unit_share_sum m z k Fx Hbase Hk),
            <- (unit_share_sum m z k F0' Hbase Hk).
    pose proof (Hvwx Dk jbk HDk0 HDkf) as Ex.
    pose proof (Hvw0' Dk jbk HDk0 HDkf) as E0.
    unfold jbk in Ex, E0. rewrite Ex, E0.
    rewrite <- sum_links_minus. apply sum_links_ext. intros i Hi.
    rewrite <- inertia_sub_motion.
    apply inertia_form_symmetric. apply Hin, nth_In. lia. }
  assert (Hright : sum_links 1 (length m)
                      (fun i => motion_dot_force (E i)
                         (multiply_motion_vec (inertia (nth i m default_params))
                                              (Dk i)))
                   = sum_links 0 (n_dofs m)
                       (fun j => nth j x 0 * (nth j (tau k) 0 - nth j tau0 0))).
  { transitivity (sum_links 1 (length m) (fun i => motion_dot_force (jbE i) (Fk i))
                  - sum_links 1 (length m) (fun i => motion_dot_force (jbE i) (F0 i))).
    - rewrite (Hvwk E jbE HE0 HEf), (Hvw0 E jbE HE0 HEf).
      rewrite <- sum_links_minus. apply sum_links_ext. intros i Hi.
      unfold Dk. now rewrite inertia_sub_motion.
    - unfold jbE. rewrite !joint_share_work by exact Hbase.
      rewrite <- sum_links_minus. apply sum_links_ext. intros j Hj.
      rewrite (Htk j), (Ht0 j) by lia. ring. }
  (* the matrix of the unit columns is symmetric *)
  destruct (unit_columns_work m q g tau tau0 z Hbase Hcols Hne0) as (D & HW).
  apply (Rplus_eq_reg_r (- nth k tau0' 0)).
  replace (nth k tau_x 0 + - nth k tau0' 0) with (nth k tau_x 0 - nth k tau0' 0)
    by ring.
  rewrite Hleft, Hright. 
  transitivity (sum_links 0 (n_dofs m)
                  (fun j => (nth k (tau j) 0 - nth k tau0 0) * nth j x 0)); [|ring].
  apply sum_links_ext. intros j Hj.
  rewrite (work_matrix_symmetric m (n_dofs m) D _ j k Hin HW) by lia. ring.
Qed.

(** X15: at rest, inverse dynamics is the mass matrix applied to the
    accelerations plus the non-linear effects: on a well-formed robot the
    three entry points return, whatever the settled fields each starts from,
    and entry by entry
    [compute_inverse_dynamics(q, 0, qdd)
     = compute_lagrangian_inertia_matrix(q) @ qdd
       + compute_non_linear_effects(q, 0)]. *)
Theorem inverse_dynamics_at_rest_is_affine
  (m : robot) (qr xr : list (list R)) (g d : bool) (st st_H st_n : state) :
  well_formed m ->
  rows_have (n_dofs m) qr = true -> rows_have (n_dofs m) xr = true ->
  length qr = length xr ->
  Forall (settled m) st -> Forall (settled m) st_H -> Forall (settled m) st_n ->
  exists tau Hs bias st1 st2 st3,
    compute_inverse_dynamics_impl m (T2 qr) (T2 (zeros_like qr)) (T2 xr) g d st
    = (Ok (RTensor (T2 tau)), st1)
    /\ compute_lagrangian_inertia_matrix_impl m (T2 qr) g d st_H
       = (Ok (RTensor (T3 Hs)), st2)
    /\ compute_non_linear_effects_impl m (T2 qr) (T2 (zeros_like qr)) g d st_n
       = (Ok (RTensor (T2 bias)), st3)
    /\ forall b k, (b < length qr)%nat -> (k < n_dofs m)%nat ->
         entry tau b k
         = ldot (nth k (nth b Hs []) []) (nth b xr []) + entry bias b k.
Proof.
  intros Hwf Hq Hx Hlen Hst HstH Hstn.
  destruct (lagrangian_inertia_matrix_entries m qr g d st_H Hwf Hq HstH)
    as (Hs & st2 & HrunH & _ & HlH & HrowsH).
  destruct Hwf as (Ht & Hbase & Hn & Hax & Hrot & Hin).
  destruct (inverse_dynamics_batch_at_rest m qr xr g d st Ht Hn Hax Hrot Hq Hx Hlen Hst)
    as (tau & st1 & Hrun & _ & Hl & Hrows).
  destruct (inverse_dynamics_batch_at_rest m qr (zeros_like qr) g d st_n
              Ht Hn Hax Hrot Hq)
    as (bias & st3 & Hrunn & _ & Hln & Hrowsn).
  { now rewrite rows_have_zeros_like. }
  { unfold zeros_like. now rewrite length_map. }
  { exact Hstn. }
  exists tau, Hs, bias, st1, st2, st3.
  split; [exact Hrun|]. split; [exact HrunH|]. split; [exact Hrunn|].
  intros b k Hb Hk.
  destruct (HrowsH b Hb) as (_ & Hlens & tauc & tau0 & Hcols & H0 & Hent).
  pose proof (Hrowsn b Hb) as Hbias. rewrite nth_zeros_like in Hbias.
  assert (Hxb : length (nth b xr []) = n_dofs m)
    by (apply rows_have_nth; [assumption|lia]).
  unfold entry.
  rewrite (newton_euler_affine m (nth b qr []) (nth b xr []) (nth b qr []) g
             tauc (nth b tau []) tau0 (nth b bias []) k Hbase Hin Hcols
             (Hrows b Hb) H0 Hbias Hk).
  f_equal. rewrite ldot_sum by (rewrite Hlens by exact Hk; lia).
  rewrite Hlens by exact Hk. apply sum_links_ext. intros j Hj.
  rewrite (Hent k j Hk ltac:(lia)). reflexivity.
Qed.

Lemma inverse_dynamics_at_rest_is_affine_witness :
  exists tau Hs bias st1 st2 st3,
    compute_inverse_dynamics_impl two_link (T2 [[1; 2]]) (T2 (zeros_like [[1; 2]]))
      (T2 [[3; 4]]) true true [construction two_link]
    = (Ok (RTensor (T2 tau)), st1)
    /\ compute_lagrangian_inertia_matrix_impl two_link (T2 [[1; 2]]) true true
         [construction two_link]
       = (Ok (RTensor (T3 Hs)), st2)
    /\ compute_non_linear_effects_impl two_link (T2 [[1; 2]])
         (T2 (zeros_like [[1; 2]])) true true [construction two_link]
       = (Ok (RTensor (T2 bias)), st3)
    /\ forall b k, (b < length [[1; 2]])%nat -> (k < n_dofs two_link)%nat ->
         entry tau b k
         = ldot (nth k (nth b Hs []) []) (nth b [[3; 4]] []) + entry bias b k.
Proof.
  apply (inverse_dynamics_at_rest_is_affine two_link [[1; 2]] [[3; 4]] true true
           [construction two_link] [construction two_link] [construction two_link]).
  - exact well_formed_two_link.
  - reflexivity.
  - reflexivity.
  - reflexivity.
  - constructor; [apply settled_construction|constructor].
  - constructor; [apply settled_construction|constructor].
  - constructor; [apply settled_construction|constructor].
Defined.

(** ** What a call forgets of the calls before it *)

(** What inverse dynamics at rest returns is fixed by the positions, the
    accelerations and the gravity flag. *)
Lemma newton_euler_unique (m : robot) (q x : list R) (g : bool) (tau tau' : list R) :
  tree_order m = true ->
  is_fixed (nth 0 m default_params) = true ->
  (0 < n_dofs m)%nat ->
  (forall k, (k < n_dofs m)%nat -> coordinate_axis (controlled_axis m k)) ->
  (forall p v, In p m -> is_rotation (rotation (joint_pose_of p v))) ->
  length q = n_dofs m ->
  newton_euler_at_rest m q x g tau -> newton_euler_at_rest m q x g tau' ->
  tau = tau'.
Proof.
  intros Ht Hbase Hn Hax Hrot Hq
         (a & F & Ha0 & Hf & Hvw & Hl & Htau) (a' & F' & Ha0' & Hf' & Hvw' & Hl' & Htau').
  apply (nth_ext _ _ 0 0); [congruence|]. intros k Hk. rewrite Hl in Hk.
  (* the field of joint [k] alone, from two runs of the code *)
  destruct (inverse_dynamics_row_at_rest m g false q (unit_row (n_dofs m) k)
              (construction m) Ht Hn Hax Hrot Hq)
    as (_ & _ & _ & _ & (ak & Fk & Hak0 & Hfk & _));
    [unfold unit_row; now rewrite length_map, length_seq
    |apply settled_construction|].
  destruct (inverse_dynamics_row_at_rest m g false q (map (fun _ => 0) q)
              (construction m) Ht Hn Hax Hrot Hq)
    as (_ & _ & _ & _ & (a0 & F0 & Ha00 & Hf0 & _));
    [now rewrite length_map|apply settled_construction|].
  set (Dk := fun i => sub_motion (ak i) (a0 i)).
  assert (HDk0 : Dk 0%nat = motion_zero)
    by (unfold Dk; rewrite Hak0, Ha00; apply sub_motion_diag).
  pose proof (follows_tree_sub m q _ _ _ _ Hfk Hf0) as HDkf. fold Dk in HDkf.
  rewrite (Htau k Hk), (Htau' k Hk).
  rewrite <- (unit_share_sum m q k F Hbase Hk), <- (unit_share_sum m q k F' Hbase Hk).
  rewrite (Hvw _ _ HDk0 HDkf), (Hvw' _ _ HDk0 HDkf).
  apply sum_links_ext. intros i Hi.
  rewrite (follows_tree_unique m q a a' (joint_acc_at m x) i Ht); try assumption.
  - reflexivity.
  - congruence.
  - lia.
Qed.

(** X16: at rest and without gravity there are no non-linear effects: on a
    well-formed robot [compute_non_linear_effects(q, 0, include_gravity=False)]
    returns zeros, with damping and without. *)
Theorem non_linear_effects_vanish_at_rest
  (m : robot) (qr : list (list R)) (d : bool) (st : state) :
  well_formed m -> rows_have (n_dofs m) qr = true -> Forall (settled m) st ->
  exists st',
    compute_non_linear_effects_impl m (T2 qr) (T2 (zeros_like qr)) false d st
    = (Ok (RTensor (T2 (zeros_like qr))), st').
Proof.
  intros (Ht & Hbase & Hn & Hax & Hrot & Hin) Hq Hst.
  destruct (inverse_dynamics_batch_at_rest m qr (zeros_like qr) false d st
              Ht Hn Hax Hrot Hq)
    as (bias & st' & Hrun & _ & Hl & Hrows).
  { now rewrite rows_have_zeros_like. }
  { unfold zeros_like. now rewrite length_map. }
  { exact Hst. }
  exists st'. unfold compute_non_linear_effects_impl. rewrite Hrun.
  assert (E : bias = zeros_like qr); [|now rewrite E].
  apply (nth_ext _ _ [] []).
  - unfold zeros_like. now rewrite length_map.
  - intros b Hb. rewrite Hl in Hb. specialize (Hrows b Hb).
    rewrite nth_zeros_like in *.
    apply (newton_euler_unique m (nth b qr []) (map (fun _ => 0) (nth b qr [])) false);
      try assumption.
    + now apply rows_have_nth.
    + apply newton_euler_zero. now apply rows_have_nth.
Qed.

Lemma non_linear_effects_vanish_at_rest_witness :
  exists st',
    compute_non_linear_effects_impl two_link (T2 [[1; 2]]) (T2 (zeros_like [[1; 2]]))
      false true [construction two_link]
    = (Ok (RTensor (T2 (zeros_like [[1; 2]]))), st').
Proof.
  apply (non_linear_effects_vanish_at_rest two_link [[1; 2]] true
           [construction two_link]).
  - exact well_formed_two_link.
  - reflexivity.
  - constructor; [apply settled_construction|constructor].
Defined.

Lemma poses_unique (m : robot) (q : list R) (P P' : nat -> CoordinateTransform)
  (i : nat) :
  tree_order m = true -> P 0%nat = P' 0%nat ->
  (forall i j, (1 <= i < length m)%nat -> parent_idx m i = Ok j ->
     P i = multiply_transform (P j) (joint_frame_at m q i)) ->
  (forall i j, (1 <= i < length m)%nat -> parent_idx m i = Ok j ->
     P' i = multiply_transform (P' j) (joint_frame_at m q i)) ->
  (i < length m)%nat -> P i = P' i.
Proof.
  intros Ht H0 HP HP'. induction i as [i IH] using lt_wf_ind. intros Hi.
  destruct (Nat.eq_dec i 0) as [->|Hne]; [exact H0|].
  destruct (tree_order_parent m i Ht ltac:(lia)) as (p & Hpar & Hp).
  rewrite (HP i p ltac:(lia) Hpar), (HP' i p ltac:(lia) Hpar).
  rewrite (IH p Hp ltac:(lia)). reflexivity.
Qed.

(** X17: what the calls before have left in the per-link fields does not
    show.  From any two settled states, [compute_forward_kinematics] returns
    the same pose for a link, and [compute_inverse_dynamics] at rest the same
    torques. *)
Theorem results_forget_earlier_calls
  (m : robot) (qr xr : list (list R)) (name : string) (g d : bool)
  (st st' : state) :
  well_formed m -> NoDup (map link_name m) -> In name (get_link_names m) ->
  rows_have (n_dofs m) qr = true -> rows_have (n_dofs m) xr = true ->
  length qr = length xr ->
  Forall (settled m) st -> Forall (settled m) st' ->
  (exists r,
     fst (compute_forward_kinematics_impl m (T2 qr) name false st) = Ok r
     /\ fst (compute_forward_kinematics_impl m (T2 qr) name false st') = Ok r)
  /\ exists tau,
       fst (compute_inverse_dynamics_impl m (T2 qr) (T2 (zeros_like qr)) (T2 xr)
              g d st) = Ok tau
       /\ fst (compute_inverse_dynamics_impl m (T2 qr) (T2 (zeros_like qr)) (T2 xr)
                 g d st') = Ok tau.
Proof.
  intros (Ht & Hbase & Hn & Hax & Hrot & Hin) Hnd Hname Hq Hx Hlen Hst Hst'.
  split.
  - destruct (name_lookup_ok m name Hnd Hname) as (i & Hi & _ & Hidx).
    assert (Hrow : forall s b, settled m s -> (b < length qr)%nat ->
              exists s1 P,
                forward_kinematics_row m name (nth b qr []) s
                = (Ok (pose_entry (P i)), s1)
                /\ P 0%nat = transform_id
                /\ forall i j, (1 <= i < length m)%nat -> parent_idx m i = Ok j ->
                     P i = multiply_transform (P j) (joint_frame_at m (nth b qr []) i)).
    { intros s b Hs Hb.
      assert (Hqb : length (nth b qr []) = n_dofs m) by now apply rows_have_nth.
      destruct (sweep_poses m (nth b qr []) (map (fun _ => 0) (nth b qr [])) s
                  Ht Hn Hqb ltac:(now rewrite length_map) Hs)
        as (s1 & Hrun & Hl1 & Hp0 & Hrel).
      exists s1, (fun i => pose (link s1 i)).
      split; [|split; [exact Hp0|exact Hrel]].
      unfold forward_kinematics_row, link_pose_row.
      rewrite (mbind_run _ _ _ _ _ Hrun), (mbind_lift _ _ _ _ Hidx).
      rewrite mbind_get by lia. reflexivity. }
    assert (Hsame : forall s s' b, settled m s -> settled m s' -> (b < length qr)%nat ->
              exists a s1 s1',
                forward_kinematics_row m name (nth b qr []) s = (Ok a, s1)
                /\ forward_kinematics_row m name (nth b qr []) s' = (Ok a, s1')).
    { intros s s' b Hs Hs' Hb.
      destruct (Hrow s b Hs Hb) as (s1 & P & H1 & HP0 & HP).
      destruct (Hrow s' b Hs' Hb) as (s1' & P' & H1' & HP0' & HP').
      exists (pose_entry (P i)), s1, s1'. split; [exact H1|].
      rewrite H1'. do 3 f_equal.
      apply (poses_unique m (nth b qr []) P' P i Ht); try assumption. congruence. }
    assert (Hsb : forall s0 b, Forall (settled m) s0 -> settled m (brow m s0 b)).
    { intros s0 b Hs0.
      apply (brow_settled m s0 b (settled m)); [apply settled_construction|exact Hs0]. }
    destruct (run_batch_ok m (forward_kinematics_row m name) qr st [] ([], [])
                (fun b a s1 => forward_kinematics_row m name (nth b qr []) (brow m st b)
                               = (Ok a, s1)))
      as (l & s1 & Hrun & Hl & _ & Hrows).
    { intros b Hb.
      destruct (Hrow (brow m st b) b (Hsb st b Hst) Hb) as (t & P & H & _). eauto. }
    destruct (run_batch_ok m (forward_kinematics_row m name) qr st' [] ([], [])
                (fun b a s1 => forward_kinematics_row m name (nth b qr []) (brow m st' b)
                               = (Ok a, s1)))
      as (l' & s1' & Hrun' & Hl' & _ & Hrows').
    { intros b Hb.
      destruct (Hrow (brow m st' b) b (Hsb st' b Hst') Hb) as (t & P & H & _). eauto. }
    assert (El : l = l').
    { apply (nth_ext _ _ ([], []) ([], [])); [congruence|].
      intros b Hb. rewrite Hl in Hb.
      destruct (Hsame (brow m st b) (brow m st' b) b (Hsb st b Hst) (Hsb st' b Hst') Hb)
        as (a & t & t' & H1 & H1').
      pose proof (Hrows b Hb) as H2. pose proof (Hrows' b Hb) as H2'.
      cbv beta in H2, H2'. congruence. }
    subst l'.
    exists (RTuple [VTensor (T2 (map fst l)); VTensor (T2 (map snd l))]).
    unfold compute_forward_kinematics_impl, compute_forward_kinematics_sweep.
    rewrite (kinematic_checks_zeros m qr Hq), Hrun, Hrun'. split; reflexivity.
  - destruct (inverse_dynamics_batch_at_rest m qr xr g d st Ht Hn Hax Hrot Hq Hx Hlen Hst)
      as (tau & st1 & Hrun & _ & Hl & Hrows).
    destruct (inverse_dynamics_batch_at_rest m qr xr g d st' Ht Hn Hax Hrot Hq Hx Hlen Hst')
      as (tau' & st1' & Hrun' & _ & Hl' & Hrows').
    assert (E : tau = tau').
    { apply (nth_ext _ _ [] []); [congruence|].
      intros b Hb. rewrite Hl in Hb.
      apply (newton_euler_unique m (nth b qr []) (nth b xr []) g); try assumption.
      - now apply rows_have_nth.
      - now apply Hrows.
      - now apply Hrows'. }
    subst tau'. exists (RTensor (T2 tau)). rewrite Hrun, Hrun'. split; reflexivity.
Qed.

Lemma results_forget_earlier_calls_witness :
  (exists r,
     fst (compute_forward_kinematics_impl two_link (T2 [[1; 2]]) "lower" false
            [construction two_link]) = Ok r
     /\ fst (compute_forward_kinematics_impl two_link (T2 [[1; 2]]) "lower" false [])
        = Ok r)
  /\ exists tau,
       fst (compute_inverse_dynamics_impl two_link (T2 [[1; 2]])
              (T2 (zeros_like [[1; 2]])) (T2 [[3; 4]]) true true
              [construction two_link]) = Ok tau
       /\ fst (compute_inverse_dynamics_impl two_link (T2 [[1; 2]])
                 (T2 (zeros_like [[1; 2]])) (T2 [[3; 4]]) true true []) = Ok tau.
Proof.
  apply (results_forget_earlier_calls two_link [[1; 2]] [[3; 4]] "lower" true true
           [construction two_link] []).
  - exact well_formed_two_link.
  - repeat constructor; simpl; intuition discriminate.
  - simpl. tauto.
  - reflexivity.
  - reflexivity.
  - reflexivity.
  - constructor; [apply settled_construction|constructor].
  - constructor.
Defined.

(** ** The decorator: what it refuses, and what it lets through *)

Lemma preprocess_all_ok_inv (args args' : list arg) (bi bi' : BatchInfo) :
  preprocess_all args bi = Ok (args', bi') ->
  (bi_init bi = true -> bi' = bi)
  /\ forall t, In (ATensor t) args ->
       (ndim t = 1%nat \/ ndim t = 2%nat)
       /\ bi_init bi' = true /\ removelast (shape t) = bi_shape bi'.
Proof.
  revert args' bi bi'. induction args as [|a args IH]; intros args' bi bi' H.
  - simpl in H. injection H as <- <-. split; [reflexivity|]. intros t [].
  - simpl in H.
    destruct (preprocess a bi) as [[a1 bi1]|] eqn:Ep; simpl in H; [|discriminate].
    destruct (preprocess_all args bi1) as [[rest bi2]|] eqn:Er; simpl in H;
      [|discriminate].
    injection H as <- <-.
    destruct (IH _ _ _ Er) as [Hkeep Hrest].
    destruct a as [t| | | |]; simpl in Ep;
      try (injection Ep as <- <-; split; [exact Hkeep|];
           intros t [Hin|Hin]; [discriminate|now apply Hrest]).
    destruct (Nat.eqb (ndim t) 1 || Nat.eqb (ndim t) 2) eqn:En; simpl in Ep;
      [|discriminate].
    assert (Hnd : ndim t = 1%nat \/ ndim t = 2%nat).
    { apply orb_prop in En. destruct En as [En|En]; apply Nat.eqb_eq in En; auto. }
    assert (H1 : bi_init bi1 = true /\ removelast (shape t) = bi_shape bi1
                 /\ (bi_init bi = true -> bi1 = bi)).
    { destruct (bi_init bi) eqn:Ei.
      - destruct (list_nat_eqb (bi_shape bi) (removelast (shape t))) eqn:El;
          simpl in Ep; [|discriminate].
        assert (bi1 = bi).
        { destruct (Nat.eqb (length (bi_shape bi)) 0); simpl in Ep.
          - destruct (unsqueeze0 t); simpl in Ep; [|discriminate]. congruence.
          - congruence. }
        subst bi1. split; [exact Ei|]. split; [|auto].
        unfold list_nat_eqb in El.
        destruct (list_eq_dec Nat.eq_dec (bi_shape bi) (removelast (shape t)));
          [auto|discriminate].
      - simpl in Ep.
        assert (bi1 = mkBatchInfo (removelast (shape t)) true).
        { destruct (Nat.eqb (length (removelast (shape t))) 0); simpl in Ep.
          - destruct (unsqueeze0 t); simpl in Ep; [|discriminate]. congruence.
          - congruence. }
        subst bi1. split; [reflexivity|]. split; [reflexivity|discriminate]. }
    destruct H1 as (Hi1 & Hs1 & Hk1).
    pose proof (Hkeep Hi1) as ->.
    split; [exact Hk1|].
    intros t' [[= <-]|Hin]; [auto|now apply Hrest].
Qed.

Lemma preprocess_all_raises (args : list arg) (bi : BatchInfo) (e : exn) :
  preprocess_all args bi = Raise e -> e = AssertionError.
Proof.
  revert bi. induction args as [|a args IH]; intros bi H; simpl in H; [discriminate|].
  destruct (preprocess a bi) as [[a1 bi1]|e1] eqn:Ep; simpl in H.
  - destruct (preprocess_all args bi1) as [[rest bi2]|e2] eqn:Er; simpl in H;
      [discriminate|].
    injection H as <-. exact (IH _ Er).
  - injection H as <-.
    destruct a as [t| | | |]; simpl in Ep; try discriminate.
    destruct (Nat.eqb (ndim t) 1 || Nat.eqb (ndim t) 2) eqn:En; simpl in Ep;
      [|congruence].
    assert (Hu : exists t', unsqueeze0 t = Ok t').
    { apply orb_prop in En. destruct t; simpl in En; simpl; eauto;
        destruct En; discriminate. }
    destruct Hu as (t' & Hu). rewrite Hu in Ep.
    destruct (bi_init bi).
    + destruct (list_nat_eqb (bi_shape bi) (removelast (shape t))); simpl in Ep;
        [|congruence].
      destruct (Nat.eqb (length (bi_shape bi)) 0); simpl in Ep; discriminate.
    + simpl in Ep.
      destruct (Nat.eqb (length (removelast (shape t))) 0); simpl in Ep; discriminate.
Qed.

(** X18: a call with a tensor that has neither one nor two dimensions, or
    with two tensors whose leading dimensions differ, ends in an
    [AssertionError] before the method runs: the object state and the
    arguments are as they were. *)
Theorem tensor_check_refuses {world : Type} (function : method world)
  (args : list arg) (w : world) (t1 t2 : tensor) :
  In (ATensor t1) args -> In (ATensor t2) args ->
  (ndim t1 <> 1%nat /\ ndim t1 <> 2%nat)
  \/ removelast (shape t1) <> removelast (shape t2) ->
  tensor_check function args w = (Raise AssertionError, w, args).
Proof.
  intros H1 H2 Hbad. unfold tensor_check.
  destruct (preprocess_all args BatchInfo0) as [[args' bi]|e] eqn:E.
  - exfalso. destruct (preprocess_all_ok_inv _ _ _ _ E) as [_ H].
    destruct (H t1 H1) as (Hn1 & _ & Hs1). destruct (H t2 H2) as (_ & _ & Hs2).
    destruct Hbad as [[Ha Hb]|Hne]; [tauto|congruence].
  - now rewrite (preprocess_all_raises _ _ _ E).
Qed.

Lemma tensor_check_refuses_witness :
  tensor_check constant_rows [ATensor (T2 [[1; 2]]); ATensor (T2 [[1; 2]; [3; 4]])] tt
  = (Raise AssertionError, tt,
     [ATensor (T2 [[1; 2]]); ATensor (T2 [[1; 2]; [3; 4]])]).
Proof.
  apply (tensor_check_refuses constant_rows
           [ATensor (T2 [[1; 2]]); ATensor (T2 [[1; 2]; [3; 4]])] tt
           (T2 [[1; 2]]) (T2 [[1; 2]; [3; 4]])).
  - simpl. tauto.
  - simpl. tauto.
  - right. simpl. discriminate.
Defined.
Lemma parse_output_off (r : ret) (bi : BatchInfo) :
  bi_init bi && Nat.eqb (length (bi_shape bi)) 0 = false ->
  parse_output r bi = Ok r.
Proof.
  intros H. destruct r as [t|l|dd|]; simpl; try reflexivity.
  - rewrite H. reflexivity.
  - assert (E : res_map (fun x => postprocess x bi) l = Ok l).
    { induction l as [|v l IH]; simpl; [reflexivity|].
      rewrite IH. destruct v; simpl; rewrite ?H; reflexivity. }
    now rewrite E.
Qed.

Lemma preprocess_all_rows (n : nat) (args : list arg) (bi : BatchInfo) :
  (forall t, In (ATensor t) args -> exists rows, t = T2 rows /\ length rows = n) ->
  bi = BatchInfo0 \/ bi = mkBatchInfo [n] true ->
  exists bi', preprocess_all args bi = Ok (args, bi')
              /\ (bi' = BatchInfo0 \/ bi' = mkBatchInfo [n] true).
Proof.
  revert bi. induction args as [|a args IH]; intros bi Hargs Hbi.
  - exists bi. split; [reflexivity|exact Hbi].
  - assert (Hstep : exists bi1, preprocess a bi = Ok (a, bi1)
                                /\ (bi1 = BatchInfo0 \/ bi1 = mkBatchInfo [n] true)).
    { destruct a as [t| | | |]; try (exists bi; split; [reflexivity|exact Hbi]).
      destruct (Hargs t (or_introl eq_refl)) as (rows & -> & Hn).
      exists (mkBatchInfo [n] true). split; [|now right].
      destruct Hbi as [->| ->]; simpl; rewrite ?Hn; [reflexivity|].
      rewrite list_nat_eqb_refl. reflexivity. }
    destruct Hstep as (bi1 & Hp & Hbi1).
    destruct (IH bi1) as (bi2 & Hr & Hbi2); [|exact Hbi1|].
    { intros t Ht. apply Hargs. now right. }
    exists bi2. split; [|exact Hbi2]. simpl. rewrite Hp. simpl. rewrite Hr. reflexivity.
Qed.

(** X19: on a call whose tensors are all 2-D with one and the same number
    of rows the decorator changes nothing: the method gets the arguments as
    they are, and its outcome and the object state it leaves are the
    call's. *)
Theorem tensor_check_batched_is_transparent {world : Type}
  (function : method world) (n : nat) (args : list arg) (w : world) :
  (forall t, In (ATensor t) args -> exists rows, t = T2 rows /\ length rows = n) ->
  fst (tensor_check function args w) = fst (function args w).
Proof.
  intros Hargs. unfold tensor_check.
  destruct (preprocess_all_rows n args BatchInfo0 Hargs (or_introl eq_refl))
    as (bi & -> & Hbi).
  destruct (function args w) as [[r w'] args']. cbn [fst]. f_equal.
  destruct r as [v|e]; [|reflexivity]. cbn [res_bind].
  apply parse_output_off. destruct Hbi as [->| ->]; reflexivity.
Qed.

Lemma tensor_check_batched_is_transparent_witness :
  fst (tensor_check constant_rows [ATensor (T2 [[1; 2]; [3; 4]]); AStr "x"] tt)
  = fst (constant_rows [ATensor (T2 [[1; 2]; [3; 4]]); AStr "x"] tt).
Proof.
  apply (tensor_check_batched_is_transparent constant_rows 2
           [ATensor (T2 [[1; 2]; [3; 4]]); AStr "x"] tt).
  intros t [[= <-]|[H|[]]]; [|discriminate].
  exists [[1; 2]; [3; 4]]. split; reflexivity.
Defined.

(** ** The end-effector Jacobian *)

Lemma name_to_idx_map_name (m : robot) (name : string) (j : nat) :
  name_to_idx_map m name = Ok j ->
  (j < length m)%nat /\ link_name (nth j m default_params) = name.
Proof.
  unfold name_to_idx_map. pose proof (find_last_spec name m 0) as H.
  destruct (find_last name 0 m) as [j'|]; [|discriminate].
  intros [= <-]. rewrite Nat.sub_0_r in H. destruct H as (Hb & Hn & _).
  split; [lia|exact Hn].
Qed.

Lemma is_controlled_joint_idx (m : robot) (i : nat) :
  is_controlled m i = match joint_idx m i with Some _ => true | None => false end.
Proof.
  unfold is_controlled.
  destruct (existsb (Nat.eqb i) (controlled_joints m)) eqn:E.
  - apply existsb_exists in E. destruct E as (x & Hx & Hxi).
    apply Nat.eqb_eq in Hxi. subst x.
    destruct (joint_idx_In m i Hx) as (k & ->). reflexivity.
  - destruct (joint_idx m i) as [k|] eqn:Ej; [|reflexivity].
    apply joint_idx_inv in Ej. destruct Ej as [Hk Hcl].
    assert (Hin : In i (controlled_joints m))
      by (rewrite <- Hcl; apply nth_In; exact Hk).
    assert (Ht : existsb (Nat.eqb i) (controlled_joints m) = true)
      by (apply existsb_exists; exists i; split; [exact Hin|apply Nat.eqb_refl]).
    congruence.
Qed.

Lemma joint_idx_list_index (m : robot) (i k : nat) :
  joint_idx m i = Some k -> list_index i (controlled_joints m) = Ok k.
Proof.
  unfold joint_idx. destruct (list_index i (controlled_joints m)); congruence.
Qed.

(** The walk from a link to the base ends, and fills the columns of the
    movable joints it passes. *)
Lemma jacobian_walk_columns (m : robot) (s : row_state) (p_e : vec3) (fuel : nat) :
  NoDup (map link_name m) -> tree_order m = true -> length s = length m ->
  forall (i : nat) (lin_jac ang_jac : list vec3),
    (i < length m)%nat -> (i < fuel)%nat ->
    length lin_jac = n_dofs m -> length ang_jac = n_dofs m ->
    exists lin_jac' ang_jac',
      jacobian_walk fuel m s p_e (link_name (nth i m default_params)) i
                    lin_jac ang_jac
      = Ok (lin_jac', ang_jac')
      /\ length lin_jac' = n_dofs m /\ length ang_jac' = n_dofs m
      /\ forall k, (k < n_dofs m)%nat ->
           (nth k lin_jac' vzero, nth k ang_jac' vzero)
           = if existsb (Nat.eqb (controlled_link m k)) (path_to_base fuel m i)
             then joint_column m s p_e (controlled_link m k)
             else (nth k lin_jac vzero, nth k ang_jac vzero).
Proof.
  intros Hnd Ht Hl. induction fuel as [|fuel IH]; intros i lin_jac ang_jac Hi Hf Hll Hla;
    [lia|].
  assert (H0 : (0 < length m)%nat) by lia.
  cbn [jacobian_walk path_to_base].
  rewrite (py_nth_ok m 0 default_params H0). cbn [res_bind].
  destruct (Nat.eqb_spec i 0) as [->|Hne].
  - rewrite String.eqb_refl. exists lin_jac, ang_jac.
    split; [reflexivity|]. split; [exact Hll|]. split; [exact Hla|].
    intros k Hk. reflexivity.
  - destruct (String.eqb_spec (link_name (nth i m default_params))
                              (link_name (nth 0 m default_params))) as [E|_].
    { apply (link_name_inj m) in E; try assumption. contradiction. }
    destruct (tree_order_parent m i Ht ltac:(lia)) as (p & Hpar & Hp).
    destruct (parent_idx_inv _ _ _ Hpar) as [Hpi Hpn].
    destruct (name_to_idx_map_name _ _ _ Hpn) as [Hpl Hpname].
    rewrite Hpar.
    (* the column of this link's joint *)
    assert (Hcol : exists lin1 ang1,
              (if is_controlled m i
               then let? k0 := list_index i (controlled_joints m) in
                    let? (p_i, z_i) := joint_frame m s i in
                    Ok (set_nth lin_jac k0 (cross_product z_i (vsub p_e p_i)),
                        set_nth ang_jac k0 z_i)
               else Ok (lin_jac, ang_jac)) = Ok (lin1, ang1)
              /\ length lin1 = n_dofs m /\ length ang1 = n_dofs m
              /\ forall k, (k < n_dofs m)%nat ->
                   (nth k lin1 vzero, nth k ang1 vzero)
                   = if Nat.eqb (controlled_link m k) i
                     then joint_column m s p_e i
                     else (nth k lin_jac vzero, nth k ang_jac vzero)).
    { rewrite is_controlled_joint_idx.
      destruct (joint_idx m i) as [k0|] eqn:Ej.
      - rewrite (joint_idx_list_index _ _ _ Ej). cbn [res_bind].
        unfold joint_frame.
        rewrite (py_nth_ok s i default_body) by lia. cbn [res_bind].
        rewrite (py_nth_ok m i default_params Hi). cbn [res_bind].
        pose proof (joint_idx_inv _ _ _ Ej) as [Hk0 Hcl].
        eexists _, _. split; [reflexivity|].
        split; [now rewrite length_set_nth|]. split; [now rewrite length_set_nth|].
        intros k Hk. rewrite !nth_set_nth by lia.
        destruct (Nat.eqb_spec k k0) as [->|Hkk].
        + rewrite Hcl, Nat.eqb_refl. reflexivity.
        + destruct (Nat.eqb_spec (controlled_link m k) i) as [E|_]; [|reflexivity].
          exfalso. apply Hkk.
          pose proof (joint_idx_controlled m k Hk) as Hj. rewrite E in Hj. congruence.
      - exists lin_jac, ang_jac. split; [reflexivity|].
        split; [exact Hll|]. split; [exact Hla|]. intros k Hk.
        destruct (Nat.eqb_spec (controlled_link m k) i) as [E|_]; [|reflexivity].
        pose proof (joint_idx_controlled m k Hk) as Hj. rewrite E in Hj. congruence. }
    destruct Hcol as (lin1 & ang1 & Hstep & Hll1 & Hla1 & Hcols1).
    rewrite Hstep. cbn [res_bind].
    unfold get_name_of_parent_body, joint_id_of.
    rewrite (name_to_idx_map_own_name m i Hnd Hi). cbn [res_bind].
    rewrite Hpi. cbn [res_bind]. rewrite Hpn. cbn [res_bind].
    rewrite <- Hpname.
    destruct (IH p lin1 ang1 Hpl ltac:(lia) Hll1 Hla1)
      as (lin' & ang' & Hrun & Hll' & Hla' & Hcols').
    exists lin', ang'. split; [exact Hrun|]. split; [exact Hll'|]. split; [exact Hla'|].
    intros k Hk. rewrite (Hcols' k Hk). cbn [existsb].
    rewrite (Hcols1 k Hk).
    destruct (Nat.eqb_spec (controlled_link m k) i) as [E|_].
    + rewrite E. cbn [orb].
      destruct (existsb (Nat.eqb i) (path_to_base fuel m p)); reflexivity.
    + cbn [orb]. reflexivity.
Qed.
(** X21: [compute_endeffector_jacobian] on a robot whose links follow their
    parents, with distinct link names and a movable joint.  The walk from the
    link to the base ends, and the call returns for every batch row a linear
    and an angular Jacobian of [n_dofs] columns: the column of a movable
    joint on the way from the link to the base is [z x (p_e - p)] and [z],
    for the joint's axis [z] and origin [p] in the world frame and the
    link's position [p_e]; every other column is zero. *)
Theorem endeffector_jacobian_columns
  (m : robot) (qr : list (list R)) (i : nat) (st : state) :
  NoDup (map link_name m) -> tree_order m = true -> (0 < n_dofs m)%nat ->
  rows_have (n_dofs m) qr = true -> Forall (settled m) st -> (i < length m)%nat ->
  exists lin ang st',
    compute_endeffector_jacobian_impl m (T2 qr)
      (link_name (nth i m default_params)) st
    = (Ok (RTuple [VTensor (T3 lin); VTensor (T3 ang)]), st')
    /\ length lin = length qr /\ length ang = length qr
    /\ forall b, (b < length qr)%nat ->
         exists lcols acols,
           nth b lin [] = jac_rows lcols /\ nth b ang [] = jac_rows acols
           /\ length lcols = n_dofs m /\ length acols = n_dofs m
           /\ forall k, (k < n_dofs m)%nat ->
                (nth k lcols vzero, nth k acols vzero)
                = if on_path m i (controlled_link m k)
                  then joint_column m (nth b st' [])
                         (translation (pose (link (nth b st' []) i)))
                         (controlled_link m k)
                  else (vzero, vzero).
Proof.
  intros Hnd Ht Hn Hq Hst Hi.
  set (name := link_name (nth i m default_params)).
  assert (Hidx : name_to_idx_map m name = Ok i)
    by (apply name_to_idx_map_own_name; assumption).
  destruct (run_batch_ok m (endeffector_jacobian_row m name) qr st [] ([], [])
              (fun b a s' =>
                 length (fst a) = n_dofs m /\ length (snd a) = n_dofs m
                 /\ forall k, (k < n_dofs m)%nat ->
                      (nth k (fst a) vzero, nth k (snd a) vzero)
                      = if on_path m i (controlled_link m k)
                        then joint_column m s'
                               (translation (pose (link s' i))) (controlled_link m k)
                        else (vzero, vzero)))
    as (l & st' & Hrun & Hl & Hlst & Hrows).
  { intros b Hb.
    assert (Hqb : length (nth b qr []) = n_dofs m) by now apply rows_have_nth.
    assert (Hs : settled m (brow m st b))
      by (apply (brow_settled m st b (settled m));
          [apply settled_construction|exact Hst]).
    destruct (sweep_poses m (nth b qr []) (map (fun _ => 0) (nth b qr []))
                (brow m st b) Ht Hn Hqb ltac:(now rewrite length_map) Hs)
      as (s1 & Hrun1 & Hl1 & _).
    destruct (jacobian_walk_columns m s1 (translation (pose (link s1 i))) (length m)
                Hnd Ht Hl1 i (repeat vzero (n_dofs m)) (repeat vzero (n_dofs m))
                Hi Hi ltac:(apply repeat_length) ltac:(apply repeat_length))
      as (lin' & ang' & Hwalk & Hll & Hla & Hcols).
    exists (lin', ang'), s1. split.
    - unfold endeffector_jacobian_row, forward_kinematics_row, link_pose_row.
      unfold mbind at 1.
      rewrite (mbind_run _ _ _ _ _ Hrun1), (mbind_lift _ _ _ _ Hidx).
      rewrite mbind_get by lia. cbn [mret].
      rewrite (mbind_lift _ _ _ _ Hidx). rewrite mbind_get by lia.
      unfold joint_id_of. rewrite (mbind_lift _ _ _ _ Hidx).
      fold name in Hwalk. rewrite Hwalk. reflexivity.
    - split; [exact Hll|]. split; [exact Hla|].
      intros k Hk. cbn [fst snd]. rewrite (Hcols k Hk). unfold on_path.
      destruct (existsb _ _); [reflexivity|].
      now rewrite !nth_repeat. }
  exists (map (fun x => jac_rows (fst x)) l), (map (fun x => jac_rows (snd x)) l), st'.
  split; [|split; [|split]].
  - unfold compute_endeffector_jacobian_impl.
    rewrite (kinematic_checks_zeros m qr Hq), Hrun. reflexivity.
  - rewrite length_map. exact Hl.
  - rewrite length_map. exact Hl.
  - intros b Hb. destruct (Hrows b Hb) as (Hll & Hla & Hcols).
    exists (fst (nth b l ([], []))), (snd (nth b l ([], []))).
    split; [|split; [|split; [exact Hll|split; [exact Hla|exact Hcols]]]].
    + rewrite (nth_map_lt _ _ _ _ ([], [])) by (rewrite Hl; exact Hb). reflexivity.
    + rewrite (nth_map_lt _ _ _ _ ([], [])) by (rewrite Hl; exact Hb). reflexivity.
Qed.

Lemma endeffector_jacobian_columns_witness :
  exists lin ang st',
    compute_endeffector_jacobian_impl fork (T2 [[1; 2]])
      (link_name (nth 1 fork default_params)) [construction fork]
    = (Ok (RTuple [VTensor (T3 lin); VTensor (T3 ang)]), st')
    /\ length lin = length [[1; 2]] /\ length ang = length [[1; 2]]
    /\ forall b, (b < length [[1; 2]])%nat ->
         exists lcols acols,
           nth b lin [] = jac_rows lcols /\ nth b ang [] = jac_rows acols
           /\ length lcols = n_dofs fork /\ length acols = n_dofs fork
           /\ forall k, (k < n_dofs fork)%nat ->
                (nth k lcols vzero, nth k acols vzero)
                = if on_path fork 1 (controlled_link fork k)
                  then joint_column fork (nth b st' [])
                         (translation (pose (link (nth b st' []) 1)))
                         (controlled_link fork k)
                  else (vzero, vzero).
Proof.
  apply (endeffector_jacobian_columns fork [[1; 2]] 1 [construction fork]).
  - repeat constructor; simpl; intuition discriminate.
  - reflexivity.
  - apply Nat.ltb_lt. reflexivity.
  - reflexivity.
  - constructor; [apply settled_construction|constructor].
  - apply Nat.ltb_lt. reflexivity.
Defined.

(** ** The inverse kinematics without a target *)

(** X23: [compute_inverse_kinematics_jac] on an empty batch of targets returns
    nothing: if [init_conf] has one entry per controlled joint the loop over
    the targets runs no pass, the test [min_error > min_precision] after it
    reads a local that was never bound, and the call raises; otherwise the
    assertion on [init_conf] fails. *)
Lemma inverse_kinematics_jac_without_target
  (linalg_solve : list (list R) -> list R -> res (list R)) (empty_row : list R)
  (m : robot) (link : string)
  (min_precision min_convergency_update learning_rate damping_factor : R)
  (ic : list R) (max_num_iter : nat) (st : state) :
  compute_inverse_kinematics_jac linalg_solve empty_row m link min_precision
    min_convergency_update learning_rate damping_factor
    (T2 []) (T2 []) (T1 ic) max_num_iter st
  = (if Nat.eqb (length ic) (n_dofs m)
     then Raise UnboundLocalError
     else Raise AssertionError, st).
Proof.
  unfold compute_inverse_kinematics_jac, inverse_kinematics_jac_rows.
  cbn [length shape hd Nat.eqb rows_have forallb assert res_bind].
  destruct (Nat.eqb (length ic) (n_dofs m)); reflexivity.
Qed.

(** * Inverse and forward dynamics as mutual inverses *)

(** ** The round trip of inverse and forward dynamics *)




(** One row: the two sweeps on the fields of one batch row. *)








(** It does so whatever the torque, the joint state, the flags and the fields
    the call starts from. *)
Lemma massless_forward_dynamics_never_finite (q qd f : R) (g d : bool)
  (b0 b1 : body_state) :
  fst (fst (compute_forward_dynamics_impl massless_pendulum
              (T2 [[q]]) (T2 [[qd]]) (T2 [[f]]) g d [[b0; b1]]))
  = Raise NonFinite.
Proof.
  destruct g, d; model_eval;
    match goal with
    | |- context [Req_dec_T ?x 0] =>
        destruct (Req_dec_T x 0) as [?|Hnz];
        [reflexivity | exfalso; apply Hnz; ring]
    end.
Qed.
